(** * Seat lifecycle engine of the reservation service

    A shallow embedding of [src/services/redisService.ts] (class
    [SeatService], the service the routes are wired to, and the key
    builders [RedisKeys]), of the gate, the hold, reserve and release paths
    and the expiry timers of [src/services/enhancedSeatService.ts] (class
    [EnhancedSeatService]), of the error middleware, the seat routes with
    their body validation and the identifier checks, and of the bookkeeping
    of class [WebSocketService], with the properties of the seat state
    machine and of its surroundings proved over them.

    Conventions of the embedding:
    - identifiers ([EventId], [UserId]) are strings; seat numbers, counts
      and instants (milliseconds since the epoch, what [Date.now()] and the
      ISO timestamps carry) are integers;
    - the stores are finite maps. A Redis key built by [RedisKeys] from an
      event id and a seat number is modelled by the pair itself, a JSON
      document by the record it serialises;
    - a key written with a time to live is stored with the instant at which
      it expires, the instant the store serves the command plus the time to
      live; a command served at instant [now] sees the key as long as [now]
      is not after that instant;
    - the clock readings of one call are one instant [now]; the store
      serves a [SETEX] that follows a clock reading [lag] milliseconds
      after it, so that the key it writes outlives the [expiresAt] computed
      from the reading by [lag];
    - every operation is a computation in a state-and-error monad over the
      store: a [throw] leaves the writes made before it in place, exactly
      as the awaited commands of the source do. An operation run this way
      is run as a whole; calls whose awaits interleave are modelled apart,
      await by await;
    - commands to the stores always answer (infrastructure faults are not
      modelled); a hold duration stands for a positive number of seconds,
      as the routes enforce (30 to 300, 60 by default), so that [SETEX]
      is never refused;
    - logging and notifications, which no modelled operation reads back,
      are left out of the services. *)

From Stdlib Require Import Ascii.
From stdpp Require Import gmap strings list fin_maps sorting pretty.

Open Scope Z_scope.

(** ** Data model ([src/types/index.ts]) *)

Inductive SeatStatus := available | held | reserved.

Inductive EventStatus := active | inactive | cancelled.

#[global] Instance SeatStatus_eq_dec : EqDecision SeatStatus.
Proof. solve_decision. Defined.

#[global] Instance EventStatus_eq_dec : EqDecision EventStatus.
Proof. solve_decision. Defined.

Record Event := mkEvent {
  id : string;
  name : string;
  description : string;
  totalSeats : Z;
  createdAt : Z;
  ev_status : EventStatus
}.

Record Seat := mkSeat {
  eventId : string;
  seatNumber : Z;
  status : SeatStatus;
  userId : option string;
  heldAt : option Z;
  reservedAt : option Z
}.

Record SeatHold := mkSeatHold {
  hold_eventId : string;
  hold_seatNumber : Z;
  hold_userId : string;
  hold_heldAt : Z;
  expiresAt : Z
}.

Record SeatReservation := mkSeatReservation {
  res_eventId : string;
  res_seatNumber : Z;
  res_userId : string;
  res_reservedAt : Z
}.

#[global] Instance Seat_eq_dec : EqDecision Seat.
Proof. solve_decision. Defined.

#[global] Instance SeatHold_eq_dec : EqDecision SeatHold.
Proof. solve_decision. Defined.

#[global] Instance SeatReservation_eq_dec : EqDecision SeatReservation.
Proof. solve_decision. Defined.

(** ** Errors

    One constructor per [throw new Error(...)] of the two services, and one
    for the error with which PostgreSQL refuses a second row under the
    constraint [UNIQUE(event_id, seat_number)] of table [reservations];
    [error_message] gives the message thrown. *)

Inductive Error :=
| InvalidSeatCount
| EventAlreadyExists
| EventNotFound
| InvalidSeatNumber
| SeatNotFound
| SeatNotAvailable
| QuotaExceeded (max : Z)
| SeatNotHeld
| HeldByAnotherUser
| HoldExpired
| LockContention
| UniqueViolation.

#[global] Instance Error_eq_dec : EqDecision Error.
Proof. solve_decision. Defined.

Definition error_message (e : Error) : string :=
  match e with
  | InvalidSeatCount => "Total seats must be between 10 and 1000"
  | EventAlreadyExists => "Event already exists"
  | EventNotFound => "Event not found"
  | InvalidSeatNumber => "Invalid seat number"
  | SeatNotFound => "Seat not found"
  | SeatNotAvailable => "Seat is not available"
  | QuotaExceeded max => "User can hold maximum " +:+ pretty max +:+ " seats"
  | SeatNotHeld => "Seat is not held"
  | HeldByAnotherUser => "Seat is held by another user"
  | HoldExpired => "Seat hold has expired"
  | LockContention => "Seat is currently being processed by another user"
  | UniqueViolation =>
      "duplicate key value violates unique constraint " +:+
      String "034" ("reservations_event_id_seat_number_key" +:+ String "034" EmptyString)
  end.

Inductive Result (A : Type) :=
| Ok (a : A)
| Err (e : Error).

Arguments Ok {A} a.
Arguments Err {A} e.

Definition is_ok {A} (r : Result A) : bool :=
  match r with Ok _ => true | Err _ => false end.

(** ** State-and-error monad over a store [S] *)

Definition M (S A : Type) : Type := S → Result A * S.

Definition ret {S A} (a : A) : M S A := λ s, (Ok a, s).

Definition throw {S A} (e : Error) : M S A := λ s, (Err e, s).

Definition bind {S A B} (c : M S A) (k : A → M S B) : M S B :=
  λ s, match c s with
       | (Ok a, s') => k a s'
       | (Err e, s') => (Err e, s')
       end.

(** [try { body } finally { cleanup }]: the cleanup runs on both exits and
    the outcome of the body is kept. *)
Definition finally {S A} (body : M S A) (cleanup : M S unit) : M S A :=
  λ s, let '(r, s') := body s in (r, (cleanup s').2).

Notation "'let*' x := c 'in' k" := (bind c (λ x, k))
  (at level 10, x name, c at level 100, k at level 200).
Notation "c ;; k" := (bind c (λ _, k))
  (at level 100, k at level 200, right associativity).

(** JavaScript truthiness of a [string | null] value. *)
Definition truthy (s : option string) : bool :=
  match s with
  | Some EmptyString | None => false
  | Some _ => true
  end.

(** ** The Redis-only service ([src/services/redisService.ts]) *)

Module SeatService.

(** The keys of [RedisKeys] the service uses, one field per family:
    [event:{id}], the hash [event_seats:{id}] (field: seat number),
    [seat_hold:{id}:{n}] (written with [SETEX], so kept with its eviction
    instant), the set [user_holds:{user}:{id}] and
    [seat_reserved:{id}:{n}]. *)
Record Redis := mkRedis {
  event : gmap string Event;
  eventSeats : gmap string (gmap Z Seat);
  seatHold : gmap (string * Z) (SeatHold * Z);
  userHolds : gmap (string * string) (gset Z);
  seatReserved : gmap (string * Z) SeatReservation
}.

Definition empty : Redis := mkRedis ∅ ∅ ∅ ∅ ∅.

Definition seats_of (st : Redis) (e : string) : gmap Z Seat :=
  default ∅ (eventSeats st !! e).

Definition holds_of (st : Redis) (u e : string) : gset Z :=
  default ∅ (userHolds st !! (u, e)).

(** *** Commands *)

Definition get_event (e : string) : M Redis (option Event) :=
  λ st, (Ok (event st !! e), st).

Definition set_event (e : string) (ev : Event) : M Redis unit :=
  λ st, (Ok (), mkRedis (<[e := ev]> (event st)) (eventSeats st) (seatHold st)
                        (userHolds st) (seatReserved st)).

Definition hGet (e : string) (n : Z) : M Redis (option Seat) :=
  λ st, (Ok (seats_of st e !! n), st).

Definition hGetAll (e : string) : M Redis (list (Z * Seat)) :=
  λ st, (Ok (map_to_list (seats_of st e)), st).

Definition hSet (e : string) (n : Z) (s : Seat) : M Redis unit :=
  λ st, (Ok (), mkRedis (event st) (<[e := <[n := s]> (seats_of st e)]> (eventSeats st))
                        (seatHold st) (userHolds st) (seatReserved st)).

(** [hSet key object]: every field of the object is written. *)
Definition hSetAll (e : string) (fields : gmap Z Seat) : M Redis unit :=
  λ st, (Ok (), mkRedis (event st) (<[e := fields ∪ seats_of st e]> (eventSeats st))
                        (seatHold st) (userHolds st) (seatReserved st)).

(** [GET seat_hold:...] served at instant [now]: the key is seen until
    [now] is after the instant it expires at. *)
Definition live_hold (st : Redis) (now : Z) (e : string) (n : Z) : option SeatHold :=
  match seatHold st !! (e, n) with
  | Some (h, evictAt) => if decide (now ≤ evictAt) then Some h else None
  | None => None
  end.

Definition get_hold (now : Z) (e : string) (n : Z) : M Redis (option SeatHold) :=
  λ st, (Ok (live_hold st now e n), st).

(** [SETEX key seconds value] served at instant [now]. *)
Definition setEx_hold (now : Z) (e : string) (n : Z) (seconds : Z) (h : SeatHold)
  : M Redis unit :=
  λ st, (Ok (), mkRedis (event st) (eventSeats st)
                        (<[(e, n) := (h, now + seconds * 1000)]> (seatHold st))
                        (userHolds st) (seatReserved st)).

Definition del_hold (e : string) (n : Z) : M Redis unit :=
  λ st, (Ok (), mkRedis (event st) (eventSeats st) (delete (e, n) (seatHold st))
                        (userHolds st) (seatReserved st)).

Definition sAdd (u e : string) (n : Z) : M Redis unit :=
  λ st, (Ok (), mkRedis (event st) (eventSeats st) (seatHold st)
                        (<[(u, e) := {[n]} ∪ holds_of st u e]> (userHolds st))
                        (seatReserved st)).

Definition sRem (u e : string) (n : Z) : M Redis unit :=
  λ st, (Ok (), mkRedis (event st) (eventSeats st) (seatHold st)
                        (<[(u, e) := holds_of st u e ∖ {[n]}]> (userHolds st))
                        (seatReserved st)).

Definition sCard (u e : string) : M Redis Z :=
  λ st, (Ok (Z.of_nat (size (holds_of st u e))), st).

Definition set_reserved (e : string) (n : Z) (r : SeatReservation) : M Redis unit :=
  λ st, (Ok (), mkRedis (event st) (eventSeats st) (seatHold st) (userHolds st)
                        (<[(e, n) := r]> (seatReserved st))).

(** *** Operations of the class *)

Section Operations.

(** [parseInt(process.env['MAX_HOLDS_PER_USER'] || '5', 10)] *)
Variable maxHoldsPerUser : Z.

Definition initialSeats (e : string) (total : Z) : gmap Z Seat :=
  list_to_map ((λ n, (n, mkSeat e n available None None None)) <$> seqZ 1 total).

Definition createEvent (now : Z) (e : string) (total : Z) (nm descr : string)
  : M Redis Event :=
  if decide (total < 10 ∨ total > 1000) then throw InvalidSeatCount else
  let* existing := get_event e in
  match existing with
  | Some _ => throw EventAlreadyExists
  | None =>
      let eventData := mkEvent e nm descr total now active in
      set_event e eventData ;;
      hSetAll e (initialSeats e total) ;;
      ret eventData
  end.

Definition getEvent (e : string) : M Redis Event :=
  let* eventData := get_event e in
  match eventData with
  | None => throw EventNotFound
  | Some ev => ret ev
  end.

Definition getUserHoldCount (e u : string) : M Redis Z :=
  sCard u e.

Definition holdSeat (now lag : Z) (e : string) (n : Z) (u : string) (holdDuration : Z)
  : M Redis SeatHold :=
  let* ev := getEvent e in
  if decide (n < 1 ∨ n > totalSeats ev) then throw InvalidSeatNumber else
  let* seatData := hGet e n in
  match seatData with
  | None => throw SeatNotFound
  | Some seat =>
      if decide (status seat ≠ available) then throw SeatNotAvailable else
      let* userHoldCount := getUserHoldCount e u in
      if decide (userHoldCount >= maxHoldsPerUser)
      then throw (QuotaExceeded maxHoldsPerUser) else
      let heldAt' := now in
      let updatedSeat :=
        mkSeat (eventId seat) (seatNumber seat) held (Some u) (Some heldAt')
               (reservedAt seat) in
      hSet e n updatedSeat ;;
      let holdData := mkSeatHold e n u heldAt' (now + holdDuration * 1000) in
      setEx_hold (now + lag) e n holdDuration holdData ;;
      sAdd u e n ;;
      ret holdData
  end.

Definition releaseSeat (e : string) (n : Z) : M Redis unit :=
  let* seatData := hGet e n in
  match seatData with
  | None => throw SeatNotFound
  | Some seat =>
      if decide (status seat = held) then
        let updatedSeat :=
          mkSeat (eventId seat) (seatNumber seat) available None None
                 (reservedAt seat) in
        hSet e n updatedSeat ;;
        del_hold e n ;;
        match userId seat with
        | Some u => if truthy (userId seat) then sRem u e n else ret ()
        | None => ret ()
        end
      else ret ()
  end.

Definition reserveSeat (now : Z) (e : string) (n : Z) (u : string)
  : M Redis SeatReservation :=
  let* holdData := get_hold now e n in
  match holdData with
  | None => throw SeatNotHeld
  | Some hold =>
      if decide (hold_userId hold ≠ u) then throw HeldByAnotherUser else
      if decide (expiresAt hold < now) then
        releaseSeat e n ;;
        throw HoldExpired
      else
      let* seatData := hGet e n in
      match seatData with
      | None => throw SeatNotFound
      | Some seat =>
          let reservedAt' := now in
          let updatedSeat :=
            mkSeat (eventId seat) (seatNumber seat) reserved (userId seat)
                   (heldAt seat) (Some reservedAt') in
          hSet e n updatedSeat ;;
          del_hold e n ;;
          let reservation := mkSeatReservation e n u reservedAt' in
          set_reserved e n reservation ;;
          sRem u e n ;;
          ret reservation
      end
  end.

Definition refreshSeatHold (now lag : Z) (e : string) (n : Z) (u : string)
    (holdDuration : Z) : M Redis SeatHold :=
  let* holdData := get_hold now e n in
  match holdData with
  | None => throw SeatNotHeld
  | Some hold =>
      if decide (hold_userId hold ≠ u) then throw HeldByAnotherUser else
      if decide (expiresAt hold < now) then
        releaseSeat e n ;;
        throw HoldExpired
      else
      let newExpiresAt := now + holdDuration * 1000 in
      let updatedHold :=
        mkSeatHold (hold_eventId hold) (hold_seatNumber hold) (hold_userId hold)
                   (hold_heldAt hold) newExpiresAt in
      setEx_hold (now + lag) e n holdDuration updatedHold ;;
      ret updatedHold
  end.

(** The body of the [for ... of Object.entries(allSeats)] loop of
    [getAvailableSeats], over the entries still to visit; the result is the
    list of seat numbers pushed, in visiting order. *)
Fixpoint collectAvailable (now : Z) (e : string) (entries : list (Z * Seat))
  : M Redis (list Z) :=
  match entries with
  | [] => ret []
  | (n, seat) :: rest =>
      match status seat with
      | available =>
          let* more := collectAvailable now e rest in
          ret (n :: more)
      | held =>
          let* holdData := get_hold now e n in
          match holdData with
          | None =>
              releaseSeat e n ;;
              let* more := collectAvailable now e rest in
              ret (n :: more)
          | Some _ => collectAvailable now e rest
          end
      | reserved => collectAvailable now e rest
      end
  end.

(** [availableSeats.sort((a, b) => a.seatNumber - b.seatNumber)]; every
    element of the result carries the constant status ['available'], so
    the list of seat numbers stands for it. *)
Definition sortBySeatNumber (l : list Z) : list Z := merge_sort Z.le l.

Definition getAvailableSeats (now : Z) (e : string) : M Redis (list Z) :=
  getEvent e ;;
  let* allSeats := hGetAll e in
  let* availableSeats := collectAvailable now e allSeats in
  ret (sortBySeatNumber availableSeats).

Definition getSeatStatus (now : Z) (e : string) (n : Z) : M Redis Seat :=
  let* seatData := hGet e n in
  match seatData with
  | None => throw SeatNotFound
  | Some seat =>
      if decide (status seat = held) then
        let* holdData := get_hold now e n in
        match holdData with
        | None =>
            releaseSeat e n ;;
            ret (mkSeat (eventId seat) (seatNumber seat) available None None
                        (reservedAt seat))
        | Some _ => ret seat
        end
      else ret seat
  end.

End Operations.

(** *** The service as a transition system

    One constructor per state-changing entry point, with the instant at
    which it runs where the source reads the clock, and the lag of its
    [SETEX] where it issues one. *)

Inductive Op :=
| CreateEvent (now : Z) (e : string) (total : Z) (nm descr : string)
| HoldSeat (now lag : Z) (e : string) (n : Z) (u : string) (holdDuration : Z)
| ReserveSeat (now : Z) (e : string) (n : Z) (u : string)
| ReleaseSeat (e : string) (n : Z)
| RefreshSeatHold (now lag : Z) (e : string) (n : Z) (u : string) (holdDuration : Z)
| GetAvailableSeats (now : Z) (e : string)
| GetSeatStatus (now : Z) (e : string) (n : Z).

Section Transitions.

Variable maxHoldsPerUser : Z.

Definition exec (op : Op) (st : Redis) : Redis :=
  match op with
  | CreateEvent now e total nm descr => (createEvent now e total nm descr st).2
  | HoldSeat now lag e n u d => (holdSeat maxHoldsPerUser now lag e n u d st).2
  | ReserveSeat now e n u => (reserveSeat now e n u st).2
  | ReleaseSeat e n => (releaseSeat e n st).2
  | RefreshSeatHold now lag e n u d => (refreshSeatHold now lag e n u d st).2
  | GetAvailableSeats now e => (getAvailableSeats now e st).2
  | GetSeatStatus now e n => (getSeatStatus now e n st).2
  end.

Definition run (ops : list Op) (st : Redis) : Redis :=
  foldl (λ s op, exec op s) st ops.

(** The states the service can bring an initially empty store to. *)
Definition reachable (st : Redis) : Prop := ∃ ops, st = run ops empty.

End Transitions.

(** *** Consistency of a store *)

Definition seat_at (st : Redis) (e : string) (n : Z) : option Seat :=
  seats_of st e !! n.

(** What the fields of a seat record hold in each status. *)
Definition fields_match (s : Seat) : Prop :=
  match status s with
  | available => userId s = None ∧ heldAt s = None ∧ reservedAt s = None
  | held => is_Some (userId s) ∧ is_Some (heldAt s) ∧ reservedAt s = None
  | reserved => is_Some (userId s) ∧ is_Some (heldAt s) ∧ is_Some (reservedAt s)
  end.

(** The record [releaseSeat] writes over a held seat. *)
Definition released_seat (s : Seat) : Seat :=
  mkSeat (eventId s) (seatNumber s) available None None (reservedAt s).

(** The record [reserveSeat] writes over the seat at instant [now]. *)
Definition reserved_seat (now : Z) (s : Seat) : Seat :=
  mkSeat (eventId s) (seatNumber s) reserved (userId s) (heldAt s) (Some now).

(** A held seat whose lease the store no longer shows at instant [now]. *)
Definition stale (st : Redis) (now : Z) (e : string) (n : Z) (s : Seat) : Prop :=
  status s = held ∧ live_hold st now e n = None.

(** The seats [getAvailableSeats] pushes: available ones and stale holds. *)
Definition listable (st : Redis) (now : Z) (e : string) (n : Z) (s : Seat) : Prop :=
  status s = available ∨ stale st now e n s.

(** The reading of the data model under which the two timestamps exclude
    each other. *)
Definition timestamps_exclusive (s : Seat) : Prop :=
  (is_Some (heldAt s) ↔ status s = held) ∧
  (is_Some (reservedAt s) ↔ status s = reserved) ∧
  ¬ (is_Some (heldAt s) ∧ is_Some (reservedAt s)).

Record consistent (st : Redis) : Prop := mkConsistent {
  seats_have_event : ∀ e n s, seat_at st e n = Some s → is_Some (event st !! e);
  seats_fields : ∀ e n s, seat_at st e n = Some s → fields_match s;
  hold_backed : ∀ e n h t, seatHold st !! (e, n) = Some (h, t) →
    ∃ s, seat_at st e n = Some s ∧ status s = held ∧
         userId s = Some (hold_userId h) ∧ heldAt s = Some (hold_heldAt h)
}.

(** [st'] differs from [st] at most by held seats that were released. *)
Definition reconciles (st st' : Redis) : Prop :=
  ∀ e n,
    seat_at st' e n = seat_at st e n ∨
    ∃ seat, seat_at st e n = Some seat ∧ status seat = held ∧
            seat_at st' e n = Some (released_seat seat).

(** What one operation can do to the record of one seat. *)
Inductive seat_transition (st : Redis) (op : Op) (e : string) (n : Z)
    (seat seat' : Seat) : Prop :=
| seat_kept :
    seat' = seat →
    seat_transition st op e n seat seat'
| seat_released :
    status seat = held →
    seat' = released_seat seat →
    seat_transition st op e n seat seat'
| seat_taken now lag u d :
    op = HoldSeat now lag e n u d →
    status seat = available →
    seat' = mkSeat (eventId seat) (seatNumber seat) held (Some u) (Some now)
                   (reservedAt seat) →
    seat_transition st op e n seat seat'
| seat_confirmed now u h :
    op = ReserveSeat now e n u →
    live_hold st now e n = Some h →
    hold_userId h = u →
    ¬ expiresAt h < now →
    status seat = held →
    userId seat = Some u →
    seat' = reserved_seat now seat →
    seat_transition st op e n seat seat'.

(** *** [holdSeat] between its awaits

    Every [await] of [holdSeat] hands control back to the event loop, and
    the commands of other calls may reach the store in between. A call in
    flight is the await it is suspended at, with the locals it has bound so
    far; a step performs the awaited command on the shared store and runs
    the synchronous code up to the next await. *)

Record HoldCall := mkHoldCall {
  call_now : Z;
  call_lag : Z;
  call_eventId : string;
  call_seatNumber : Z;
  call_userId : string;
  call_holdDuration : Z
}.

Inductive HoldTask :=
| AwaitGetEvent
| AwaitHGet
| AwaitSCard (seat : Seat)
| AwaitHSet (updatedSeat : Seat)
| AwaitSetEx (holdData : SeatHold)
| AwaitSAdd (holdData : SeatHold)
| Settled (outcome : Result SeatHold).

Section Interleaving.

Variable maxHoldsPerUser : Z.

Definition hold_step (c : HoldCall) (t : HoldTask) (st : Redis) : HoldTask * Redis :=
  let now := call_now c in
  let e := call_eventId c in
  let n := call_seatNumber c in
  let u := call_userId c in
  match t with
  | AwaitGetEvent =>
      match getEvent e st with
      | (Ok ev, st') =>
          if decide (n < 1 ∨ n > totalSeats ev)
          then (Settled (Err InvalidSeatNumber), st')
          else (AwaitHGet, st')
      | (Err err, st') => (Settled (Err err), st')
      end
  | AwaitHGet =>
      match hGet e n st with
      | (Ok (Some seat), st') =>
          if decide (status seat ≠ available)
          then (Settled (Err SeatNotAvailable), st')
          else (AwaitSCard seat, st')
      | (Ok None, st') => (Settled (Err SeatNotFound), st')
      | (Err err, st') => (Settled (Err err), st')
      end
  | AwaitSCard seat =>
      match getUserHoldCount e u st with
      | (Ok userHoldCount, st') =>
          if decide (userHoldCount >= maxHoldsPerUser)
          then (Settled (Err (QuotaExceeded maxHoldsPerUser)), st')
          else
            (AwaitHSet (mkSeat (eventId seat) (seatNumber seat) held (Some u)
                               (Some now) (reservedAt seat)), st')
      | (Err err, st') => (Settled (Err err), st')
      end
  | AwaitHSet updatedSeat =>
      (AwaitSetEx (mkSeatHold e n u now (now + call_holdDuration c * 1000)),
       (hSet e n updatedSeat st).2)
  | AwaitSetEx holdData =>
      (AwaitSAdd holdData,
       (setEx_hold (now + call_lag c) e n (call_holdDuration c) holdData st).2)
  | AwaitSAdd holdData =>
      (Settled (Ok holdData), (sAdd u e n st).2)
  | Settled r => (Settled r, st)
  end.

(** The calls in flight, each with the await it is suspended at, around
    the shared store. *)
Definition Pool : Type := list (HoldCall * HoldTask) * Redis.

Definition resume (i : nat) (p : Pool) : Pool :=
  match p.1 !! i with
  | Some (c, t) =>
      let '(t', st') := hold_step c t p.2 in
      (<[i := (c, t')]> p.1, st')
  | None => p
  end.

(** A schedule names, in order, the call whose awaited command is served
    next. *)
Definition interleave (schedule : list nat) (p : Pool) : Pool :=
  foldl (λ q i, resume i q) p schedule.

End Interleaving.

(** *** [releaseSeat] and [reserveSeat] between their awaits

    The same reading of the two operations that end a hold. [reserveSeat]
    awaits [releaseSeat] when it finds the lease past its [expiresAt]: the
    steps of that call are then the steps of the release, and its outcome
    decides the error thrown. *)

Inductive ReleaseTask :=
| ReleaseHGet
| ReleaseHSet (seat : Seat)
| ReleaseDel (seat : Seat)
| ReleaseSRem (u : string)
| ReleaseSettled (outcome : Result unit).

Definition release_step (e : string) (n : Z) (t : ReleaseTask) (st : Redis)
  : ReleaseTask * Redis :=
  match t with
  | ReleaseHGet =>
      match hGet e n st with
      | (Ok (Some seat), st') =>
          if decide (status seat = held) then (ReleaseHSet seat, st')
          else (ReleaseSettled (Ok ()), st')
      | (Ok None, st') => (ReleaseSettled (Err SeatNotFound), st')
      | (Err err, st') => (ReleaseSettled (Err err), st')
      end
  | ReleaseHSet seat =>
      (ReleaseDel seat,
       (hSet e n (mkSeat (eventId seat) (seatNumber seat) available None None
                         (reservedAt seat)) st).2)
  | ReleaseDel seat =>
      let st' := (del_hold e n st).2 in
      match userId seat with
      | Some u =>
          if truthy (userId seat) then (ReleaseSRem u, st')
          else (ReleaseSettled (Ok ()), st')
      | None => (ReleaseSettled (Ok ()), st')
      end
  | ReleaseSRem u => (ReleaseSettled (Ok ()), (sRem u e n st).2)
  | ReleaseSettled r => (ReleaseSettled r, st)
  end.

Record ReserveCall := mkReserveCall {
  reserve_now : Z;
  reserve_eventId : string;
  reserve_seatNumber : Z;
  reserve_userId : string
}.

Inductive ReserveTask :=
| ReserveGet
| ReserveRelease (release : ReleaseTask)
| ReserveHGet
| ReserveHSet (updatedSeat : Seat)
| ReserveDel
| ReserveSet (reservation : SeatReservation)
| ReserveSRem (reservation : SeatReservation)
| ReserveSettled (outcome : Result SeatReservation).

Definition reserve_step (c : ReserveCall) (t : ReserveTask) (st : Redis)
  : ReserveTask * Redis :=
  let now := reserve_now c in
  let e := reserve_eventId c in
  let n := reserve_seatNumber c in
  let u := reserve_userId c in
  match t with
  | ReserveGet =>
      match get_hold now e n st with
      | (Ok (Some hold), st') =>
          if decide (hold_userId hold ≠ u)
          then (ReserveSettled (Err HeldByAnotherUser), st')
          else if decide (expiresAt hold < now)
          then (ReserveRelease ReleaseHGet, st')
          else (ReserveHGet, st')
      | (Ok None, st') => (ReserveSettled (Err SeatNotHeld), st')
      | (Err err, st') => (ReserveSettled (Err err), st')
      end
  | ReserveRelease release =>
      match release_step e n release st with
      | (ReleaseSettled (Ok _), st') => (ReserveSettled (Err HoldExpired), st')
      | (ReleaseSettled (Err err), st') => (ReserveSettled (Err err), st')
      | (release', st') => (ReserveRelease release', st')
      end
  | ReserveHGet =>
      match hGet e n st with
      | (Ok (Some seat), st') =>
          (ReserveHSet (mkSeat (eventId seat) (seatNumber seat) reserved (userId seat)
                               (heldAt seat) (Some now)), st')
      | (Ok None, st') => (ReserveSettled (Err SeatNotFound), st')
      | (Err err, st') => (ReserveSettled (Err err), st')
      end
  | ReserveHSet updatedSeat => (ReserveDel, (hSet e n updatedSeat st).2)
  | ReserveDel => (ReserveSet (mkSeatReservation e n u now), (del_hold e n st).2)
  | ReserveSet reservation =>
      (ReserveSRem reservation, (set_reserved e n reservation st).2)
  | ReserveSRem reservation =>
      (ReserveSettled (Ok reservation), (sRem u e n st).2)
  | ReserveSettled r => (ReserveSettled r, st)
  end.

(** A call of [reserveSeat] and a call of [releaseSeat] for one seat in
    flight together, around the shared store; a schedule names, in order,
    the call whose awaited command is served next. *)
Inductive Turn := of_reserve | of_release.

Record Flight := mkFlight {
  reserving : ReserveTask;
  releasing : ReleaseTask;
  served : Redis
}.

Definition serve (c : ReserveCall) (f : Flight) (turn : Turn) : Flight :=
  match turn with
  | of_reserve =>
      let '(t, st) := reserve_step c (reserving f) (served f) in
      mkFlight t (releasing f) st
  | of_release =>
      let '(t, st) :=
        release_step (reserve_eventId c) (reserve_seatNumber c) (releasing f) (served f) in
      mkFlight (reserving f) t st
  end.

Definition overlap (c : ReserveCall) (schedule : list Turn) (f : Flight) : Flight :=
  foldl (serve c) f schedule.

(** *** [getAllEvents]

    [client.keys('event:*')] answers the keys of the event family in an
    order Redis does not fix; here the order of the map's listing. *)

Definition keys_event : M Redis (list string) :=
  λ st, (Ok (map_to_list (event st)).*1, st).

(** The [for (const key of keys)] loop: a key whose value is gone is
    skipped. *)
Fixpoint collectEvents (keys : list string) : M Redis (list Event) :=
  match keys with
  | [] => ret []
  | key :: rest =>
      let* eventData := get_event key in
      let* more := collectEvents rest in
      ret (match eventData with
           | Some ev => ev :: more
           | None => more
           end)
  end.

(** The comparator [(a, b) => new Date(b.createdAt) - new Date(a.createdAt)]
    puts [a] before [b] when [a] is not older than [b]. *)
Definition newer_first (a b : Event) : Prop := createdAt b ≤ createdAt a.

#[global] Instance newer_first_dec : RelDecision newer_first.
Proof. intros a b. unfold newer_first. apply _. Defined.

Definition getAllEvents : M Redis (list Event) :=
  let* keys := keys_event in
  let* events := collectEvents keys in
  ret (merge_sort newer_first events).

(** *** More of what a reachable store satisfies *)

(** Every record sits under its own key, and an event has exactly the
    seats 1 to [totalSeats]. *)
Record laid_out (st : Redis) : Prop := mkLaidOut {
  event_keyed : ∀ e ev, event st !! e = Some ev →
    id ev = e ∧ 10 ≤ totalSeats ev ≤ 1000 ∧ ev_status ev = active;
  seat_keyed : ∀ e n s, seat_at st e n = Some s → eventId s = e ∧ seatNumber s = n;
  seats_numbered : ∀ e ev n, event st !! e = Some ev →
    (is_Some (seat_at st e n) ↔ 1 ≤ n ≤ totalSeats ev)
}.

(** The set of a holder (with a non-empty id) lists exactly the seats
    whose record is held by that holder. *)
Definition holds_exact (st : Redis) : Prop :=
  ∀ u e n, u ≠ EmptyString →
    (n ∈ holds_of st u e ↔
     ∃ s, seat_at st e n = Some s ∧ status s = held ∧ userId s = Some u).

(** A reservation record exists exactly for a reserved seat, and repeats
    its holder and instant. *)
Definition reservations_exact (st : Redis) : Prop :=
  ∀ e n r,
    seatReserved st !! (e, n) = Some r ↔
    ∃ s u t, seat_at st e n = Some s ∧ status s = reserved ∧
             userId s = Some u ∧ reservedAt s = Some t ∧
             r = mkSeatReservation e n u t.

End SeatService.

(** ** The PostgreSQL + Redis service ([src/services/enhancedSeatService.ts]) *)

Module EnhancedSeatService.

(** A row of table [seats] ([database/schema.sql]). *)
Record SeatRow := mkSeatRow {
  event_id : string;
  seat_number : Z;
  row_status : SeatStatus;
  user_id : option string;
  held_at : option Z;
  reserved_at : option Z
}.

(** Table [seats] (unique on [(event_id, seat_number)]), table
    [reservations] (unique on the same pair), the Redis keys
    [hold:{id}:{n}], [user_holds:{user}:{id}] and [lock:seat:{id}:{n}], and
    the timers of the process: a lock value is the pair the source formats
    as [`${userId}:${Date.now()}`], a timer is the instant it is due at
    with the seat it was set for. *)
Record Store := mkStore {
  seats : gmap (string * Z) SeatRow;
  reservations : gmap (string * Z) SeatReservation;
  hold : gmap (string * Z) (SeatHold * Z);
  user_holds : gmap (string * string) (gset Z);
  lock : gmap (string * Z) ((string * Z) * Z);
  timers : list (Z * (string * Z))
}.

Definition holds_of (st : Store) (u e : string) : gset Z :=
  default ∅ (user_holds st !! (u, e)).

(** A key of Redis is seen until [now] is after the instant it expires
    at. *)
Definition live_lock (st : Store) (now : Z) (e : string) (n : Z) : option (string * Z) :=
  match lock st !! (e, n) with
  | Some (v, evictAt) => if decide (now ≤ evictAt) then Some v else None
  | None => None
  end.

Definition live_hold (st : Store) (now : Z) (e : string) (n : Z) : option SeatHold :=
  match hold st !! (e, n) with
  | Some (h, evictAt) => if decide (now ≤ evictAt) then Some h else None
  | None => None
  end.

(** *** Commands *)

(** [SET key value EX seconds NX]: writes only when no live key is there,
    and answers whether it wrote. *)
Definition set_lock_NX (now : Z) (e : string) (n : Z) (v : string * Z) (seconds : Z)
  : M Store bool :=
  λ st, match live_lock st now e n with
        | Some _ => (Ok false, st)
        | None => (Ok true, mkStore (seats st) (reservations st) (hold st) (user_holds st)
                              (<[(e, n) := (v, now + seconds * 1000)]> (lock st))
                              (timers st))
        end.

Definition del_lock (e : string) (n : Z) : M Store unit :=
  λ st, (Ok (), mkStore (seats st) (reservations st) (hold st) (user_holds st)
                        (delete (e, n) (lock st)) (timers st)).

(** [SELECT * FROM seats WHERE event_id = $1 AND seat_number = $2] *)
Definition select_seat (e : string) (n : Z) : M Store (option SeatRow) :=
  λ st, (Ok (seats st !! (e, n)), st).

(** [UPDATE seats SET ... WHERE event_id = $1 AND seat_number = $2] *)
Definition update_seat (e : string) (n : Z) (f : SeatRow → SeatRow) : M Store unit :=
  λ st, (Ok (), mkStore (alter f (e, n) (seats st)) (reservations st) (hold st)
                        (user_holds st) (lock st) (timers st)).

(** [INSERT INTO reservations (event_id, seat_number, user_id, reserved_at)
    VALUES (...) RETURNING *]: refused when the table has a row for the
    seat. *)
Definition insert_reservation (r : SeatReservation) : M Store SeatReservation :=
  λ st, match reservations st !! (res_eventId r, res_seatNumber r) with
        | Some _ => (Err UniqueViolation, st)
        | None =>
            (Ok r, mkStore (seats st)
                           (<[(res_eventId r, res_seatNumber r) := r]> (reservations st))
                           (hold st) (user_holds st) (lock st) (timers st))
        end.

Definition get_hold (now : Z) (e : string) (n : Z) : M Store (option SeatHold) :=
  λ st, (Ok (live_hold st now e n), st).

(** [SETEX key seconds value] served at instant [now]. *)
Definition setEx_hold (now : Z) (e : string) (n : Z) (seconds : Z) (h : SeatHold)
  : M Store unit :=
  λ st, (Ok (), mkStore (seats st) (reservations st)
                        (<[(e, n) := (h, now + seconds * 1000)]> (hold st))
                        (user_holds st) (lock st) (timers st)).

Definition del_hold (e : string) (n : Z) : M Store unit :=
  λ st, (Ok (), mkStore (seats st) (reservations st) (delete (e, n) (hold st))
                        (user_holds st) (lock st) (timers st)).

Definition sAdd (u e : string) (n : Z) : M Store unit :=
  λ st, (Ok (), mkStore (seats st) (reservations st) (hold st)
                        (<[(u, e) := {[n]} ∪ holds_of st u e]> (user_holds st)) (lock st)
                        (timers st)).

Definition sRem (u e : string) (n : Z) : M Store unit :=
  λ st, (Ok (), mkStore (seats st) (reservations st) (hold st)
                        (<[(u, e) := holds_of st u e ∖ {[n]}]> (user_holds st)) (lock st)
                        (timers st)).

Definition sCard (u e : string) : M Store Z :=
  λ st, (Ok (Z.of_nat (size (holds_of st u e))), st).

(** [setTimeout(() => emit('holdExpired', { eventId, seatNumber }),
    holdDuration * 1000)] at instant [now]. *)
Definition setTimeout (now : Z) (e : string) (n : Z) (seconds : Z) : M Store unit :=
  λ st, (Ok (), mkStore (seats st) (reservations st) (hold st) (user_holds st) (lock st)
                        ((now + seconds * 1000, (e, n)) :: timers st)).

(** [BEGIN; try { body; COMMIT } catch { ROLLBACK; throw }]: a failing body
    loses its writes to the tables, not those to Redis, nor its timers. *)
Definition transaction {A} (body : M Store A) : M Store A :=
  λ st, match body st with
        | (Ok a, st') => (Ok a, st')
        | (Err err, st') =>
            (Err err, mkStore (seats st) (reservations st) (hold st') (user_holds st')
                              (lock st') (timers st'))
        end.

(** *** Operations of the class *)

Section Operations.

Variable maxHoldsPerUser : Z.

Definition getUserHoldCount (e u : string) : M Store Z :=
  sCard u e.

(** The gate of [holdSeat]: acquisition before the [try], release in its
    [finally]. *)
Definition acquireLock (now : Z) (e : string) (n : Z) (u : string) : M Store bool :=
  let lockValue := (u, now) in
  set_lock_NX now e n lockValue 10.

Definition releaseLock (e : string) (n : Z) : M Store unit :=
  del_lock e n.

Definition holdSeat (now lag : Z) (e : string) (n : Z) (u : string) (holdDuration : Z)
  : M Store SeatHold :=
  let* lockAcquired := acquireLock now e n u in
  if negb lockAcquired then throw LockContention else
  finally
    (transaction (
       let* rows := select_seat e n in
       match rows with
       | None => throw SeatNotFound
       | Some seat =>
           if decide (row_status seat ≠ available) then throw SeatNotAvailable else
           let* userHoldCount := getUserHoldCount e u in
           if decide (userHoldCount >= maxHoldsPerUser)
           then throw (QuotaExceeded maxHoldsPerUser) else
           let heldAt' := now in
           update_seat e n (λ r, mkSeatRow (event_id r) (seat_number r) held (Some u)
                                           (Some heldAt') (reserved_at r)) ;;
           let holdData := mkSeatHold e n u heldAt' (now + holdDuration * 1000) in
           setEx_hold (now + lag) e n holdDuration holdData ;;
           sAdd u e n ;;
           setTimeout now e n holdDuration ;;
           ret holdData
       end))
    (releaseLock e n).

Definition releaseSeat (e : string) (n : Z) : M Store unit :=
  transaction (
    let* rows := select_seat e n in
    match rows with
    | None => throw SeatNotFound
    | Some seat =>
        if decide (row_status seat = held) then
          update_seat e n (λ r, mkSeatRow (event_id r) (seat_number r) available None
                                          None (reserved_at r)) ;;
          del_hold e n ;;
          match user_id seat with
          | Some u => if truthy (user_id seat) then sRem u e n else ret ()
          | None => ret ()
          end
        else ret ()
    end).

(** The handler of ['holdExpired'] that the constructor installs. *)
Definition holdExpired (e : string) (n : Z) : M Store unit :=
  releaseSeat e n.

(** A timer of the process fires at instant [now]: nothing happens unless
    it is pending and due; otherwise it is spent and the handler runs, its
    outcome going nowhere. *)
Definition fire (now : Z) (timer : Z * (string * Z)) (st : Store) : Store :=
  if decide (timer ∈ timers st ∧ timer.1 ≤ now) then
    let remaining :=
      match list_find (λ t, t = timer) (timers st) with
      | Some (i, _) => delete i (timers st)
      | None => timers st
      end in
    (holdExpired (timer.2.1) (timer.2.2)
       (mkStore (seats st) (reservations st) (hold st) (user_holds st) (lock st)
                remaining)).2
  else st.

(** Time passes up to instant [now]: the timers due by then fire, the
    oldest first. *)
Definition elapse (now : Z) (st : Store) : Store :=
  foldr (fire now) st (timers st).

(** [reserveSeat]. The transaction it opens first has written nothing when
    one of the three checks throws, so its rollback undoes nothing;
    [releaseSeat], called on an expired lease, runs and commits a
    transaction of its own on another connection. The writes to the tables
    come after the checks, and are rolled back together when the insert is
    refused. *)
Definition reserveSeat (now : Z) (e : string) (n : Z) (u : string)
  : M Store SeatReservation :=
  let* holdData := get_hold now e n in
  match holdData with
  | None => throw SeatNotHeld
  | Some hold =>
      if decide (hold_userId hold ≠ u) then throw HeldByAnotherUser else
      if decide (expiresAt hold < now) then
        releaseSeat e n ;;
        throw HoldExpired
      else
      transaction (
        let reservedAt' := now in
        update_seat e n (λ r, mkSeatRow (event_id r) (seat_number r) reserved (user_id r)
                                        (held_at r) (Some reservedAt')) ;;
        insert_reservation (mkSeatReservation e n u reservedAt') ;;
        del_hold e n ;;
        sRem u e n ;;
        ret (mkSeatReservation e n u reservedAt'))
  end.

End Operations.

End EnhancedSeatService.

(** ** Example stores

    An event with ten seats and a quota of five holds per user, at a few
    points of its life. *)

Module Examples.

Import SeatService.

Definition quota : Z := 5.

Definition opened : list Op :=
  [CreateEvent 0 "concert" 10 "Concert" "Hall"].

(** Alice holds seat 3 for sixty seconds from instant 1000. *)
Definition seat3_held : list Op :=
  opened ++ [HoldSeat 1000 0 "concert" 3 "alice" 60].

(** The same hold when the store serves its [SETEX] five milliseconds after
    the clock was read: the lease outlives its [expiresAt] by as much. *)
Definition seat3_held_late : list Op :=
  opened ++ [HoldSeat 1000 5 "concert" 3 "alice" 60].

(** ... and reserves it at instant 2000. *)
Definition seat3_reserved : list Op :=
  seat3_held ++ [ReserveSeat 2000 "concert" 3 "alice"].

(** Alice holds seats 1 to 4, then seat 5 as well. *)
Definition four_held : list Op :=
  opened ++ ((λ n, HoldSeat 1000 0 "concert" n "alice" 60) <$> [1; 2; 3; 4]).

Definition five_held : list Op :=
  four_held ++ [HoldSeat 1000 0 "concert" 5 "alice" 60].

Definition store (ops : list Op) : Redis := run quota ops empty.

(** An event under a UUID, as the routes require, with seat 3 reserved. *)
Definition gala : string := "123e4567-e89b-12d3-a456-426614174000".

Definition gala_reserved : list Op :=
  [CreateEvent 0 gala 10 "Gala" "Hall"; HoldSeat 1000 0 gala 3 "alice" 60;
   ReserveSeat 2000 gala 3 "alice"].

(** The gated service with the row of seat 3, the gate free and taken. *)
Definition gated : EnhancedSeatService.Store :=
  EnhancedSeatService.mkStore
    {[("concert", 3) :=
        EnhancedSeatService.mkSeatRow "concert" 3 available None None None]} ∅ ∅ ∅ ∅ [].

Definition gated_busy : EnhancedSeatService.Store :=
  EnhancedSeatService.mkStore (EnhancedSeatService.seats gated) ∅ ∅ ∅
    {[("concert", 3) := (("bob", 900), 10900)]} [].

(** Seat 3 held by Alice in the gated service: the lease is stored five
    milliseconds after the clock reading, the timer is set. *)
Definition gated_held : EnhancedSeatService.Store :=
  (EnhancedSeatService.holdSeat quota 1000 5 "concert" 3 "alice" 60 gated).2.

End Examples.

(** ** The error middleware ([src/middleware/errorHandler.ts])

    Every route passes what its service call throws to [errorHandler],
    which chooses the HTTP status from the error's name and from phrases
    found in its message. *)

(** The characters of a string, in order. *)
Fixpoint chars (s : string) : list ascii :=
  match s with
  | EmptyString => []
  | String c rest => c :: chars rest
  end.

Module ErrorHandler.

(** [String.prototype.includes]: [sub] occurs in [s] at some offset. *)
Fixpoint includes (s sub : string) : bool :=
  String.prefix sub s ||
  match s with
  | EmptyString => false
  | String _ rest => includes rest sub
  end.

(** What the handler reads of a JS [Error]. *)
Record JsError := mkJsError {
  err_name : string;
  err_message : string;
  err_stack : option string
}.

(** [throw new Error(message)] of a service; the errors of the PostgreSQL
    driver carry the name [error]. *)
Definition thrown (e : Error) (stack : option string) : JsError :=
  mkJsError match e with UniqueViolation => "error" | _ => "Error" end
            (error_message e) stack.

(** The status line and the JSON body of the answer; an [undefined] field
    is left out of the body. *)
Record ErrorResponse := mkErrorResponse {
  statusCode : Z;
  success : bool;
  error : string;
  details : option string;
  stack : option string
}.

(** [NODE_ENV] is [process.env['NODE_ENV']]. *)
Definition errorHandler (NODE_ENV : option string) (err : JsError) : ErrorResponse :=
  let '(statusCode, message) :=
    if decide (err_name err = "ValidationError") then
      (400, "Validation error")
    else if decide (err_name err = "CastError") then
      (400, "Invalid data format")
    else if includes (err_message err) "not found" then
      (404, err_message err)
    else if includes (err_message err) "already exists" then
      (409, err_message err)
    else if includes (err_message err) "not available" ||
            includes (err_message err) "held by another user" ||
            includes (err_message err) "has expired" then
      (409, err_message err)
    else if includes (err_message err) "Invalid" ||
            includes (err_message err) "must be between" then
      (400, err_message err)
    else if includes (err_message err) "maximum" then
      (429, err_message err)
    else
      (500, "Internal server error") in
  let message :=
    if decide (NODE_ENV = Some "production" ∧ statusCode = 500)
    then "Internal server error" else message in
  mkErrorResponse statusCode false message None
    (if decide (NODE_ENV = Some "development") then err_stack err else None).

End ErrorHandler.

(** ** Key builders ([RedisKeys] of [src/services/redisService.ts]) *)

Module RedisKeys.

Definition event (eventId : string) : string := "event:" +:+ eventId.

Definition seat (eventId : string) (seatNumber : Z) : string :=
  "seat:" +:+ eventId +:+ ":" +:+ pretty seatNumber.

Definition userHolds (userId eventId : string) : string :=
  "user_holds:" +:+ userId +:+ ":" +:+ eventId.

Definition eventSeats (eventId : string) : string := "event_seats:" +:+ eventId.

Definition seatHold (eventId : string) (seatNumber : Z) : string :=
  "seat_hold:" +:+ eventId +:+ ":" +:+ pretty seatNumber.

Definition seatReserved (eventId : string) (seatNumber : Z) : string :=
  "seat_reserved:" +:+ eventId +:+ ":" +:+ pretty seatNumber.

(** The stores above key the sets [user_holds:{user}:{id}] by the pair of
    ids. The key the program builds determines the pair when neither id has
    a colon, which holds of the UUIDs the routes require; a run with other
    ids can make two pairs share one set. *)
Definition colon_free (s : string) : Prop := ":"%char ∉ chars s.

Definition ids_of (op : SeatService.Op) : list string :=
  match op with
  | SeatService.CreateEvent _ e _ _ _ => [e]
  | SeatService.HoldSeat _ _ e _ u _ => [e; u]
  | SeatService.ReserveSeat _ e _ u => [e; u]
  | SeatService.ReleaseSeat e _ => [e]
  | SeatService.RefreshSeatHold _ _ e _ u _ => [e; u]
  | SeatService.GetAvailableSeats _ e => [e]
  | SeatService.GetSeatStatus _ e _ => [e]
  end.

Definition plain_run (ops : list SeatService.Op) : Prop :=
  Forall (λ op, Forall colon_free (ids_of op)) ops.

#[global] Instance colon_free_dec s : Decision (colon_free s).
Proof. unfold colon_free. apply _. Defined.

#[global] Instance plain_run_dec ops : Decision (plain_run ops).
Proof. unfold plain_run. apply _. Defined.

End RedisKeys.

(** ** Identifier checks ([src/types/index.ts], [src/middleware/validation.ts]) *)

Module Validation.

(** [[0-9a-f]] under the [i] flag. *)
Definition is_hex (c : ascii) : bool :=
  match c with
  | "0" | "1" | "2" | "3" | "4" | "5" | "6" | "7" | "8" | "9"
  | "a" | "b" | "c" | "d" | "e" | "f"
  | "A" | "B" | "C" | "D" | "E" | "F" => true
  | _ => false
  end%char.

(** [[0-9a-f]{n}]: what is left of [s] after exactly [n] hex digits. *)
Fixpoint hex_run (n : nat) (s : string) : option string :=
  match n with
  | O => Some s
  | S n' =>
      match s with
      | String c rest => if is_hex c then hex_run n' rest else None
      | EmptyString => None
      end
  end.

Definition dash (s : string) : option string :=
  match s with
  | String "-"%char rest => Some rest
  | _ => None
  end.

(** [/^[0-9a-f]{8}-[0-9a-f]{4}-[0-9a-f]{4}-[0-9a-f]{4}-[0-9a-f]{12}$/i.test(value)]:
    the whole of [value] has the five groups. *)
Definition isUUID (value : string) : bool :=
  match
    rest ← hex_run 8 value; rest ← dash rest;
    rest ← hex_run 4 rest; rest ← dash rest;
    rest ← hex_run 4 rest; rest ← dash rest;
    rest ← hex_run 4 rest; rest ← dash rest;
    hex_run 12 rest
  with
  | Some EmptyString => true
  | _ => false
  end.

(** [Number.isInteger(seatNumber) && seatNumber >= 1 && seatNumber <= maxSeats],
    on a seat number that is an integer. *)
Definition isValidSeatNumber (seatNumber maxSeats : Z) : bool :=
  bool_decide (1 ≤ seatNumber) && bool_decide (seatNumber ≤ maxSeats).

End Validation.

(** ** Real-time fan-out (class [WebSocketService])

    The bookkeeping of the class: which connections exist, what each has
    subscribed to, and the two indexes from an event or a user to the
    connections to notify. A socket is what the class reads of it, its
    [readyState] and whether [send] throws; what [send] was given is kept in
    a log. Timestamps of outgoing messages are left out, and the order in
    which a [Set] is iterated is that of the set's listing. *)

Module WebSocketService.

Inductive ReadyState := CONNECTING | OPEN | CLOSING | CLOSED.

#[global] Instance ReadyState_eq_dec : EqDecision ReadyState.
Proof. solve_decision. Defined.

(** Messages to a client. *)
Inductive WebSocketMessage :=
| CONNECTION_ESTABLISHED (connectionId : string)
| SUBSCRIPTION_ADDED (subscription : string)
| SUBSCRIPTION_REMOVED (subscription : string)
| PONG
| ERROR (error : string)
| Published (payload : string).

(** What [JSON.parse] hands over where an identifier is expected: a
    string, or any other value (a number, [undefined] for a missing field,
    an object, ...). Of such a value the class uses its identity as a key
    of a [Map], under which a number and the string of its digits differ,
    and what a template literal renders it as. *)
Inductive JsValue :=
| JsString (s : string)
| JsOther (identity : positive) (rendering : string).

#[global] Instance JsValue_eq_dec : EqDecision JsValue.
Proof. solve_decision. Defined.

#[global] Instance JsValue_countable : Countable JsValue.
Proof.
  apply (inj_countable'
           (λ v, match v with
                 | JsString s => inl s
                 | JsOther i r => inr (i, r)
                 end)
           (λ x, match x with
                 | inl s => JsString s
                 | inr (i, r) => JsOther i r
                 end)).
  by intros [].
Defined.

(** [`${value}`] *)
Definition render (v : JsValue) : string :=
  match v with
  | JsString s => s
  | JsOther _ r => r
  end.

(** Parsed messages of a client, by their [type]; [Unknown] carries the
    rendering of any other [type]. *)
Inductive ClientMessage :=
| SUBSCRIBE_EVENT (eventId : JsValue)
| SUBSCRIBE_USER (userId : JsValue)
| UNSUBSCRIBE_EVENT (eventId : JsValue)
| UNSUBSCRIBE_USER (userId : JsValue)
| PING
| Unknown (type : string).

Record WebSocketConnection := mkConnection {
  readyState : ReadyState;
  send_throws : bool;
  conn_userId : option JsValue;
  conn_eventId : option JsValue;
  subscriptions : gset string
}.

Record Service := mkService {
  connections : gmap string WebSocketConnection;
  eventSubscriptions : gmap JsValue (gset string);
  userSubscriptions : gmap JsValue (gset string);
  sent : list (string * WebSocketMessage)
}.

(** The service after its constructor. *)
Definition start : Service := mkService ∅ ∅ ∅ [].

(** [String.prototype.split] on a one-character separator. *)
Fixpoint split (sep : ascii) (s : string) : list string :=
  match s with
  | EmptyString => [EmptyString]
  | String c rest =>
      if decide (c = sep) then EmptyString :: split sep rest
      else match split sep rest with
           | seg :: segs => String c seg :: segs
           | [] => [String c EmptyString]
           end
  end.

(** [index.get(key)?.delete(connectionId)] *)
Definition index_delete (key : JsValue) (connectionId : string)
    (index : gmap JsValue (gset string)) : gmap JsValue (gset string) :=
  alter (λ ids, ids ∖ {[connectionId]}) key index.

(** [if (!index.has(key)) index.set(key, new Set()); index.get(key)!.add(connectionId)] *)
Definition index_add (key : JsValue) (connectionId : string)
    (index : gmap JsValue (gset string)) : gmap JsValue (gset string) :=
  <[key := {[connectionId]} ∪ default ∅ (index !! key)]> index.

(** One turn of the loop of [handleDisconnection]. *)
Definition forget (connectionId subscription : string) (s : Service) : Service :=
  if String.prefix "event:" subscription then
    match split ":" subscription !! 1%nat with
    | Some eventId =>
        mkService (connections s)
                  (index_delete (JsString eventId) connectionId (eventSubscriptions s))
                  (userSubscriptions s) (sent s)
    | None => s
    end
  else if String.prefix "user:" subscription then
    match split ":" subscription !! 1%nat with
    | Some userId =>
        mkService (connections s) (eventSubscriptions s)
                  (index_delete (JsString userId) connectionId (userSubscriptions s))
                  (sent s)
    | None => s
    end
  else s.

Definition handleDisconnection (connectionId : string) (s : Service) : Service :=
  match connections s !! connectionId with
  | None => s
  | Some connection =>
      let s' := set_fold (forget connectionId) s (subscriptions connection) in
      mkService (delete connectionId (connections s')) (eventSubscriptions s')
                (userSubscriptions s') (sent s')
  end.

Definition sendMessage (connectionId : string) (message : WebSocketMessage) (s : Service)
  : Service :=
  match connections s !! connectionId with
  | None => s
  | Some connection =>
      if decide (readyState connection ≠ OPEN) then s
      else if send_throws connection then handleDisconnection connectionId s
      else mkService (connections s) (eventSubscriptions s) (userSubscriptions s)
                     ((connectionId, message) :: sent s)
  end.

Definition sendError (connectionId error : string) (s : Service) : Service :=
  sendMessage connectionId (ERROR error) s.

Definition subscribeToEvent (connectionId : string) (eventId : JsValue) (s : Service)
  : Service :=
  match connections s !! connectionId with
  | None => s
  | Some connection =>
      let connection' :=
        mkConnection (readyState connection) (send_throws connection)
                     (conn_userId connection) (Some eventId)
                     ({["event:" +:+ render eventId]} ∪ subscriptions connection) in
      sendMessage connectionId (SUBSCRIPTION_ADDED ("event:" +:+ render eventId))
        (mkService (<[connectionId := connection']> (connections s))
                   (index_add eventId connectionId (eventSubscriptions s))
                   (userSubscriptions s) (sent s))
  end.

Definition subscribeToUser (connectionId : string) (userId : JsValue) (s : Service)
  : Service :=
  match connections s !! connectionId with
  | None => s
  | Some connection =>
      let connection' :=
        mkConnection (readyState connection) (send_throws connection)
                     (Some userId) (conn_eventId connection)
                     ({["user:" +:+ render userId]} ∪ subscriptions connection) in
      sendMessage connectionId (SUBSCRIPTION_ADDED ("user:" +:+ render userId))
        (mkService (<[connectionId := connection']> (connections s))
                   (eventSubscriptions s)
                   (index_add userId connectionId (userSubscriptions s)) (sent s))
  end.

Definition unsubscribeFromEvent (connectionId : string) (eventId : JsValue) (s : Service)
  : Service :=
  match connections s !! connectionId with
  | None => s
  | Some connection =>
      let connection' :=
        mkConnection (readyState connection) (send_throws connection)
                     (conn_userId connection) (conn_eventId connection)
                     (subscriptions connection ∖ {["event:" +:+ render eventId]}) in
      sendMessage connectionId (SUBSCRIPTION_REMOVED ("event:" +:+ render eventId))
        (mkService (<[connectionId := connection']> (connections s))
                   (index_delete eventId connectionId (eventSubscriptions s))
                   (userSubscriptions s) (sent s))
  end.

Definition unsubscribeFromUser (connectionId : string) (userId : JsValue) (s : Service)
  : Service :=
  match connections s !! connectionId with
  | None => s
  | Some connection =>
      let connection' :=
        mkConnection (readyState connection) (send_throws connection)
                     (conn_userId connection) (conn_eventId connection)
                     (subscriptions connection ∖ {["user:" +:+ render userId]}) in
      sendMessage connectionId (SUBSCRIPTION_REMOVED ("user:" +:+ render userId))
        (mkService (<[connectionId := connection']> (connections s))
                   (eventSubscriptions s)
                   (index_delete userId connectionId (userSubscriptions s)) (sent s))
  end.

Definition handleMessage (connectionId : string) (message : ClientMessage) (s : Service)
  : Service :=
  match connections s !! connectionId with
  | None => s
  | Some _ =>
      match message with
      | SUBSCRIBE_EVENT eventId => subscribeToEvent connectionId eventId s
      | SUBSCRIBE_USER userId => subscribeToUser connectionId userId s
      | UNSUBSCRIBE_EVENT eventId => unsubscribeFromEvent connectionId eventId s
      | UNSUBSCRIBE_USER userId => unsubscribeFromUser connectionId userId s
      | PING => sendMessage connectionId PONG s
      | Unknown type => sendError connectionId ("Unknown message type: " +:+ type) s
      end
  end.

(** The ['message'] handler of a socket: [None] is data that [JSON.parse]
    rejects, or that it parses to [null], whose [type] cannot be read. *)
Definition on_message (connectionId : string) (data : option ClientMessage) (s : Service)
  : Service :=
  match data with
  | Some message => handleMessage connectionId message s
  | None => sendError connectionId "Invalid message format" s
  end.

(** The ['connection'] handler, with the id [generateConnectionId] gave and
    the socket as it is at that point. *)
Definition on_connection (connectionId : string) (rs : ReadyState) (throws : bool)
    (s : Service) : Service :=
  sendMessage connectionId (CONNECTION_ESTABLISHED connectionId)
    (mkService (<[connectionId := mkConnection rs throws None None ∅]> (connections s))
               (eventSubscriptions s) (userSubscriptions s) (sent s)).

Definition broadcastToEvent (eventId : string) (message : WebSocketMessage) (s : Service)
  : Service :=
  match eventSubscriptions s !! JsString eventId with
  | None => s
  | Some ids => set_fold (λ connectionId, sendMessage connectionId message) s ids
  end.

Definition sendToUser (userId : string) (message : WebSocketMessage) (s : Service)
  : Service :=
  match userSubscriptions s !! JsString userId with
  | None => s
  | Some ids => set_fold (λ connectionId, sendMessage connectionId message) s ids
  end.

Definition broadcastToAdmins (message : WebSocketMessage) (s : Service) : Service :=
  foldr (λ '(connectionId, connection) s',
           if decide ("admin" ∈ subscriptions connection)
           then sendMessage connectionId message s' else s')
        s (map_to_list (connections s)).

(** [close()] *)
Definition close (s : Service) : Service := mkService ∅ ∅ ∅ (sent s).

(** What happens to the service: a client connects, sends data, goes away
    or fails; a socket changes by itself; something is published. *)
Inductive Step :=
| Connection (connectionId : string) (rs : ReadyState) (throws : bool)
| Message (connectionId : string) (data : option ClientMessage)
| Closed (connectionId : string)
| Failed (connectionId : string)
| Socket (connectionId : string) (rs : ReadyState) (throws : bool)
| PublishedToEvent (eventId : string) (message : WebSocketMessage)
| PublishedToUser (userId : string) (message : WebSocketMessage)
| PublishedToAdmins (message : WebSocketMessage)
| Close.

Definition step (s : Service) (x : Step) : Service :=
  match x with
  | Connection connectionId rs throws => on_connection connectionId rs throws s
  | Message connectionId data => on_message connectionId data s
  | Closed connectionId => handleDisconnection connectionId s
  | Failed connectionId => handleDisconnection connectionId s
  | Socket connectionId rs throws =>
      mkService (alter (λ c, mkConnection rs throws (conn_userId c) (conn_eventId c)
                                          (subscriptions c))
                       connectionId (connections s))
                (eventSubscriptions s) (userSubscriptions s) (sent s)
  | PublishedToEvent eventId message => broadcastToEvent eventId message s
  | PublishedToUser userId message => sendToUser userId message s
  | PublishedToAdmins message => broadcastToAdmins message s
  | Close => close s
  end.

Definition steps (xs : list Step) (s : Service) : Service := foldl step s xs.

(** A step that the identifiers allow: a new connection comes with an id
    not in use, the ids in the messages that subscribe or unsubscribe are
    strings, and those subscribed to have no colon. *)
Definition regular (s : Service) (x : Step) : Prop :=
  match x with
  | Connection connectionId _ _ => connections s !! connectionId = None
  | Message _ (Some (SUBSCRIBE_EVENT id)) | Message _ (Some (SUBSCRIBE_USER id)) =>
      ∃ str, id = JsString str ∧ ":"%char ∉ chars str
  | Message _ (Some (UNSUBSCRIBE_EVENT id)) | Message _ (Some (UNSUBSCRIBE_USER id)) =>
      ∃ str, id = JsString str
  | _ => True
  end.

Fixpoint regular_run (s : Service) (xs : list Step) : Prop :=
  match xs with
  | [] => True
  | x :: rest => regular s x ∧ regular_run (step s x) rest
  end.

(** The two indexes and the subscriptions of the connections say the
    same. *)
Definition indexed (s : Service) : Prop :=
  (∀ (eventId : string) connectionId,
     connectionId ∈ default ∅ (eventSubscriptions s !! JsString eventId) ↔
     ∃ connection, connections s !! connectionId = Some connection ∧
                   "event:" +:+ eventId ∈ subscriptions connection) ∧
  (∀ (userId : string) connectionId,
     connectionId ∈ default ∅ (userSubscriptions s !! JsString userId) ↔
     ∃ connection, connections s !! connectionId = Some connection ∧
                   "user:" +:+ userId ∈ subscriptions connection).

(** The indexes list nothing under a key that is not a string. *)
Definition string_keyed (s : Service) : Prop :=
  ∀ identity rendering,
    default ∅ (eventSubscriptions s !! JsOther identity rendering) = ∅ ∧
    default ∅ (userSubscriptions s !! JsOther identity rendering) = ∅.

(** The indexes of [s'] list no more than those of [s]. *)
Definition shrinks (s' s : Service) : Prop :=
  ∀ (k : JsValue) x,
    (x ∈ default ∅ (eventSubscriptions s' !! k) →
     x ∈ default ∅ (eventSubscriptions s !! k)) ∧
    (x ∈ default ∅ (userSubscriptions s' !! k) →
     x ∈ default ∅ (userSubscriptions s !! k)).

(** Every subscription of every connection satisfies [Q]. *)
Definition all_subscriptions (Q : string → Prop) (s : Service) : Prop :=
  ∀ connectionId connection subscription,
    connections s !! connectionId = Some connection →
    subscription ∈ subscriptions connection → Q subscription.

(** A subscription name built from an id without a colon. *)
Definition plain (subscription : string) : Prop :=
  ∃ id, (":"%char ∉ chars id) ∧
        (subscription = "event:" +:+ id ∨ subscription = "user:" +:+ id).

(** What the bookkeeping keeps true along regular steps. *)
Definition kept (s : Service) : Prop := indexed s ∧ all_subscriptions plain s.

(** A connection to which [sendMessage] hands the message over. *)
Definition deliverable (s : Service) (connectionId : string) : Prop :=
  ∃ connection, connections s !! connectionId = Some connection ∧
                readyState connection = OPEN ∧ send_throws connection = false.

End WebSocketService.

(** ** The seat routes ([src/routes/seats.ts], [src/middleware/validation.ts])

    Each route as a function of the path parameters, the body and the
    store: the body goes through [validateRequest] with the schema of the
    route before the handler runs. [seatNum] is what
    [parseInt(seatNumber || '0', 10)] gave, [None] for [NaN]; an error of
    the service goes through [next] to [errorHandler]. *)

Module SeatRoutes.

Inductive Data :=
| HoldData (hold : SeatHold)
| ReservationData (reservation : SeatReservation)
| SeatData (seat : Seat)
| ReleaseData (eventId : string) (seatNumber : Z) (status : SeatStatus).

(** One entry of the [details] of a refused body; [value] is the JSON text
    of [detail.context?.value], absent when that is [undefined]. *)
Record ValidationErrorDetail := mkDetail {
  field : string;
  detail_message : string;
  value : option string
}.

Inductive Json :=
| Success (message : option string) (data : Data)
| ApiError (error : string) (stack : option string)
| ApiErrorDetails (error : string) (details : list ValidationErrorDetail).

Record HttpResponse := mkHttp {
  http_status : Z;
  json : Json
}.

Section Handlers.

Variable maxHoldsPerUser : Z.
Variable NODE_ENV : option string.

(** The stack trace an error of the service carries. *)
Variable stack_of : Error → option string.

(** The parsed body of a request, and what [schema.validate(req.body, ...)]
    makes of it for the Joi schema of each route: the details of the
    refusal, as the middleware maps them, or the validated value ([userId],
    and [holdDuration] with its default filled in). *)
Variable Body : Type.
Variable holdSeatSchema : Body → list ValidationErrorDetail + (string * Z).
Variable reserveSeatSchema : Body → list ValidationErrorDetail + string.
Variable refreshHoldSchema : Body → list ValidationErrorDetail + (string * Z).

(** [validateRequest(schema)]: a body the schema refuses is answered 400
    with the details and the handler does not run; otherwise the handler
    runs on the validated value, which has replaced the body. *)
Definition validateRequest {A} (schema : Body → list ValidationErrorDetail + A)
    (handler : A → SeatService.Redis → HttpResponse * SeatService.Redis)
    (body : Body) (st : SeatService.Redis) : HttpResponse * SeatService.Redis :=
  match schema body with
  | inl errorDetails =>
      (mkHttp 400 (ApiErrorDetails "Validation failed" errorDetails), st)
  | inr validated => handler validated st
  end.

Definition next (err : Error) : HttpResponse :=
  let r := ErrorHandler.errorHandler NODE_ENV (ErrorHandler.thrown err (stack_of err)) in
  mkHttp (ErrorHandler.statusCode r) (ApiError (ErrorHandler.error r) (ErrorHandler.stack r)).

(** The two checks that open every handler: the event id against the UUID
    pattern, then the seat number. *)
Definition checked (eventId : string) (seatNum : option Z) : HttpResponse + Z :=
  if negb (Validation.isUUID eventId) then
    inl (mkHttp 400 (ApiError "Invalid event ID format" None))
  else
    match seatNum with
    | None => inl (mkHttp 400 (ApiError "Invalid seat number" None))
    | Some n =>
        if decide (n < 1) then inl (mkHttp 400 (ApiError "Invalid seat number" None))
        else inr n
    end.

(** [POST /:eventId/:seatNumber/hold] *)
Definition post_hold (now lag : Z) (eventId : string) (seatNum : option Z)
  : Body → SeatService.Redis → HttpResponse * SeatService.Redis :=
  validateRequest holdSeatSchema (λ '(userId, holdDuration) st,
    match checked eventId seatNum with
    | inl refusal => (refusal, st)
    | inr n =>
        match SeatService.holdSeat maxHoldsPerUser now lag eventId n userId
                                   holdDuration st with
        | (Ok holdResult, st') =>
            (mkHttp 201 (Success (Some "Seat held successfully") (HoldData holdResult)),
             st')
        | (Err err, st') => (next err, st')
        end
    end).

(** [POST /:eventId/:seatNumber/reserve] *)
Definition post_reserve (now : Z) (eventId : string) (seatNum : option Z)
  : Body → SeatService.Redis → HttpResponse * SeatService.Redis :=
  validateRequest reserveSeatSchema (λ userId st,
    match checked eventId seatNum with
    | inl refusal => (refusal, st)
    | inr n =>
        match SeatService.reserveSeat now eventId n userId st with
        | (Ok reservationResult, st') =>
            (mkHttp 201 (Success (Some "Seat reserved successfully")
                                 (ReservationData reservationResult)), st')
        | (Err err, st') => (next err, st')
        end
    end).

(** [POST /:eventId/:seatNumber/refresh] *)
Definition post_refresh (now lag : Z) (eventId : string) (seatNum : option Z)
  : Body → SeatService.Redis → HttpResponse * SeatService.Redis :=
  validateRequest refreshHoldSchema (λ '(userId, holdDuration) st,
    match checked eventId seatNum with
    | inl refusal => (refusal, st)
    | inr n =>
        match SeatService.refreshSeatHold now lag eventId n userId holdDuration st with
        | (Ok refreshResult, st') =>
            (mkHttp 200 (Success (Some "Seat hold refreshed successfully")
                                 (HoldData refreshResult)), st')
        | (Err err, st') => (next err, st')
        end
    end).

(** [GET /:eventId/:seatNumber/status] *)
Definition get_status (now : Z) (eventId : string) (seatNum : option Z)
    (st : SeatService.Redis) : HttpResponse * SeatService.Redis :=
  match checked eventId seatNum with
  | inl refusal => (refusal, st)
  | inr n =>
      match SeatService.getSeatStatus now eventId n st with
      | (Ok seatStatus, st') => (mkHttp 200 (Success None (SeatData seatStatus)), st')
      | (Err err, st') => (next err, st')
      end
  end.

(** [DELETE /:eventId/:seatNumber/release]: the answer names the status
    [available] itself. *)
Definition delete_release (eventId : string) (seatNum : option Z)
    (st : SeatService.Redis) : HttpResponse * SeatService.Redis :=
  match checked eventId seatNum with
  | inl refusal => (refusal, st)
  | inr n =>
      match SeatService.releaseSeat eventId n st with
      | (Ok _, st') =>
          (mkHttp 200 (Success (Some "Seat released successfully")
                               (ReleaseData eventId n available)), st')
      | (Err err, st') => (next err, st')
      end
  end.

End Handlers.

Arguments validateRequest {Body A} schema handler body st.
Arguments post_hold maxHoldsPerUser NODE_ENV stack_of {Body} holdSeatSchema
  now lag eventId seatNum _ _.
Arguments post_reserve NODE_ENV stack_of {Body} reserveSeatSchema now eventId seatNum _ _.
Arguments post_refresh NODE_ENV stack_of {Body} refreshHoldSchema
  now lag eventId seatNum _ _.

End SeatRoutes.

(** ** Example requests

    Two users under UUIDs and an event under one, with seat 3 held by the
    first user under a lease stored five milliseconds after the clock
    reading. The bodies of the examples either lack [userId] or carry the
    id of one of the two users and nothing else; on these the schemas of
    the routes refuse the missing [userId] and fill in the hold duration
    of 60. *)

Module Requests.

Import SeatService.

Definition ann : string := "0b0e7f7a-3c1d-4f2a-9d1e-5a6b7c8d9e0f".
Definition ben : string := "7e6d5c4b-3a29-4180-9f8e-7d6c5b4a3921".

Definition gala_held : list Op :=
  [CreateEvent 0 Examples.gala 10 "Gala" "Hall"; HoldSeat 1000 5 Examples.gala 3 ann 60].

Inductive User := Ann | Ben.

Definition uuid_of (x : User) : string :=
  match x with Ann => ann | Ben => ben end.

Inductive Body := without_userId | from (x : User).

Definition userId_required : SeatRoutes.ValidationErrorDetail :=
  SeatRoutes.mkDetail "userId"
    (String "034" ("userId" +:+ String "034" " is required")) None.

Definition holdSeatSchema (body : Body)
  : list SeatRoutes.ValidationErrorDetail + (string * Z) :=
  match body with
  | without_userId => inl [userId_required]
  | from x => inr (uuid_of x, 60)
  end.

Definition reserveSeatSchema (body : Body)
  : list SeatRoutes.ValidationErrorDetail + string :=
  match body with
  | without_userId => inl [userId_required]
  | from x => inr (uuid_of x)
  end.

Definition refreshHoldSchema (body : Body)
  : list SeatRoutes.ValidationErrorDetail + (string * Z) :=
  holdSeatSchema body.

End Requests.

(** * Properties *)

#[local] Set Warnings "-clear-no-such-hyp".

Ltac unfold_monad :=
  unfold bind, ret, throw, finally in *.

Ltac unfold_redis :=
  unfold SeatService.getEvent, SeatService.getUserHoldCount,
    SeatService.get_event, SeatService.set_event, SeatService.hGet,
    SeatService.hGetAll, SeatService.hSet, SeatService.hSetAll,
    SeatService.get_hold, SeatService.setEx_hold, SeatService.del_hold,
    SeatService.sAdd, SeatService.sRem, SeatService.sCard,
    SeatService.set_reserved in *;
  unfold_monad.

(** The two messages a caller that loses a seat to another one can see. *)
Example conflict_messages :
  error_message SeatNotAvailable = "Seat is not available" ∧
  error_message LockContention = "Seat is currently being processed by another user" ∧
  error_message (QuotaExceeded 5) = "User can hold maximum 5 seats".
Proof. by vm_compute. Qed.

(** ** The Redis-only service *)

Section StoreObservations.

Import SeatService.

(** *** Observations of a store after a write *)

Lemma seats_of_insert (m : gmap string (gmap Z Seat)) (e e' : string) (f : gmap Z Seat) :
  default ∅ (<[e := f]> m !! e') = if decide (e = e') then f else default ∅ (m !! e').
Proof.
  case_decide as He.
  - subst. by rewrite lookup_insert_eq.
  - by rewrite lookup_insert_ne.
Qed.

Lemma holds_of_insert (m : gmap (string * string) (gset Z)) (k k' : string * string)
    (s : gset Z) :
  default ∅ (<[k := s]> m !! k') = if decide (k = k') then s else default ∅ (m !! k').
Proof.
  case_decide as He.
  - subst. by rewrite lookup_insert_eq.
  - by rewrite lookup_insert_ne.
Qed.

Lemma event_set_event st e0 ev0 :
  event (set_event e0 ev0 st).2 = <[e0 := ev0]> (event st).
Proof.
  done.
Qed.

Lemma seat_at_set_event st e0 ev0 e n :
  seat_at (set_event e0 ev0 st).2 e n = seat_at st e n.
Proof.
  done.
Qed.

Lemma seatHold_set_event st e0 ev0 :
  seatHold (set_event e0 ev0 st).2 = seatHold st.
Proof.
  done.
Qed.

Lemma holds_of_set_event st e0 ev0 u e :
  holds_of (set_event e0 ev0 st).2 u e = holds_of st u e.
Proof.
  done.
Qed.

Lemma seatReserved_set_event st e0 ev0 :
  seatReserved (set_event e0 ev0 st).2 = seatReserved st.
Proof.
  done.
Qed.

Lemma event_hSet st e0 n0 s0 :
  event (hSet e0 n0 s0 st).2 = event st.
Proof.
  done.
Qed.

Lemma seat_at_hSet st e0 n0 s0 e n :
  seat_at (hSet e0 n0 s0 st).2 e n = if decide ((e0, n0) = (e, n)) then Some s0 else seat_at st e n.
Proof.
  unfold seat_at, seats_of, hSet. simpl. rewrite seats_of_insert.
  repeat case_decide; simplify_eq; try done.
  - by rewrite lookup_insert_eq.
  - rewrite lookup_insert_ne; [done | congruence].
Qed.

Lemma seatHold_hSet st e0 n0 s0 :
  seatHold (hSet e0 n0 s0 st).2 = seatHold st.
Proof.
  done.
Qed.

Lemma holds_of_hSet st e0 n0 s0 u e :
  holds_of (hSet e0 n0 s0 st).2 u e = holds_of st u e.
Proof.
  done.
Qed.

Lemma seatReserved_hSet st e0 n0 s0 :
  seatReserved (hSet e0 n0 s0 st).2 = seatReserved st.
Proof.
  done.
Qed.

Lemma event_hSetAll st e0 f0 :
  event (hSetAll e0 f0 st).2 = event st.
Proof.
  done.
Qed.

Lemma seat_at_hSetAll st e0 f0 e n :
  seat_at (hSetAll e0 f0 st).2 e n = if decide (e0 = e) then (f0 ∪ seats_of st e) !! n else seat_at st e n.
Proof.
  unfold seat_at, seats_of, hSetAll. simpl. rewrite seats_of_insert.
  by case_decide; simplify_eq.
Qed.

Lemma seatHold_hSetAll st e0 f0 :
  seatHold (hSetAll e0 f0 st).2 = seatHold st.
Proof.
  done.
Qed.

Lemma holds_of_hSetAll st e0 f0 u e :
  holds_of (hSetAll e0 f0 st).2 u e = holds_of st u e.
Proof.
  done.
Qed.

Lemma seatReserved_hSetAll st e0 f0 :
  seatReserved (hSetAll e0 f0 st).2 = seatReserved st.
Proof.
  done.
Qed.

Lemma event_setEx_hold st now0 e0 n0 d0 h0 :
  event (setEx_hold now0 e0 n0 d0 h0 st).2 = event st.
Proof.
  done.
Qed.

Lemma seat_at_setEx_hold st now0 e0 n0 d0 h0 e n :
  seat_at (setEx_hold now0 e0 n0 d0 h0 st).2 e n = seat_at st e n.
Proof.
  done.
Qed.

Lemma seatHold_setEx_hold st now0 e0 n0 d0 h0 :
  seatHold (setEx_hold now0 e0 n0 d0 h0 st).2 = <[(e0, n0) := (h0, now0 + d0 * 1000)]> (seatHold st).
Proof.
  done.
Qed.

Lemma holds_of_setEx_hold st now0 e0 n0 d0 h0 u e :
  holds_of (setEx_hold now0 e0 n0 d0 h0 st).2 u e = holds_of st u e.
Proof.
  done.
Qed.

Lemma seatReserved_setEx_hold st now0 e0 n0 d0 h0 :
  seatReserved (setEx_hold now0 e0 n0 d0 h0 st).2 = seatReserved st.
Proof.
  done.
Qed.

Lemma event_del_hold st e0 n0 :
  event (del_hold e0 n0 st).2 = event st.
Proof.
  done.
Qed.

Lemma seat_at_del_hold st e0 n0 e n :
  seat_at (del_hold e0 n0 st).2 e n = seat_at st e n.
Proof.
  done.
Qed.

Lemma seatHold_del_hold st e0 n0 :
  seatHold (del_hold e0 n0 st).2 = delete (e0, n0) (seatHold st).
Proof.
  done.
Qed.

Lemma holds_of_del_hold st e0 n0 u e :
  holds_of (del_hold e0 n0 st).2 u e = holds_of st u e.
Proof.
  done.
Qed.

Lemma seatReserved_del_hold st e0 n0 :
  seatReserved (del_hold e0 n0 st).2 = seatReserved st.
Proof.
  done.
Qed.

Lemma event_sAdd st u0 e0 n0 :
  event (sAdd u0 e0 n0 st).2 = event st.
Proof.
  done.
Qed.

Lemma seat_at_sAdd st u0 e0 n0 e n :
  seat_at (sAdd u0 e0 n0 st).2 e n = seat_at st e n.
Proof.
  done.
Qed.

Lemma seatHold_sAdd st u0 e0 n0 :
  seatHold (sAdd u0 e0 n0 st).2 = seatHold st.
Proof.
  done.
Qed.

Lemma holds_of_sAdd st u0 e0 n0 u e :
  holds_of (sAdd u0 e0 n0 st).2 u e = if decide ((u0, e0) = (u, e)) then {[n0]} ∪ holds_of st u e else holds_of st u e.
Proof.
  unfold holds_of, sAdd. simpl. rewrite holds_of_insert.
  by case_decide; simplify_eq.
Qed.

Lemma seatReserved_sAdd st u0 e0 n0 :
  seatReserved (sAdd u0 e0 n0 st).2 = seatReserved st.
Proof.
  done.
Qed.

Lemma event_sRem st u0 e0 n0 :
  event (sRem u0 e0 n0 st).2 = event st.
Proof.
  done.
Qed.

Lemma seat_at_sRem st u0 e0 n0 e n :
  seat_at (sRem u0 e0 n0 st).2 e n = seat_at st e n.
Proof.
  done.
Qed.

Lemma seatHold_sRem st u0 e0 n0 :
  seatHold (sRem u0 e0 n0 st).2 = seatHold st.
Proof.
  done.
Qed.

Lemma holds_of_sRem st u0 e0 n0 u e :
  holds_of (sRem u0 e0 n0 st).2 u e = if decide ((u0, e0) = (u, e)) then holds_of st u e ∖ {[n0]} else holds_of st u e.
Proof.
  unfold holds_of, sRem. simpl. rewrite holds_of_insert.
  by case_decide; simplify_eq.
Qed.

Lemma seatReserved_sRem st u0 e0 n0 :
  seatReserved (sRem u0 e0 n0 st).2 = seatReserved st.
Proof.
  done.
Qed.

Lemma event_set_reserved st e0 n0 r0 :
  event (set_reserved e0 n0 r0 st).2 = event st.
Proof.
  done.
Qed.

Lemma seat_at_set_reserved st e0 n0 r0 e n :
  seat_at (set_reserved e0 n0 r0 st).2 e n = seat_at st e n.
Proof.
  done.
Qed.

Lemma seatHold_set_reserved st e0 n0 r0 :
  seatHold (set_reserved e0 n0 r0 st).2 = seatHold st.
Proof.
  done.
Qed.

Lemma holds_of_set_reserved st e0 n0 r0 u e :
  holds_of (set_reserved e0 n0 r0 st).2 u e = holds_of st u e.
Proof.
  done.
Qed.

Lemma seatReserved_set_reserved st e0 n0 r0 :
  seatReserved (set_reserved e0 n0 r0 st).2 = <[(e0, n0) := r0]> (seatReserved st).
Proof.
  done.
Qed.

End StoreObservations.

Create Rewrite HintDb store.

#[global] Hint Rewrite event_set_event
  seat_at_set_event
  seatHold_set_event
  holds_of_set_event
  seatReserved_set_event
  event_hSet
  seat_at_hSet
  seatHold_hSet
  holds_of_hSet
  seatReserved_hSet
  event_hSetAll
  seat_at_hSetAll
  seatHold_hSetAll
  holds_of_hSetAll
  seatReserved_hSetAll
  event_setEx_hold
  seat_at_setEx_hold
  seatHold_setEx_hold
  holds_of_setEx_hold
  seatReserved_setEx_hold
  event_del_hold
  seat_at_del_hold
  seatHold_del_hold
  holds_of_del_hold
  seatReserved_del_hold
  event_sAdd
  seat_at_sAdd
  seatHold_sAdd
  holds_of_sAdd
  seatReserved_sAdd
  event_sRem
  seat_at_sRem
  seatHold_sRem
  holds_of_sRem
  seatReserved_sRem
  event_set_reserved
  seat_at_set_reserved
  seatHold_set_reserved
  holds_of_set_reserved
  seatReserved_set_reserved : store.


Ltac store_simpl := autorewrite with store in *.

Section SeatServiceFacts.

Import SeatService.

Variable maxHoldsPerUser : Z.

(** *** What each operation computes, case by case *)

Lemma holdSeat_unfold st now lag e n u d :
  holdSeat maxHoldsPerUser now lag e n u d st =
  match event st !! e with
  | None => (Err EventNotFound, st)
  | Some ev =>
      if decide (n < 1 ∨ n > totalSeats ev) then (Err InvalidSeatNumber, st) else
      match seat_at st e n with
      | None => (Err SeatNotFound, st)
      | Some seat =>
          if decide (status seat ≠ available) then (Err SeatNotAvailable, st) else
          if decide (Z.of_nat (size (holds_of st u e)) >= maxHoldsPerUser)
          then (Err (QuotaExceeded maxHoldsPerUser), st)
          else
            let h := mkSeatHold e n u now (now + d * 1000) in
            (Ok h,
             (sAdd u e n
               (setEx_hold (now + lag) e n d h
                 (hSet e n (mkSeat (eventId seat) (seatNumber seat) held (Some u)
                                   (Some now) (reservedAt seat)) st).2).2).2)
      end
  end.
Proof.
  unfold holdSeat, seat_at. unfold_redis.
  destruct (event st !! e) as [ev|]; [|done].
  case_decide; [done|].
  destruct (seats_of st e !! n) as [seat|]; [|done].
  case_decide; [done|].
  case_decide; done.
Qed.

(** The store [releaseSeat] leaves when it finds the seat held. *)
Lemma releaseSeat_unfold st e n :
  releaseSeat e n st =
  match seat_at st e n with
  | None => (Err SeatNotFound, st)
  | Some seat =>
      if decide (status seat = held) then
        let st1 :=
          (del_hold e n
            (hSet e n (mkSeat (eventId seat) (seatNumber seat) available None None
                              (reservedAt seat)) st).2).2 in
        (Ok (),
         match userId seat with
         | Some u => if truthy (userId seat) then (sRem u e n st1).2 else st1
         | None => st1
         end)
      else (Ok (), st)
  end.
Proof.
  unfold releaseSeat, seat_at. unfold_redis.
  destruct (seats_of st e !! n) as [seat|]; [|done].
  case_decide; [|done]. simpl.
  destruct (userId seat) as [u'|]; [|done].
  destruct (truthy (Some u')); done.
Qed.

Lemma reserveSeat_unfold st now e n u :
  reserveSeat now e n u st =
  match live_hold st now e n with
  | None => (Err SeatNotHeld, st)
  | Some hold =>
      if decide (hold_userId hold ≠ u) then (Err HeldByAnotherUser, st) else
      if decide (expiresAt hold < now) then
        match releaseSeat e n st with
        | (Ok _, st') => (Err HoldExpired, st')
        | (Err err, st') => (Err err, st')
        end
      else
      match seat_at st e n with
      | None => (Err SeatNotFound, st)
      | Some seat =>
          let r := mkSeatReservation e n u now in
          (Ok r,
           (sRem u e n
             (set_reserved e n r
               (del_hold e n
                 (hSet e n (mkSeat (eventId seat) (seatNumber seat) reserved (userId seat)
                                   (heldAt seat) (Some now)) st).2).2).2).2)
      end
  end.
Proof.
  unfold reserveSeat, seat_at. unfold_redis.
  destruct (live_hold st now e n) as [hold|]; [|done].
  case_decide; [done|].
  case_decide.
  - destruct (releaseSeat e n st) as [[]]; done.
  - destruct (seats_of st e !! n) as [seat|]; done.
Qed.

Lemma refreshSeatHold_unfold st now lag e n u d :
  refreshSeatHold now lag e n u d st =
  match live_hold st now e n with
  | None => (Err SeatNotHeld, st)
  | Some hold =>
      if decide (hold_userId hold ≠ u) then (Err HeldByAnotherUser, st) else
      if decide (expiresAt hold < now) then
        match releaseSeat e n st with
        | (Ok _, st') => (Err HoldExpired, st')
        | (Err err, st') => (Err err, st')
        end
      else
        let h := mkSeatHold (hold_eventId hold) (hold_seatNumber hold) (hold_userId hold)
                            (hold_heldAt hold) (now + d * 1000) in
        (Ok h, (setEx_hold (now + lag) e n d h st).2)
  end.
Proof.
  unfold refreshSeatHold. unfold_redis.
  destruct (live_hold st now e n) as [hold|]; [|done].
  case_decide; [done|].
  case_decide; [|done].
  destruct (releaseSeat e n st) as [[]]; done.
Qed.

Lemma getSeatStatus_unfold st now e n :
  getSeatStatus now e n st =
  match seat_at st e n with
  | None => (Err SeatNotFound, st)
  | Some seat =>
      if decide (status seat = held) then
        match live_hold st now e n with
        | None =>
            match releaseSeat e n st with
            | (Ok _, st') =>
                (Ok (mkSeat (eventId seat) (seatNumber seat) available None None
                            (reservedAt seat)), st')
            | (Err err, st') => (Err err, st')
            end
        | Some _ => (Ok seat, st)
        end
      else (Ok seat, st)
  end.
Proof.
  unfold getSeatStatus, seat_at. unfold_redis.
  destruct (seats_of st e !! n) as [seat|]; [|done].
  case_decide; [|done].
  destruct (live_hold st now e n); [done|].
  destruct (releaseSeat e n st) as [[]]; done.
Qed.

Lemma createEvent_unfold st now e total nm descr :
  createEvent now e total nm descr st =
  if decide (total < 10 ∨ total > 1000) then (Err InvalidSeatCount, st) else
  match event st !! e with
  | Some _ => (Err EventAlreadyExists, st)
  | None =>
      let ev := mkEvent e nm descr total now active in
      (Ok ev, (hSetAll e (initialSeats e total) (set_event e ev st).2).2)
  end.
Proof.
  unfold createEvent. unfold_redis.
  case_decide; [done|].
  destruct (event st !! e); done.
Qed.

End SeatServiceFacts.

Section Invariant.

Import SeatService.

Variable maxHoldsPerUser : Z.

Lemma initialSeats_lookup e total n s :
  initialSeats e total !! n = Some s → s = mkSeat e n available None None None.
Proof.
  unfold initialSeats. intros H%elem_of_list_to_map_2.
  apply list_elem_of_fmap in H as (m & Heq & _). by simplify_eq.
Qed.

Lemma consistent_empty : consistent empty.
Proof. split; intros *; unfold seat_at, seats_of; simpl; by rewrite ?lookup_empty. Qed.

Lemma createEvent_consistent st now e total nm descr :
  consistent st → consistent (createEvent now e total nm descr st).2.
Proof.
  intros [Hev Hf Hh]. rewrite createEvent_unfold.
  case_decide; [done|].
  destruct (event st !! e) eqn:Eev; [done|].
  cbn zeta. cbn [snd].
  assert (Hnone : ∀ n, seat_at st e n = None).
  { intros n. destruct (seat_at st e n) eqn:E; [|done].
    apply Hev in E as [? ?]. congruence. }
  assert (Hnew : ∀ e' n' s, seat_at (hSetAll e (initialSeats e total)
             (set_event e (mkEvent e nm descr total now active) st).2).2 e' n' = Some s →
           (e' = e ∧ s = mkSeat e n' available None None None) ∨
           (e' ≠ e ∧ seat_at st e' n' = Some s)).
  { intros e' n' s. store_simpl. case_decide; simplify_eq.
    - rewrite lookup_union_Some_raw. intros [H1|[_ H1]].
      + left. split; [done|]. by apply initialSeats_lookup in H1.
      + unfold seats_of in H1. simpl in H1. 
        specialize (Hnone n'). unfold seat_at, seats_of in Hnone. congruence.
    - intros. right. naive_solver. }
  split.
  - intros e' n' s Hs. apply Hnew in Hs as [[-> ->]|[Hne Hs]]; store_simpl.
    + rewrite lookup_insert_eq. eauto.
    + rewrite lookup_insert_ne; [|done]. eauto.
  - intros e' n' s Hs. apply Hnew in Hs as [[-> ->]|[Hne Hs]]; [done|eauto].
  - intros e' n' h t. store_simpl. intros Hhold.
    destruct (Hh _ _ _ _ Hhold) as (s & Hs & Hst & Hu).
    exists s. split; [|done].
    assert (e' ≠ e) by (intros ->; rewrite Hnone in Hs; done).
    case_decide; [congruence|done].
Qed.

Lemma holdSeat_consistent st now lag e n u d :
  consistent st → consistent (holdSeat maxHoldsPerUser now lag e n u d st).2.
Proof.
  intros [Hev Hf Hh]. rewrite holdSeat_unfold.
  destruct (event st !! e) as [ev|] eqn:Eev; [|done].
  case_decide; [done|].
  destruct (seat_at st e n) as [seat|] eqn:Es; [|done].
  case_decide; [done|].
  case_decide; [done|].
  cbn zeta. cbn [snd].
  split.
  - intros e' n' s. store_simpl. case_decide; simplify_eq; eauto.
  - intros e' n' s. store_simpl. case_decide; simplify_eq; [|eauto].
    intros [= <-]. pose proof (Hf _ _ _ Es) as Hm.
    unfold fields_match in *. simpl.
    destruct (status seat); try done. naive_solver.
  - intros e' n' h t. store_simpl.
    case_decide as Heq; simplify_eq.
    + rewrite lookup_insert_eq. intros [= <- <-]. simpl.
      eexists. done.
    + rewrite lookup_insert_ne; [|done]. intros Hhold.
      destruct (Hh _ _ _ _ Hhold) as (s & Hs & Hst & Hu).
      exists s. done.
Qed.

Lemma releaseSeat_consistent st e n :
  consistent st → consistent (releaseSeat e n st).2.
Proof.
  intros [Hev Hf Hh]. rewrite releaseSeat_unfold.
  destruct (seat_at st e n) as [seat|] eqn:Es; [|done].
  case_decide; [|done].
  cbn zeta. cbn [snd].
  set (st1 := (del_hold e n _).2).
  assert (Hst1 : consistent st1).
  { subst st1. split.
    - intros e' n' s. store_simpl. case_decide; simplify_eq; eauto.
    - intros e' n' s. store_simpl. case_decide; simplify_eq; [|eauto].
      intros [= <-]. pose proof (Hf _ _ _ Es) as Hm.
      unfold fields_match in *. simpl.
      destruct (status seat); try done. naive_solver.
    - intros e' n' h t. store_simpl.
      case_decide as Heq; simplify_eq.
      + by rewrite lookup_delete_eq.
      + rewrite lookup_delete_ne; [|done]. intros Hhold.
        destruct (Hh _ _ _ _ Hhold) as (s & Hs & Hst & Hu).
        exists s. done. }
  destruct (userId seat) as [u|]; [|done].
  destruct (truthy (Some u)); [|done].
  destruct Hst1 as [H1 H2 H3].
  split; intros *; store_simpl; eauto.
Qed.

Lemma reserveSeat_consistent st now e n u :
  consistent st → consistent (reserveSeat now e n u st).2.
Proof.
  intros Hc. rewrite reserveSeat_unfold.
  destruct (live_hold st now e n) as [hold|] eqn:Ehold; [|done].
  case_decide; [done|].
  case_decide.
  { pose proof (releaseSeat_consistent st e n Hc) as Hr.
    destruct (releaseSeat e n st) as [[] ?]; done. }
  destruct (seat_at st e n) as [seat|] eqn:Es; [|done].
  cbn zeta. cbn [snd].
  destruct Hc as [Hev Hf Hh].
  assert (Hheld : status seat = held).
  { unfold live_hold in Ehold.
    destruct (seatHold st !! (e, n)) as [[h t]|] eqn:E; [|done].
    destruct (Hh _ _ _ _ E) as (s & Hs & Hst & _). congruence. }
  split.
  - intros e' n' s. store_simpl. case_decide; simplify_eq; eauto.
  - intros e' n' s. store_simpl. case_decide; simplify_eq; [|eauto].
    intros [= <-]. pose proof (Hf _ _ _ Es) as Hm.
    unfold fields_match in *. simpl. rewrite Hheld in Hm. naive_solver.
  - intros e' n' h t. store_simpl.
    case_decide as Heq; simplify_eq.
    + by rewrite lookup_delete_eq.
    + rewrite lookup_delete_ne; [|done]. intros Hhold.
      destruct (Hh _ _ _ _ Hhold) as (s & Hs & Hst & Hu).
      exists s. done.
Qed.

Lemma refreshSeatHold_consistent st now lag e n u d :
  consistent st → consistent (refreshSeatHold now lag e n u d st).2.
Proof.
  intros Hc. rewrite refreshSeatHold_unfold.
  destruct (live_hold st now e n) as [hold|] eqn:Ehold; [|done].
  case_decide; [done|].
  case_decide.
  { pose proof (releaseSeat_consistent st e n Hc) as Hr.
    destruct (releaseSeat e n st) as [[] ?]; done. }
  cbn zeta. cbn [snd].
  destruct Hc as [Hev Hf Hh].
  split; [intros *; store_simpl; eauto..|].
  intros e' n' h t. store_simpl.
  destruct (decide ((e, n) = (e', n'))) as [[= <- <-]|Hne].
  - rewrite lookup_insert_eq. intros [= <- <-]. simpl.
    unfold live_hold in Ehold.
    destruct (seatHold st !! (e, n)) as [[h t]|] eqn:E; [|done].
    case_decide; [|done]. simplify_eq.
    destruct (Hh _ _ _ _ E) as (s & Hs & Hst & Hu). eauto.
  - rewrite lookup_insert_ne; [|done]. eauto.
Qed.

Lemma getSeatStatus_consistent st now e n :
  consistent st → consistent (getSeatStatus now e n st).2.
Proof.
  intros Hc. rewrite getSeatStatus_unfold.
  destruct (seat_at st e n) as [seat|]; [|done].
  case_decide; [|done].
  destruct (live_hold st now e n); [done|].
  pose proof (releaseSeat_consistent st e n Hc) as Hr.
  destruct (releaseSeat e n st) as [[] ?]; done.
Qed.

Lemma collectAvailable_consistent now e entries st :
  consistent st → consistent (collectAvailable now e entries st).2.
Proof.
  revert st. induction entries as [|[n seat] rest IH]; intros st Hc; [done|].
  simpl. destruct (status seat).
  - unfold_monad. specialize (IH st Hc).
    destruct (collectAvailable now e rest st) as [[] ?]; done.
  - unfold get_hold. unfold_monad.
    destruct (live_hold st now e n).
    + by apply IH.
    + pose proof (releaseSeat_consistent st e n Hc) as Hr.
      destruct (releaseSeat e n st) as [[] st1]; [|done].
      specialize (IH st1 Hr).
      destruct (collectAvailable now e rest st1) as [[] ?]; done.
  - by apply IH.
Qed.

Lemma getAvailableSeats_consistent st now e :
  consistent st → consistent (getAvailableSeats now e st).2.
Proof.
  intros Hc. unfold getAvailableSeats, getEvent, get_event, hGetAll. unfold_monad.
  destruct (event st !! e); [|done].
  pose proof (collectAvailable_consistent now e (map_to_list (seats_of st e)) st Hc) as Hr.
  destruct (collectAvailable now e _ st) as [[] ?]; done.
Qed.

Lemma exec_consistent op st :
  consistent st → consistent (exec maxHoldsPerUser op st).
Proof.
  destruct op; simpl;
    eauto using createEvent_consistent, holdSeat_consistent, reserveSeat_consistent,
      releaseSeat_consistent, refreshSeatHold_consistent, getAvailableSeats_consistent,
      getSeatStatus_consistent.
Qed.

Lemma run_consistent ops st :
  consistent st → consistent (run maxHoldsPerUser ops st).
Proof.
  revert st. induction ops as [|op ops IH]; intros st Hc; [done|].
  simpl. apply IH. by apply exec_consistent.
Qed.

Lemma reachable_consistent st :
  reachable maxHoldsPerUser st → consistent st.
Proof. intros [ops ->]. apply run_consistent, consistent_empty. Qed.

End Invariant.

(** ** Hold *)

Section Hold.

Import SeatService.

Variable maxHoldsPerUser : Z.

(** A hold that passes every check writes the seat record, the lease and
    the holder's set. *)
Lemma holdSeat_success st now lag e n u d ev seat :
  event st !! e = Some ev →
  1 ≤ n ≤ totalSeats ev →
  seat_at st e n = Some seat →
  status seat = available →
  Z.of_nat (size (holds_of st u e)) < maxHoldsPerUser →
  ∃ st', holdSeat maxHoldsPerUser now lag e n u d st
           = (Ok (mkSeatHold e n u now (now + d * 1000)), st') ∧
    seat_at st' e n = Some (mkSeat (eventId seat) (seatNumber seat) held (Some u)
                                   (Some now) (reservedAt seat)) ∧
    seatHold st' !! (e, n)
      = Some (mkSeatHold e n u now (now + d * 1000), now + lag + d * 1000) ∧
    holds_of st' u e = {[n]} ∪ holds_of st u e.
Proof.
  intros Hev Hn Hs Hav Hq. rewrite holdSeat_unfold, Hev, Hs.
  rewrite decide_False by lia.
  rewrite decide_False by (by intros []).
  rewrite decide_False by lia.
  eexists. split; [done|]. store_simpl.
  rewrite !decide_True by done. by rewrite lookup_insert_eq.
Qed.

(** C10. Whenever [holdSeat] fails, the store is the one it was called on:
    every error (event not found, seat number out of range, seat record
    absent, seat not available, quota reached) is thrown before the first
    write, so the seat record, the lease and the holder's set are untouched.
    Each error is thrown under exactly its condition. *)
Theorem holdSeat_atomic_on_error st now lag e n u d err st' :
  holdSeat maxHoldsPerUser now lag e n u d st = (Err err, st') →
  st' = st ∧
  match err with
  | EventNotFound => event st !! e = None
  | InvalidSeatNumber =>
      ∃ ev, event st !! e = Some ev ∧ (n < 1 ∨ n > totalSeats ev)
  | SeatNotFound => seat_at st e n = None
  | SeatNotAvailable =>
      ∃ seat, seat_at st e n = Some seat ∧ status seat ≠ available
  | QuotaExceeded max =>
      max = maxHoldsPerUser ∧ Z.of_nat (size (holds_of st u e)) >= maxHoldsPerUser
  | _ => False
  end.
Proof.
  rewrite holdSeat_unfold.
  destruct (event st !! e) as [ev|] eqn:Eev; [|by intros [= <- <-]].
  case_decide; [intros [= <- <-]; eauto|].
  destruct (seat_at st e n) as [seat|] eqn:Es; [|by intros [= <- <-]].
  case_decide; [intros [= <- <-]; eauto|].
  case_decide; [by intros [= <- <-]|done].
Qed.

(** C2. The quota boundary is exact. With [c] the cardinality of the
    holder's set for the event: if [c >= max] the hold never succeeds, and
    on a seat that is there and available it fails with the quota error,
    leaving the store as it was; if [c <= max - 1] the hold is never
    refused for quota, and on a seat that is there and available it
    succeeds and adds the seat to the set. *)
Theorem quota_boundary_exact st now lag e n u d :
  let c := Z.of_nat (size (holds_of st u e)) in
  let valid := ∃ ev seat, event st !! e = Some ev ∧ 1 ≤ n ≤ totalSeats ev ∧
                          seat_at st e n = Some seat ∧ status seat = available in
  (c >= maxHoldsPerUser →
     is_ok (holdSeat maxHoldsPerUser now lag e n u d st).1 = false ∧
     (valid → holdSeat maxHoldsPerUser now lag e n u d st
                = (Err (QuotaExceeded maxHoldsPerUser), st))) ∧
  (c <= maxHoldsPerUser - 1 →
     (∀ max, (holdSeat maxHoldsPerUser now lag e n u d st).1 ≠ Err (QuotaExceeded max)) ∧
     (valid → ∃ h st', holdSeat maxHoldsPerUser now lag e n u d st = (Ok h, st') ∧
                       holds_of st' u e = {[n]} ∪ holds_of st u e)).
Proof.
  intros c valid. subst c valid. split; intros Hc.
  - split.
    + rewrite holdSeat_unfold.
      repeat (case_match; try done); try lia.
    + intros (ev & seat & Hev & Hn & Hs & Hav).
      rewrite holdSeat_unfold, Hev, Hs.
      rewrite decide_False by lia.
      rewrite decide_False by (by intros []).
      by rewrite decide_True.
  - split.
    + intros max. rewrite holdSeat_unfold.
      repeat (case_match; try done); try lia.
    + intros (ev & seat & Hev & Hn & Hs & Hav).
      destruct (holdSeat_success st now lag e n u d ev seat) as (st' & -> & _ & _ & Hset);
        try done; [lia|]. eauto.
Qed.

End Hold.

(** ** Release *)

Section Release.

Import SeatService.

(** The effect of [releaseSeat] on a held seat, observation by
    observation. *)
Lemma releaseSeat_held st e n seat :
  seat_at st e n = Some seat →
  status seat = held →
  ∃ st', releaseSeat e n st = (Ok (), st') ∧
    event st' = event st ∧
    (∀ e' n', seat_at st' e' n' =
       if decide ((e, n) = (e', n')) then Some (released_seat seat)
       else seat_at st e' n') ∧
    seatHold st' = delete (e, n) (seatHold st) ∧
    seatReserved st' = seatReserved st ∧
    (∀ u' e', holds_of st' u' e' =
       if decide (truthy (userId seat) = true ∧ (userId seat, e) = (Some u', e'))
       then holds_of st u' e' ∖ {[n]} else holds_of st u' e').
Proof.
  intros Hs Hheld. rewrite releaseSeat_unfold, Hs, decide_True by done.
  cbn zeta. eexists. split; [done|].
  destruct (userId seat) as [u|] eqn:Eu.
  - destruct (truthy (Some u)) eqn:Et.
    + repeat split; intros *; store_simpl; try done;
        repeat case_decide; naive_solver.
    + repeat split; intros *; store_simpl; try done;
        (rewrite decide_False; [done|naive_solver]).
  - repeat split; intros *; store_simpl; try done;
      (rewrite decide_False; [done|naive_solver]).
Qed.

Lemma releaseSeat_not_held st e n seat :
  seat_at st e n = Some seat →
  status seat ≠ held →
  releaseSeat e n st = (Ok (), st).
Proof. intros Hs Hheld. by rewrite releaseSeat_unfold, Hs, decide_False. Qed.

Lemma live_hold_delete st st' now e n e' n' :
  seatHold st' = delete (e, n) (seatHold st) →
  live_hold st' now e' n' =
  if decide ((e, n) = (e', n')) then None else live_hold st now e' n'.
Proof.
  intros Heq. unfold live_hold. rewrite Heq. case_decide as Hk.
  - rewrite <- Hk. by rewrite lookup_delete_eq.
  - by rewrite lookup_delete_ne.
Qed.

(** C6. [releaseSeat] is idempotent. On a seat that is available or
    reserved it answers success and leaves the store as it is; it changes
    the store only when the seat is held (the seat becomes available with
    holder and held-at cleared, the lease is deleted, the seat leaves the
    holder's set), and a second release is then a no-op; its only error is
    the one for an absent seat record. *)
Theorem releaseSeat_idempotent st e n :
  (seat_at st e n = None → releaseSeat e n st = (Err SeatNotFound, st)) ∧
  (∀ seat, seat_at st e n = Some seat → status seat ≠ held →
     releaseSeat e n st = (Ok (), st)) ∧
  (∀ seat, seat_at st e n = Some seat → status seat = held →
     ∃ st', releaseSeat e n st = (Ok (), st') ∧
       seat_at st' e n = Some (released_seat seat) ∧
       seatHold st' !! (e, n) = None ∧
       (∀ u, userId seat = Some u → u ≠ EmptyString → n ∉ holds_of st' u e) ∧
       releaseSeat e n st' = (Ok (), st')) ∧
  (∀ r st', releaseSeat e n st = (r, st') →
     (∀ err, r = Err err → err = SeatNotFound ∧ seat_at st e n = None) ∧
     (st' ≠ st → ∃ seat, seat_at st e n = Some seat ∧ status seat = held)).
Proof.
  split; [|split; [|split]].
  - intros Hs. by rewrite releaseSeat_unfold, Hs.
  - apply releaseSeat_not_held.
  - intros seat Hs Hheld.
    destruct (releaseSeat_held st e n seat Hs Hheld)
      as (st' & Hrel & _ & Hseat & Hhold & _ & Hset).
    exists st'. split; [done|].
    assert (Hs' : seat_at st' e n = Some (released_seat seat))
      by (by rewrite Hseat, decide_True).
    repeat split; try done.
    + rewrite Hhold. apply lookup_delete_eq.
    + intros u Hu Hne. rewrite Hset, decide_True; [set_solver|].
      rewrite Hu. split; [|done]. by destruct u.
    + by apply (releaseSeat_not_held _ _ _ _ Hs').
  - intros r st'. rewrite releaseSeat_unfold.
    destruct (seat_at st e n) as [seat|] eqn:Es.
    + case_decide.
      * intros [= <- <-]. split; [done|]. eauto.
      * intros [= <- <-]. naive_solver.
    + intros [= <- <-]. naive_solver.
Qed.

End Release.

(** ** Reserve *)

Section Reserve.

Import SeatService.

Variable maxHoldsPerUser : Z.

(** In a consistent store the seat under a stored lease is held by the
    lease's holder. *)
Lemma live_hold_backed st now e n h :
  consistent st →
  live_hold st now e n = Some h →
  ∃ seat, seat_at st e n = Some seat ∧ status seat = held ∧
          userId seat = Some (hold_userId h) ∧ heldAt seat = Some (hold_heldAt h).
Proof.
  intros [_ _ Hh]. unfold live_hold.
  destruct (seatHold st !! (e, n)) as [[h' t]|] eqn:E; [|done].
  case_decide; [|done]. intros [= ->]. eauto.
Qed.

(** What [reserveSeat] writes once the three checks on the lease have
    passed and the seat record is there. *)
Lemma reserveSeat_writes st now e n u h seat :
  live_hold st now e n = Some h →
  hold_userId h = u →
  ¬ expiresAt h < now →
  seat_at st e n = Some seat →
  ∃ st',
    reserveSeat now e n u st = (Ok (mkSeatReservation e n u now), st') ∧
    event st' = event st ∧
    (∀ e' n', seat_at st' e' n' =
       if decide ((e, n) = (e', n')) then Some (reserved_seat now seat)
       else seat_at st e' n') ∧
    seatHold st' = delete (e, n) (seatHold st) ∧
    seatReserved st' = <[(e, n) := mkSeatReservation e n u now]> (seatReserved st) ∧
    holds_of st' u e = holds_of st u e ∖ {[n]}.
Proof.
  intros Hlive Hu Hexp Hs.
  rewrite reserveSeat_unfold, Hlive, Hs.
  rewrite decide_False by (by intros []).
  rewrite decide_False by done.
  cbn zeta. eexists. repeat split; try done; try congruence;
    intros *; store_simpl; try done.
  by rewrite decide_True.
Qed.

Lemma reserveSeat_success st now e n u h :
  consistent st →
  live_hold st now e n = Some h →
  hold_userId h = u →
  ¬ expiresAt h < now →
  ∃ seat st',
    seat_at st e n = Some seat ∧ status seat = held ∧ userId seat = Some u ∧
    reserveSeat now e n u st = (Ok (mkSeatReservation e n u now), st') ∧
    event st' = event st ∧
    (∀ e' n', seat_at st' e' n' =
       if decide ((e, n) = (e', n')) then Some (reserved_seat now seat)
       else seat_at st e' n') ∧
    seatHold st' = delete (e, n) (seatHold st) ∧
    seatReserved st' = <[(e, n) := mkSeatReservation e n u now]> (seatReserved st) ∧
    holds_of st' u e = holds_of st u e ∖ {[n]}.
Proof.
  intros Hc Hlive Hu Hexp.
  destruct (live_hold_backed _ _ _ _ _ Hc Hlive) as (seat & Hs & Hheld & Hus & _).
  destruct (reserveSeat_writes st now e n u h seat) as (st' & H); try done.
  exists seat, st'. split; [done|]. split; [done|]. split; [congruence|done].
Qed.

(** The outcome of [reserveSeat] on any store, check by check. *)
Lemma reserveSeat_cases st now e n u :
  match live_hold st now e n with
  | None => reserveSeat now e n u st = (Err SeatNotHeld, st)
  | Some h =>
      if decide (hold_userId h ≠ u)
      then reserveSeat now e n u st = (Err HeldByAnotherUser, st)
      else if decide (expiresAt h < now)
      then match seat_at st e n with
           | None => reserveSeat now e n u st = (Err SeatNotFound, st)
           | Some _ =>
               reserveSeat now e n u st = (Err HoldExpired, (releaseSeat e n st).2)
           end
      else match seat_at st e n with
           | None => reserveSeat now e n u st = (Err SeatNotFound, st)
           | Some _ => is_ok (reserveSeat now e n u st).1 = true
           end
  end.
Proof.
  rewrite reserveSeat_unfold.
  destruct (live_hold st now e n) as [h|]; [|done].
  case_decide; [done|]. case_decide.
  - rewrite releaseSeat_unfold.
    destruct (seat_at st e n) as [seat|]; [|done].
    by case_decide.
  - by destruct (seat_at st e n).
Qed.

End Reserve.

(** ** The lifecycle of a seat *)

Section Lifecycle.

Import SeatService.

Variable maxHoldsPerUser : Z.

Lemma reconciles_refl st : reconciles st st.
Proof. intros e n. by left. Qed.

Lemma reconciles_trans st1 st2 st3 :
  reconciles st1 st2 → reconciles st2 st3 → reconciles st1 st3.
Proof.
  intros H12 H23 e n.
  destruct (H23 e n) as [Heq|(s2 & Hs2 & Hheld2 & Hs3)].
  - rewrite Heq. apply H12.
  - destruct (H12 e n) as [Heq|(s1 & Hs1 & Hheld1 & Hs2')].
    + right. exists s2. by rewrite <- Heq.
    + rewrite Hs2 in Hs2'. by simplify_eq.
Qed.

Lemma releaseSeat_reconciles st e n : reconciles st (releaseSeat e n st).2.
Proof.
  destruct (seat_at st e n) as [seat|] eqn:Es.
  - destruct (decide (status seat = held)) as [Hheld|Hheld].
    + destruct (releaseSeat_held st e n seat Es Hheld) as (st' & -> & _ & Hseat & _).
      intros e' n'. simpl. rewrite Hseat. case_decide as Hk; [|by left].
      right. exists seat. by simplify_eq.
    + rewrite (releaseSeat_not_held st e n seat) by done. apply reconciles_refl.
  - rewrite releaseSeat_unfold, Es. apply reconciles_refl.
Qed.

Lemma getSeatStatus_reconciles st now e n :
  reconciles st (getSeatStatus now e n st).2.
Proof.
  rewrite getSeatStatus_unfold.
  destruct (seat_at st e n) as [seat|]; [|apply reconciles_refl].
  case_decide; [|apply reconciles_refl].
  destruct (live_hold st now e n); [apply reconciles_refl|].
  pose proof (releaseSeat_reconciles st e n) as Hr.
  destruct (releaseSeat e n st) as [[] ?]; done.
Qed.

Lemma collectAvailable_reconciles now e entries st :
  reconciles st (collectAvailable now e entries st).2.
Proof.
  revert st. induction entries as [|[n seat] rest IH]; intros st;
    [apply reconciles_refl|].
  simpl. destruct (status seat).
  - unfold_monad. specialize (IH st).
    destruct (collectAvailable now e rest st) as [[] ?]; done.
  - unfold get_hold. unfold_monad.
    destruct (live_hold st now e n); [apply IH|].
    pose proof (releaseSeat_reconciles st e n) as Hr.
    destruct (releaseSeat e n st) as [[] st1]; [|done].
    specialize (IH st1).
    destruct (collectAvailable now e rest st1) as [[] ?];
      by eapply reconciles_trans.
  - apply IH.
Qed.

Lemma getAvailableSeats_reconciles st now e :
  reconciles st (getAvailableSeats now e st).2.
Proof.
  unfold getAvailableSeats, getEvent, get_event, hGetAll. unfold_monad.
  destruct (event st !! e); [|apply reconciles_refl].
  pose proof (collectAvailable_reconciles now e (map_to_list (seats_of st e)) st) as Hr.
  destruct (collectAvailable now e _ st) as [[] ?]; done.
Qed.

Lemma reconciles_transition st st' op e n seat :
  reconciles st st' →
  seat_at st e n = Some seat →
  ∃ seat', seat_at st' e n = Some seat' ∧ seat_transition st op e n seat seat'.
Proof.
  intros Hr Hs. destruct (Hr e n) as [Heq|(s & Hs' & Hheld & Hrel)].
  - exists seat. split; [congruence|by apply seat_kept].
  - simplify_eq. exists (released_seat seat). split; [done|by apply seat_released].
Qed.

(** One operation moves the record of a seat along the state machine: it
    keeps it, releases it from held, takes it from available (a hold on
    that seat), or confirms it from held (a reserve on that seat by the
    holder of its live lease). *)
Lemma exec_seat_transition op st e n seat :
  consistent st →
  seat_at st e n = Some seat →
  ∃ seat', seat_at (exec maxHoldsPerUser op st) e n = Some seat' ∧
           seat_transition st op e n seat seat'.
Proof.
  intros Hc Hs.
  destruct op as [now e0 total nm descr|now lag e0 n0 u d|now e0 n0 u|e0 n0
                 |now lag e0 n0 u d|now e0|now e0 n0]; simpl.
  - rewrite createEvent_unfold.
    case_decide; [exists seat; split; [done|by apply seat_kept]|].
    destruct (event st !! e0) eqn:Eev; [exists seat; split; [done|by apply seat_kept]|].
    cbn zeta. cbn [snd]. exists seat. split; [|by apply seat_kept].
    store_simpl. rewrite decide_False; [done|].
    intros ->. destruct Hc as [Hev _ _]. apply Hev in Hs as [? ?]. congruence.
  - rewrite holdSeat_unfold.
    destruct (event st !! e0) as [ev|]; [|exists seat; split; [done|by apply seat_kept]].
    case_decide; [exists seat; split; [done|by apply seat_kept]|].
    destruct (seat_at st e0 n0) as [seat0|] eqn:Es0;
      [|exists seat; split; [done|by apply seat_kept]].
    case_decide; [exists seat; split; [done|by apply seat_kept]|].
    case_decide; [exists seat; split; [done|by apply seat_kept]|].
    cbn zeta. cbn [snd]. store_simpl.
    case_decide as Hk; [|exists seat; split; [done|by apply seat_kept]].
    simplify_eq. eexists. split; [done|].
    eapply seat_taken; [done| |done].
    by destruct (status seat).
  - destruct (live_hold st now e0 n0) as [h|] eqn:Elive.
    + destruct (decide (hold_userId h = u)) as [Hu|Hu].
      * destruct (decide (expiresAt h < now)) as [Hexp|Hexp].
        { apply reconciles_transition; [|done].
          rewrite reserveSeat_unfold, Elive.
          rewrite decide_False by (by intros []). rewrite decide_True by done.
          pose proof (releaseSeat_reconciles st e0 n0) as Hr.
          destruct (releaseSeat e0 n0 st) as [[] ?]; done. }
        destruct (reserveSeat_success _ _ _ _ _ _ Hc Elive Hu Hexp)
          as (seat0 & st' & Hs0 & Hheld & Hus & -> & _ & Hseat & _).
        simpl. rewrite Hseat.
        case_decide as Hk; [|exists seat; split; [done|by apply seat_kept]].
        simplify_eq. eexists. split; [done|]. by eapply seat_confirmed.
      * rewrite reserveSeat_unfold, Elive, decide_True by done.
        exists seat; split; [done|by apply seat_kept].
    + rewrite reserveSeat_unfold, Elive.
      exists seat; split; [done|by apply seat_kept].
  - apply reconciles_transition; [apply releaseSeat_reconciles|done].
  - rewrite refreshSeatHold_unfold.
    destruct (live_hold st now e0 n0) as [h|] eqn:Elive;
      [|exists seat; split; [done|by apply seat_kept]].
    case_decide; [exists seat; split; [done|by apply seat_kept]|].
    case_decide.
    + pose proof (releaseSeat_reconciles st e0 n0) as Hr.
      apply reconciles_transition; [|done].
      destruct (releaseSeat e0 n0 st) as [[] ?]; done.
    + cbn zeta. cbn [snd]. store_simpl.
      exists seat; split; [done|by apply seat_kept].
  - apply reconciles_transition; [apply getAvailableSeats_reconciles|done].
  - apply reconciles_transition; [apply getSeatStatus_reconciles|done].
Qed.

Lemma reachable_exec op st :
  reachable maxHoldsPerUser st → reachable maxHoldsPerUser (exec maxHoldsPerUser op st).
Proof.
  intros [ops ->]. exists (ops ++ [op]). unfold run. by rewrite foldl_app.
Qed.

Lemma reserved_is_kept ops st e n seat :
  consistent st →
  seat_at st e n = Some seat →
  status seat = reserved →
  seat_at (run maxHoldsPerUser ops st) e n = Some seat.
Proof.
  revert st. induction ops as [|op ops IH]; intros st Hc Hs Hres; [done|].
  simpl. apply IH; [by apply exec_consistent| |done].
  destruct (exec_seat_transition op st e n seat Hc Hs) as (seat' & -> & Ht).
  destruct Ht; simplify_eq; congruence.
Qed.

(** X30. Whole operations run one after another keep the lifecycle
    monotone. From a store they reach, no sequence of them changes the
    record of a reserved seat, so a reserved seat never becomes available or
    held again; and an operation that makes a seat reserved is a reserve on
    that seat, found held, by the holder of the lease the store shows, which
    is not past its [expiresAt]: no operation takes a seat from available
    to reserved. *)
Theorem lifecycle_monotone st :
  reachable maxHoldsPerUser st →
  (∀ ops e n seat,
     seat_at st e n = Some seat → status seat = reserved →
     seat_at (run maxHoldsPerUser ops st) e n = Some seat) ∧
  (∀ op e n seat seat',
     seat_at st e n = Some seat → status seat ≠ reserved →
     seat_at (exec maxHoldsPerUser op st) e n = Some seat' →
     status seat' = reserved →
     status seat = held ∧
     ∃ now u h, op = ReserveSeat now e n u ∧
                live_hold st now e n = Some h ∧ hold_userId h = u ∧
                ¬ expiresAt h < now ∧
                userId seat = Some u ∧ userId seat' = Some u).
Proof.
  intros Hc%reachable_consistent. split.
  - intros ops e n seat. by apply reserved_is_kept.
  - intros op e n seat seat' Hs Hnres Hs' Hres.
    destruct (exec_seat_transition op st e n seat Hc Hs) as (seat'' & Heq & Ht).
    rewrite Hs' in Heq. simplify_eq.
    destruct Ht as [Hk|Hheld Hk|now lag u d Hop Hav Hk
                   |now u h Hop Hlive Hu Hexp Hheld Hus Hk];
      subst seat''; try done.
    split; [done|]. exists now, u, h. done.
Qed.

(** C5, as the code has it. In every store reached by whole operations
    run one after another, the fields of each seat record follow its
    status: an available seat has no holder, no held-at and no reserved-at;
    a held seat has a holder and a held-at and no reserved-at; a reserved
    seat has a holder, a held-at and a reserved-at. So reserved-at is set
    exactly on reserved seats, held-at exactly on held and reserved seats,
    and every operation leaves the store in that shape. The operation that
    makes a seat reserved is a reserve that finds it held under a lease: the
    record it writes keeps the holder and the held-at of the held record,
    which are those of the lease, and sets reserved-at to the instant of
    the call; no later operation changes the record. *)
Theorem seat_fields_follow_status st :
  reachable maxHoldsPerUser st →
  (∀ e n s, seat_at st e n = Some s →
     fields_match s ∧
     (is_Some (reservedAt s) ↔ status s = reserved) ∧
     (is_Some (heldAt s) ↔ status s = held ∨ status s = reserved) ∧
     (is_Some (userId s) ↔ status s = held ∨ status s = reserved)) ∧
  (∀ op e n s, seat_at (exec maxHoldsPerUser op st) e n = Some s → fields_match s) ∧
  (∀ op e n s s',
     seat_at st e n = Some s → status s ≠ reserved →
     seat_at (exec maxHoldsPerUser op st) e n = Some s' → status s' = reserved →
     ∃ now h,
       op = ReserveSeat now e n (hold_userId h) ∧
       live_hold st now e n = Some h ∧
       status s = held ∧
       userId s = Some (hold_userId h) ∧ heldAt s = Some (hold_heldAt h) ∧
       s' = mkSeat (eventId s) (seatNumber s) reserved (Some (hold_userId h))
                   (Some (hold_heldAt h)) (Some now)) ∧
  (∀ ops e n s,
     seat_at st e n = Some s → status s = reserved →
     seat_at (run maxHoldsPerUser ops st) e n = Some s).
Proof.
  intros Hr. split; [|split; [|split]].
  - intros e n s Hs.
    apply reachable_consistent in Hr as [_ Hf _]. specialize (Hf _ _ _ Hs).
    split; [done|]. unfold fields_match in Hf.
    destruct (status s); destruct Hf as (Hu & Hh & Hr); rewrite ?Hu, ?Hh, ?Hr;
      repeat split; intros; try done; try (by apply is_Some_None in H);
      naive_solver.
  - intros op e n s Hs.
    destruct (reachable_consistent _ _ (reachable_exec op st Hr)) as [_ Hf _]. eauto.
  - intros op e n s s' Hs Hnres Hs' Hres.
    apply reachable_consistent in Hr as Hc.
    destruct (exec_seat_transition op st e n s Hc Hs) as (s'' & Heq & Ht).
    rewrite Hs' in Heq. simplify_eq.
    destruct Ht as [Hk|Hheld Hk|now lag u d Hop Hav Hk
                   |now u h Hop Hlive Hu Hexp Hheld Hus Hk];
      subst s''; try done.
    destruct (live_hold_backed _ _ _ _ _ Hc Hlive) as (s0 & Hs0 & _ & Hu0 & Hh0).
    assert (s0 = s) as -> by congruence.
    subst u op. exists now, h. repeat split; try done.
    unfold reserved_seat. by rewrite Hu0, Hh0.
  - intros ops e n s. apply reserved_is_kept.
    by apply (reachable_consistent maxHoldsPerUser).
Qed.

End Lifecycle.

(** ** Listing the available seats *)

Section Listing.

Import SeatService.

Lemma Sorted_le_NoDup_lt (l : list Z) :
  Sorted Z.le l → NoDup l → Sorted Z.lt l.
Proof.
  intros Hs%Sorted_StronglySorted Hnd; [|intros x y z; lia].
  apply StronglySorted_Sorted.
  induction Hs as [|x l Hs IH Hall]; [constructor|].
  apply NoDup_cons in Hnd as [Hx Hnd].
  constructor; [by apply IH|].
  rewrite Forall_forall in *. intros y Hy.
  assert (x ≠ y) by (intros ->; by apply Hx, list_elem_of_In).
  specialize (Hall y Hy). lia.
Qed.

Lemma sortBySeatNumber_spec (l : list Z) :
  NoDup l →
  Sorted Z.lt (sortBySeatNumber l) ∧ ∀ n, n ∈ sortBySeatNumber l ↔ n ∈ l.
Proof.
  intros Hnd. unfold sortBySeatNumber.
  pose proof (merge_sort_Permutation Z.le l) as Hp. split.
  - apply Sorted_le_NoDup_lt; [apply (Sorted_merge_sort Z.le)|by rewrite Hp].
  - intros n. split; intros Hn.
    + by rewrite <- Hp.
    + by rewrite Hp.
Qed.

Lemma truthy_Some u : u ≠ EmptyString → truthy (Some u) = true.
Proof. by destruct u. Qed.

Lemma releaseSeat_holds_subset st e n u' e' :
  holds_of (releaseSeat e n st).2 u' e' ⊆ holds_of st u' e'.
Proof.
  destruct (seat_at st e n) as [seat|] eqn:Es.
  - destruct (decide (status seat = held)) as [Hheld|Hheld].
    + destruct (releaseSeat_held st e n seat Es Hheld) as (st' & -> & _ & _ & _ & _ & Hset).
      cbn [snd]. rewrite Hset. clear. case_decide; set_solver.
    + by rewrite (releaseSeat_not_held st e n seat).
  - by rewrite releaseSeat_unfold, Es.
Qed.

Lemma collectAvailable_holds_subset now e entries st u' e' :
  holds_of (collectAvailable now e entries st).2 u' e' ⊆ holds_of st u' e'.
Proof.
  revert st. induction entries as [|[n seat] rest IH]; intros st; [done|].
  simpl. destruct (status seat).
  - unfold_monad. specialize (IH st).
    destruct (collectAvailable now e rest st) as [[] ?]; done.
  - unfold get_hold. unfold_monad.
    destruct (live_hold st now e n); [apply IH|].
    pose proof (releaseSeat_holds_subset st e n u' e') as Hr.
    destruct (releaseSeat e n st) as [[] st1]; [|done].
    specialize (IH st1).
    destruct (collectAvailable now e rest st1) as [[] ?]; cbn [snd] in *; set_solver.
  - apply IH.
Qed.

(** The loop of [getAvailableSeats] over a snapshot of distinct entries
    that the store still holds. *)
Lemma collectAvailable_spec now e entries st :
  NoDup entries.*1 →
  (∀ n seat, (n, seat) ∈ entries → seat_at st e n = Some seat) →
  ∃ l st', collectAvailable now e entries st = (Ok l, st') ∧
    NoDup l ∧
    (∀ m, m ∈ l ↔ ∃ seat, (m, seat) ∈ entries ∧ listable st now e m seat) ∧
    (∀ m seat, (m, seat) ∈ entries →
       (stale st now e m seat → seat_at st' e m = Some (released_seat seat)) ∧
       (¬ stale st now e m seat → seat_at st' e m = Some seat)) ∧
    (∀ m, m ∉ entries.*1 →
       seat_at st' e m = seat_at st e m ∧
       live_hold st' now e m = live_hold st now e m) ∧
    (∀ m seat u, (m, seat) ∈ entries → stale st now e m seat →
       userId seat = Some u → u ≠ EmptyString → m ∉ holds_of st' u e).
Proof.
  revert st. induction entries as [|[n seat] rest IH]; intros st Hnd Hin.
  { exists [], st. repeat split; try done; try apply NoDup_nil_2; set_solver. }
  rewrite fmap_cons in Hnd. apply NoDup_cons in Hnd as [Hn Hnd]. simpl in Hn.
  assert (Hs : seat_at st e n = Some seat) by (apply Hin; set_solver).
  assert (Hrest : ∀ m s, (m, s) ∈ rest → m ≠ n).
  { intros m s Hm ->. apply Hn. apply list_elem_of_fmap. by exists (n, s). }
  destruct (decide (stale st now e n seat)) as [[Hheld Hlive]|Hnst].
  - (* a stale hold: released, then pushed *)
    destruct (releaseSeat_held st e n seat Hs Hheld)
      as (st1 & Hrel & _ & Hseat1 & Hhold1 & _ & Hset1).
    assert (Hlive1 : ∀ m, m ≠ n → live_hold st1 now e m = live_hold st now e m).
    { intros m Hm. rewrite (live_hold_delete st st1 now e n e m Hhold1).
      rewrite decide_False; [done|congruence]. }
    destruct (IH st1 Hnd) as (l & st' & Hrun & Hndl & Hmem & Hpost & Hframe & Hgone).
    { intros m s Hm. rewrite Hseat1, decide_False; [apply Hin; set_solver|].
      intros [= ->]. by eapply Hrest. }
    exists (n :: l), st'. split.
    { simpl. rewrite Hheld. unfold get_hold. unfold_monad.
      by rewrite Hlive, Hrel, Hrun. }
    destruct (Hframe n Hn) as [Hfs Hfl].
    split; [|split; [|split; [|split]]].
    + apply NoDup_cons. split; [|done].
      rewrite Hmem. intros (s & Hm & _). by eapply Hrest.
    + intros m. rewrite elem_of_cons, Hmem. split.
      * intros [->|(s & Hm & Hl)].
        -- exists seat. split; [set_solver|]. by right.
        -- exists s. split; [set_solver|].
           unfold listable, stale in *. rewrite <- Hlive1; [done|by eapply Hrest].
      * intros (s & [[= -> ->]|Hm]%elem_of_cons & Hl); [by left|].
        right. exists s. split; [done|].
        unfold listable, stale in *. rewrite Hlive1; [done|by eapply Hrest].
    + intros m s [[= -> ->]|Hm]%elem_of_cons.
      * split; [|by intros []]. intros _. by rewrite Hfs, Hseat1, decide_True.
      * destruct (Hpost m s Hm) as [Hp1 Hp2].
        unfold stale in *. rewrite Hlive1 in Hp1, Hp2 by (by eapply Hrest). done.
    + intros m Hm. rewrite fmap_cons, not_elem_of_cons in Hm. destruct Hm as [Hm1 Hm2].
      simpl in Hm1. destruct (Hframe m Hm2) as [-> ->].
      rewrite Hseat1, decide_False by congruence. by rewrite Hlive1.
    + intros m s u [[= -> ->]|Hm]%elem_of_cons Hst Hu Hne.
      * pose proof (collectAvailable_holds_subset now e rest st1 u e) as Hsub.
        rewrite Hrun in Hsub. cbn [snd] in Hsub.
        rewrite Hset1, decide_True in Hsub; [set_solver|].
        rewrite Hu. split; [by apply truthy_Some|done].
      * apply (Hgone m s u); try done.
        unfold stale in *. rewrite Hlive1; [done|by eapply Hrest].
  - (* available, live hold or reserved: the store is not written *)
    destruct (IH st Hnd) as (l & st' & Hrun & Hndl & Hmem & Hpost & Hframe & Hgone).
    { intros m s Hm. apply Hin. set_solver. }
    destruct (Hframe n Hn) as [Hfs Hfl].
    assert (Hpostn : ∀ s, (n, s) ∈ (n, seat) :: rest → s = seat).
    { intros s [[= ->]|Hm]%elem_of_cons; [done|]. by apply Hrest in Hm. }
    destruct (decide (status seat = available)) as [Hav|Hnav].
    + exists (n :: l), st'. split.
      { simpl. rewrite Hav. unfold_monad. by rewrite Hrun. }
      split; [|split; [|split; [|split]]].
      * apply NoDup_cons. split; [|done].
        rewrite Hmem. intros (s & Hm & _). by eapply Hrest.
      * intros m. rewrite elem_of_cons, Hmem. split.
        -- intros [->|(s & Hm & Hl)]; [exists seat; split; [set_solver|by left]|].
           exists s. split; [set_solver|done].
        -- intros (s & [[= -> ->]|Hm]%elem_of_cons & Hl); [by left|].
           right. by exists s.
      * intros m s [[= -> ->]|Hm]%elem_of_cons; [|by apply Hpost].
        split; [done|]. intros _. by rewrite Hfs.
      * intros m Hm. rewrite fmap_cons, not_elem_of_cons in Hm.
        destruct Hm as [Hm1 Hm2]. by apply Hframe.
      * intros m s u [[= -> ->]|Hm]%elem_of_cons Hst Hu Hne; [done|].
        by apply (Hgone m s u).
    + exists l, st'. split.
      { simpl. unfold stale in Hnst. unfold get_hold. unfold_monad.
        destruct (status seat); [done| |done].
        destruct (live_hold st now e n); [done|]. by destruct Hnst. }
      split; [done|]. split; [|split; [|split]].
      * intros m. rewrite Hmem. split.
        -- intros (s & Hm & Hl). exists s. split; [set_solver|done].
        -- intros (s & [[= -> ->]|Hm]%elem_of_cons & Hl); [|by exists s].
           by destruct Hl.
      * intros m s [[= -> ->]|Hm]%elem_of_cons; [|by apply Hpost].
        split; [done|]. intros _. by rewrite Hfs.
      * intros m Hm. rewrite fmap_cons, not_elem_of_cons in Hm.
        destruct Hm as [Hm1 Hm2]. by apply Hframe.
      * intros m s u [[= -> ->]|Hm]%elem_of_cons Hst Hu Hne; [done|].
        by apply (Hgone m s u).
Qed.

(** [getAvailableSeats] on an event that exists: the loop runs over the
    whole hash and its result is sorted. *)
Lemma getAvailableSeats_run st now e ev :
  event st !! e = Some ev →
  ∃ pushed st',
    getAvailableSeats now e st = (Ok (sortBySeatNumber pushed), st') ∧
    NoDup pushed ∧
    (∀ n, n ∈ pushed ↔ ∃ seat, seat_at st e n = Some seat ∧ listable st now e n seat) ∧
    (∀ n seat, seat_at st e n = Some seat →
       (stale st now e n seat → seat_at st' e n = Some (released_seat seat)) ∧
       (¬ stale st now e n seat → seat_at st' e n = Some seat)) ∧
    (∀ n, seat_at st e n = None → seat_at st' e n = None) ∧
    (∀ n seat u, seat_at st e n = Some seat → stale st now e n seat →
       userId seat = Some u → u ≠ EmptyString → n ∉ holds_of st' u e).
Proof.
  intros Hev.
  pose proof (NoDup_fst_map_to_list (seats_of st e)) as Hnd.
  destruct (collectAvailable_spec now e (map_to_list (seats_of st e)) st Hnd)
    as (pushed & st' & Hrun & Hndl & Hmem & Hpost & Hframe & Hgone).
  { intros n seat. by rewrite elem_of_map_to_list. }
  exists pushed, st'. split.
  { unfold getAvailableSeats, getEvent, get_event, hGetAll. unfold_monad.
    by rewrite Hev, Hrun. }
  split; [done|]. split; [|split; [|split]].
  - intros n. rewrite Hmem. by setoid_rewrite elem_of_map_to_list.
  - intros n seat Hs. by apply Hpost, elem_of_map_to_list.
  - intros n Hs. destruct (Hframe n) as [Hfs _]; [|congruence].
    rewrite list_elem_of_fmap. intros ([m s] & -> & Hm).
    apply elem_of_map_to_list in Hm. unfold seat_at in Hs. simpl in Hs. congruence.
  - intros n seat u Hs. by apply Hgone, elem_of_map_to_list.
Qed.

(** C9. On an event that exists, [getAvailableSeats] answers the seat
    numbers in strictly ascending order; a number is listed exactly when
    the seat was available or was held with no live lease, which is exactly
    when the seat is available in the store the call leaves: stale holds
    are released on the way, reserved seats and seats under a live lease
    are left out and untouched. *)
Theorem getAvailableSeats_exact st now e ev :
  event st !! e = Some ev →
  ∃ l st', getAvailableSeats now e st = (Ok l, st') ∧
    Sorted Z.lt l ∧
    (∀ n, n ∈ l ↔ ∃ seat, seat_at st e n = Some seat ∧
                          (status seat = available ∨
                           (status seat = held ∧ live_hold st now e n = None))) ∧
    (∀ n, n ∈ l ↔ ∃ seat', seat_at st' e n = Some seat' ∧ status seat' = available) ∧
    (∀ n seat, seat_at st e n = Some seat →
       (status seat = held ∧ live_hold st now e n = None →
          seat_at st' e n = Some (released_seat seat) ∧
          ∀ u, userId seat = Some u → u ≠ EmptyString → n ∉ holds_of st' u e) ∧
       (status seat = reserved ∨ (status seat = held ∧ is_Some (live_hold st now e n)) →
          (n ∉ l) ∧ seat_at st' e n = Some seat)).
Proof.
  intros Hev.
  destruct (getAvailableSeats_run st now e ev Hev)
    as (pushed & st' & Hrun & Hnd & Hmem & Hpost & Hnone & Hgone).
  destruct (sortBySeatNumber_spec pushed Hnd) as [Hsorted Hperm].
  exists (sortBySeatNumber pushed), st'. split; [done|]. split; [done|].
  assert (Hl : ∀ n, n ∈ sortBySeatNumber pushed ↔
            ∃ seat, seat_at st e n = Some seat ∧ listable st now e n seat).
  { intros n. by rewrite Hperm, Hmem. }
  split; [done|]. split.
  - intros n. rewrite Hl. split.
    + intros (seat & Hs & Hlist). destruct (Hpost n seat Hs) as [Hp1 Hp2].
      destruct (decide (stale st now e n seat)) as [Hst|Hst].
      * exists (released_seat seat). by rewrite Hp1.
      * exists seat. rewrite Hp2 by done. by destruct Hlist.
    + intros (seat' & Hs' & Hav).
      destruct (seat_at st e n) as [seat|] eqn:Es.
      * exists seat. split; [done|]. destruct (Hpost n seat Es) as [Hp1 Hp2].
        destruct (decide (stale st now e n seat)) as [Hst|Hst]; [by right|].
        left. rewrite Hp2 in Hs' by done. by simplify_eq.
      * rewrite (Hnone n Es) in Hs'. done.
  - intros n seat Hs. destruct (Hpost n seat Hs) as [Hp1 Hp2]. split.
    + intros Hst. split; [by apply Hp1|]. intros u Hu Hne. by apply (Hgone n seat u).
    + intros Hno.
      assert (Hnl : ¬ listable st now e n seat).
      { intros [Hav|[Hheld Hlive]]; destruct Hno as [Hres|[Hh [h Hh']]]; congruence. }
      split.
      * rewrite Hl. intros (s & Hs' & Hlist). congruence.
      * apply Hp2. intros Hst. apply Hnl. by right.
Qed.

End Listing.

(** ** Reconciliation of expired holds *)

Section Reconciliation.

Import SeatService.

Variable maxHoldsPerUser : Z.

(** What a successful hold has checked and written. *)
Lemma holdSeat_ok st0 now lag e n u d h st :
  holdSeat maxHoldsPerUser now lag e n u d st0 = (Ok h, st) →
  h = mkSeatHold e n u now (now + d * 1000) ∧
  event st = event st0 ∧
  (∃ seat, seat_at st0 e n = Some seat ∧ status seat = available ∧
           seat_at st e n = Some (mkSeat (eventId seat) (seatNumber seat) held (Some u)
                                         (Some now) (reservedAt seat))) ∧
  seatHold st !! (e, n) = Some (h, now + lag + d * 1000) ∧
  Z.of_nat (size (holds_of st0 u e)) < maxHoldsPerUser ∧
  holds_of st u e = {[n]} ∪ holds_of st0 u e.
Proof.
  rewrite holdSeat_unfold.
  destruct (event st0 !! e) as [ev|] eqn:Eev; [|done].
  case_decide; [done|].
  destruct (seat_at st0 e n) as [seat|] eqn:Es; [|done].
  case_decide as Hav; [done|].
  case_decide; [done|].
  cbn zeta. intros Heq.
  pose proof (f_equal fst Heq) as Hh. pose proof (f_equal snd Heq) as Hst.
  cbn [fst snd] in Hh, Hst. clear Heq. injection Hh as <-. subst st. store_simpl.
  rewrite !decide_True by done. rewrite lookup_insert_eq.
  split; [done|]. split; [done|]. split.
  { exists seat. repeat split; try done; by destruct (status seat). }
  split; [done|]. split; [lia|done].
Qed.

(** [reserveSeat] and [refreshSeatHold] change the store on a failure
    only by the release of a lease of the caller that is past its
    [expiresAt]. *)
Lemma reserveSeat_failure st now e n u err st' :
  reserveSeat now e n u st = (Err err, st') →
  st' ≠ st →
  err = HoldExpired ∧ st' = (releaseSeat e n st).2 ∧
  ∃ h, live_hold st now e n = Some h ∧ hold_userId h = u ∧ expiresAt h < now.
Proof.
  rewrite reserveSeat_unfold.
  destruct (live_hold st now e n) as [h|]; [|by intros [= <- <-]].
  case_decide as Hu; [by intros [= <- <-]|].
  case_decide as Hexp.
  - rewrite releaseSeat_unfold.
    destruct (seat_at st e n) as [seat|]; [|by intros [= <- <-]].
    case_decide; intros [= <- <-]; [|done]. intros _.
    split; [done|]. split; [done|]. exists h.
    split; [done|]. split; [|done]. by destruct (decide (hold_userId h = u)).
  - destruct (seat_at st e n) as [seat|]; [done|]. by intros [= <- <-].
Qed.

Lemma refreshSeatHold_failure st now lag e n u d err st' :
  refreshSeatHold now lag e n u d st = (Err err, st') →
  st' ≠ st →
  err = HoldExpired ∧ st' = (releaseSeat e n st).2 ∧
  ∃ h, live_hold st now e n = Some h ∧ hold_userId h = u ∧ expiresAt h < now.
Proof.
  rewrite refreshSeatHold_unfold.
  destruct (live_hold st now e n) as [h|]; [|by intros [= <- <-]].
  case_decide as Hu; [by intros [= <- <-]|].
  case_decide as Hexp; [|done].
  rewrite releaseSeat_unfold.
  destruct (seat_at st e n) as [seat|]; [|by intros [= <- <-]].
  case_decide; intros [= <- <-]; [|done]. intros _.
  split; [done|]. split; [done|]. exists h.
  split; [done|]. split; [|done]. by destruct (decide (hold_userId h = u)).
Qed.

(** C4, as the code has it. Reading a held seat whose lease the store no
    longer shows releases it first: [getSeatStatus] answers the seat as
    available and [getAvailableSeats] lists it, and both leave the record
    available with holder and held-at cleared and the seat out of the
    holder's set. [reserveSeat] and [refreshSeatHold] look at the lease
    before the seat record: with no lease they fail with the not-held
    error and leave the store as it is; a lease of the caller that the
    store shows past its [expiresAt] makes them release the seat and fail
    with the expired error, and that is the only failure of theirs that
    changes the store. After a hold, once the store has evicted the lease,
    which it does the hold's duration after it served the [SETEX], the
    next [getSeatStatus] or [getAvailableSeats] shows the seat available;
    as long as the store shows the lease, [getSeatStatus] answers the seat
    held, also past the lease's [expiresAt]. *)
Theorem lazy_reconciliation :
  (∀ st now e n seat,
     seat_at st e n = Some seat → status seat = held → live_hold st now e n = None →
     (∃ st', getSeatStatus now e n st = (Ok (released_seat seat), st') ∧
             seat_at st' e n = Some (released_seat seat) ∧
             ∀ u, userId seat = Some u → u ≠ EmptyString → n ∉ holds_of st' u e) ∧
     (is_Some (event st !! e) →
      ∃ l st', getAvailableSeats now e st = (Ok l, st') ∧ n ∈ l ∧
               seat_at st' e n = Some (released_seat seat) ∧
               ∀ u, userId seat = Some u → u ≠ EmptyString → n ∉ holds_of st' u e) ∧
     (∀ u, reserveSeat now e n u st = (Err SeatNotHeld, st)) ∧
     (∀ u lag d, refreshSeatHold now lag e n u d st = (Err SeatNotHeld, st))) ∧
  (∀ st now lag e n u d seat h,
     seat_at st e n = Some seat → status seat = held →
     live_hold st now e n = Some h → hold_userId h = u → expiresAt h < now →
     ∃ st', releaseSeat e n st = (Ok (), st') ∧
            seat_at st' e n = Some (released_seat seat) ∧
            reserveSeat now e n u st = (Err HoldExpired, st') ∧
            refreshSeatHold now lag e n u d st = (Err HoldExpired, st')) ∧
  (∀ st now lag e n u d err st',
     (reserveSeat now e n u st = (Err err, st') ∨
      refreshSeatHold now lag e n u d st = (Err err, st')) →
     st' ≠ st →
     err = HoldExpired ∧ st' = (releaseSeat e n st).2 ∧
     ∃ h, live_hold st now e n = Some h ∧ hold_userId h = u ∧ expiresAt h < now) ∧
  (∀ st0 now0 lag e n u d h st now,
     holdSeat maxHoldsPerUser now0 lag e n u d st0 = (Ok h, st) →
     (now0 + lag + d * 1000 < now →
      (∃ seat st', getSeatStatus now e n st = (Ok seat, st') ∧ status seat = available) ∧
      (∃ l st', getAvailableSeats now e st = (Ok l, st') ∧ n ∈ l)) ∧
     (now ≤ now0 + lag + d * 1000 →
      ∃ seat, getSeatStatus now e n st = (Ok seat, st) ∧ status seat = held)).
Proof.
  assert (Hread : ∀ st now e n seat,
     seat_at st e n = Some seat → status seat = held → live_hold st now e n = None →
     (∃ st', getSeatStatus now e n st = (Ok (released_seat seat), st') ∧
             seat_at st' e n = Some (released_seat seat) ∧
             ∀ u, userId seat = Some u → u ≠ EmptyString → n ∉ holds_of st' u e) ∧
     (is_Some (event st !! e) →
      ∃ l st', getAvailableSeats now e st = (Ok l, st') ∧ n ∈ l ∧
               seat_at st' e n = Some (released_seat seat) ∧
               ∀ u, userId seat = Some u → u ≠ EmptyString → n ∉ holds_of st' u e)).
  { intros st now e n seat Hs Hheld Hlive. split.
    - destruct (releaseSeat_held st e n seat Hs Hheld)
        as (st' & Hrel & _ & Hseat & _ & _ & Hset).
      exists st'. rewrite getSeatStatus_unfold, Hs, decide_True, Hlive, Hrel by done.
      split; [done|]. split; [by rewrite Hseat, decide_True|].
      intros u Hu Hne. rewrite Hset, decide_True; [set_solver|].
      rewrite Hu. split; [by apply truthy_Some|done].
    - intros [ev Hev].
      destruct (getAvailableSeats_run st now e ev Hev)
        as (pushed & st' & Hrun & Hnd & Hmem & Hpost & _ & Hgone).
      destruct (sortBySeatNumber_spec pushed Hnd) as [_ Hperm].
      exists (sortBySeatNumber pushed), st'. split; [done|].
      assert (Hst : stale st now e n seat) by done.
      split; [|split].
      + rewrite Hperm, Hmem. exists seat. split; [done|by right].
      + destruct (Hpost n seat Hs) as [Hp _]. by apply Hp.
      + intros u Hu Hne. by apply (Hgone n seat u). }
  split; [|split; [|split]].
  - intros st now e n seat Hs Hheld Hlive.
    destruct (Hread st now e n seat Hs Hheld Hlive) as [H1 H2].
    repeat split; try done.
    + intros u. by rewrite reserveSeat_unfold, Hlive.
    + intros u lag d. by rewrite refreshSeatHold_unfold, Hlive.
  - intros st now lag e n u d seat h Hs Hheld Hlive Hu Hexp.
    destruct (releaseSeat_held st e n seat Hs Hheld) as (st' & Hrel & _ & Hseat & _).
    exists st'. split; [done|]. split; [by rewrite Hseat, decide_True|].
    rewrite reserveSeat_unfold, refreshSeatHold_unfold, Hlive.
    rewrite !(decide_False (P := hold_userId h ≠ u)) by naive_solver.
    rewrite !(decide_True (P := expiresAt h < now)) by done.
    by rewrite Hrel.
  - intros st now lag e n u d err st' [Hr|Hr] Hne.
    + by eapply reserveSeat_failure.
    + by eapply refreshSeatHold_failure.
  - intros st0 now0 lag e n u d h st now Hhold.
    destruct (holdSeat_ok _ _ _ _ _ _ _ _ _ Hhold)
      as (-> & Hev & (seat0 & Hs0 & Hav & Hs) & Hlease & _).
    split; intros Hnow.
    + assert (Hlive : live_hold st now e n = None).
      { unfold live_hold. rewrite Hlease. by rewrite decide_False by lia. }
      destruct (Hread st now e n _ Hs eq_refl Hlive) as [(st' & Hget & _) Hlist].
      split; [by eexists _, st'|].
      destruct Hlist as (l & st'' & Hrun & Hin & _).
      { rewrite Hev. rewrite holdSeat_unfold in Hhold.
        destruct (event st0 !! e); [eauto|done]. }
      by exists l, st''.
    + eexists. rewrite getSeatStatus_unfold, Hs. cbn [status].
      rewrite decide_True by done. unfold live_hold. rewrite Hlease.
      by rewrite decide_True by lia.
Qed.

End Reconciliation.

(** ** Overlapping holds *)

Section Overlap.

Import SeatService.

Variable maxHoldsPerUser : Z.

Lemma interleave_cons i schedule p :
  interleave maxHoldsPerUser (i :: schedule) p
  = interleave maxHoldsPerUser schedule (resume maxHoldsPerUser i p).
Proof. done. Qed.

Lemma resume_single c t st :
  resume maxHoldsPerUser 0 ([(c, t)], st)
  = ([(c, (hold_step maxHoldsPerUser c t st).1)], (hold_step maxHoldsPerUser c t st).2).
Proof. unfold resume. cbn [fst snd]. simpl. by destruct (hold_step _ c t st). Qed.

Lemma interleave_settled schedule c r st :
  interleave maxHoldsPerUser schedule ([(c, Settled r)], st) = ([(c, Settled r)], st).
Proof.
  induction schedule as [|i schedule IH]; [done|].
  rewrite interleave_cons. by destruct i.
Qed.

Ltac serve_await :=
  rewrite interleave_cons, resume_single;
  unfold hold_step;
  cbn [call_now call_lag call_eventId call_seatNumber call_userId call_holdDuration
       fst snd].

(** Served without interruption, the six awaits of a call compute
    [holdSeat]. *)
Lemma holdSeat_as_steps c st :
  interleave maxHoldsPerUser (replicate 6 0%nat) ([(c, AwaitGetEvent)], st) =
  let r := holdSeat maxHoldsPerUser (call_now c) (call_lag c) (call_eventId c)
                    (call_seatNumber c) (call_userId c) (call_holdDuration c) st in
  ([(c, Settled r.1)], r.2).
Proof.
  rewrite holdSeat_unfold. destruct c as [now lag e n u d].
  cbn [call_now call_lag call_eventId call_seatNumber call_userId call_holdDuration
       replicate].
  serve_await. unfold getEvent, get_event. unfold_monad.
  destruct (event st !! e) as [ev|]; cbn [fst snd];
    [|by rewrite interleave_settled].
  case_decide; cbn [fst snd]; [by rewrite interleave_settled|].
  serve_await. unfold hGet, seat_at.
  destruct (seats_of st e !! n) as [seat|]; cbn [fst snd];
    [|by rewrite interleave_settled].
  case_decide; cbn [fst snd]; [by rewrite interleave_settled|].
  serve_await. unfold getUserHoldCount, sCard.
  case_decide; cbn [fst snd]; [by rewrite interleave_settled|].
  do 3 serve_await.
  done.
Qed.

(** Two holds of the same seat that do not overlap: the second one finds
    the seat taken. *)
Lemma holdSeat_then_conflict st now lag e n u d h st' now' lag' u' d' :
  holdSeat maxHoldsPerUser now lag e n u d st = (Ok h, st') →
  holdSeat maxHoldsPerUser now' lag' e n u' d' st' = (Err SeatNotAvailable, st').
Proof.
  intros Hhold.
  destruct (holdSeat_ok _ _ _ _ _ _ _ _ _ _ Hhold) as (_ & Hev & (seat & _ & _ & Hs) & _).
  rewrite holdSeat_unfold in Hhold. rewrite holdSeat_unfold, Hev, Hs.
  destruct (event st !! e) as [ev|]; [|done].
  case_decide; [done|]. by rewrite decide_True.
Qed.

Lemma resume_first a ta b tb st :
  resume maxHoldsPerUser 0 ([(a, ta); (b, tb)], st)
  = ([(a, (hold_step maxHoldsPerUser a ta st).1); (b, tb)],
     (hold_step maxHoldsPerUser a ta st).2).
Proof. unfold resume. cbn [fst snd]. simpl. by destruct (hold_step _ a ta st). Qed.

Lemma resume_second a ta b tb st :
  resume maxHoldsPerUser 1 ([(a, ta); (b, tb)], st)
  = ([(a, ta); (b, (hold_step maxHoldsPerUser b tb st).1)],
     (hold_step maxHoldsPerUser b tb st).2).
Proof. unfold resume. cbn [fst snd]. simpl. by destruct (hold_step _ b tb st). Qed.

Ltac serve_turn :=
  rewrite interleave_cons; first [rewrite resume_first | rewrite resume_second];
  unfold hold_step;
  cbn [call_now call_lag call_eventId call_seatNumber call_userId call_holdDuration
       fst snd].

(** X18. The race in general: whenever a hold of seat [n] would succeed for
    either of two callers alone, serving their awaits in turn lets both
    succeed. *)
Lemma overlapping_holds_race st e n ev seat now1 lag1 u1 d1 now2 lag2 u2 d2 :
  event st !! e = Some ev →
  1 ≤ n ≤ totalSeats ev →
  seat_at st e n = Some seat →
  status seat = available →
  Z.of_nat (size (holds_of st u1 e)) < maxHoldsPerUser →
  Z.of_nat (size (holds_of st u2 e)) < maxHoldsPerUser →
  ∃ st',
    interleave maxHoldsPerUser [0; 1; 0; 1; 0; 1; 0; 1; 0; 1; 0; 1]%nat
      ([(mkHoldCall now1 lag1 e n u1 d1, AwaitGetEvent);
        (mkHoldCall now2 lag2 e n u2 d2, AwaitGetEvent)], st)
    = ([(mkHoldCall now1 lag1 e n u1 d1,
         Settled (Ok (mkSeatHold e n u1 now1 (now1 + d1 * 1000))));
        (mkHoldCall now2 lag2 e n u2 d2,
         Settled (Ok (mkSeatHold e n u2 now2 (now2 + d2 * 1000))))], st').
Proof.
  intros Hev Hn Hs Hav Hq1 Hq2. unfold seat_at in Hs.
  do 2 (serve_turn; unfold getEvent, get_event; unfold_monad; rewrite Hev;
        rewrite decide_False by lia; cbn [fst snd]).
  do 2 (serve_turn; unfold hGet; rewrite Hs;
        rewrite decide_False by (by rewrite Hav; intros []); cbn [fst snd]).
  do 2 (serve_turn; unfold getUserHoldCount, sCard;
        rewrite decide_False by lia; cbn [fst snd]).
  do 6 serve_turn.
  by eexists.
Qed.

End Overlap.

(** ** Release and reserve in flight together *)

Section ReleaseOverlap.

Import SeatService.

Lemma overlap_cons c turn schedule f :
  overlap c (turn :: schedule) f = overlap c schedule (serve c f turn).
Proof. done. Qed.

Lemma serve_release c t r st :
  serve c (mkFlight t r st) of_release =
  mkFlight t (release_step (reserve_eventId c) (reserve_seatNumber c) r st).1
           (release_step (reserve_eventId c) (reserve_seatNumber c) r st).2.
Proof.
  unfold serve. cbn [reserving releasing served].
  by destruct (release_step _ _ r st).
Qed.

Lemma serve_reserve c t r st :
  serve c (mkFlight t r st) of_reserve =
  mkFlight (reserve_step c t st).1 r (reserve_step c t st).2.
Proof.
  unfold serve. cbn [reserving releasing served].
  by destruct (reserve_step c t st).
Qed.

Ltac serve_one :=
  rewrite overlap_cons; first [rewrite serve_release | rewrite serve_reserve];
  cbn [release_step reserve_step reserve_now reserve_eventId reserve_seatNumber
       reserve_userId fst snd].

(** Served without interruption, the awaits of a release compute
    [releaseSeat]: four of them at most. *)
Lemma releaseSeat_as_steps c t st :
  overlap c (replicate 4 of_release) (mkFlight t ReleaseHGet st) =
  let r := releaseSeat (reserve_eventId c) (reserve_seatNumber c) st in
  mkFlight t (ReleaseSettled r.1) r.2.
Proof.
  rewrite releaseSeat_unfold. unfold seat_at. destruct c as [now e n u].
  cbn [replicate reserve_eventId reserve_seatNumber].
  serve_one. unfold hGet.
  destruct (seats_of st e !! n) as [seat|]; cbn [fst snd];
    [|by do 3 serve_one].
  case_decide; cbn [fst snd]; [|by do 3 serve_one].
  do 2 serve_one.
  destruct (userId seat) as [u'|]; cbn [fst snd]; [|by serve_one].
  destruct (truthy (Some u')); cbn [fst snd]; by serve_one.
Qed.

(** Served without interruption, the awaits of a reserve compute
    [reserveSeat]: six of them at most. *)
Lemma reserveSeat_as_steps c t st :
  overlap c (replicate 6 of_reserve) (mkFlight ReserveGet t st) =
  let r := reserveSeat (reserve_now c) (reserve_eventId c) (reserve_seatNumber c)
                       (reserve_userId c) st in
  mkFlight (ReserveSettled r.1) t r.2.
Proof.
  rewrite reserveSeat_unfold, releaseSeat_unfold. unfold seat_at.
  destruct c as [now e n u].
  cbn [replicate reserve_now reserve_eventId reserve_seatNumber reserve_userId].
  serve_one. unfold get_hold.
  destruct (live_hold st now e n) as [h|]; cbn [fst snd]; [|by do 5 serve_one].
  case_decide; cbn [fst snd]; [by do 5 serve_one|].
  case_decide; cbn [fst snd].
  - serve_one. unfold hGet.
    destruct (seats_of st e !! n) as [seat|]; cbn [fst snd]; [|by do 4 serve_one].
    case_decide; cbn [fst snd]; [|by do 4 serve_one].
    do 2 serve_one.
    destruct (userId seat) as [u'|]; cbn [fst snd]; [|by do 2 serve_one].
    destruct (truthy (Some u')); cbn [fst snd]; by do 2 serve_one.
  - serve_one. unfold hGet.
    destruct (seats_of st e !! n) as [seat|]; cbn [fst snd]; [|by do 4 serve_one].
    by do 4 serve_one.
Qed.

End ReleaseOverlap.

(** C8, on [SeatService]. Seat 3 is held by Alice under a live lease; her
    [reserveSeat] and a [releaseSeat] of the seat are in flight together.
    First schedule: the release reads the held record, the reserve then
    passes its checks and writes the record as reserved, and the release
    writes over it the available record built from what it read: the seat
    goes from reserved back to available. Both calls settle with success,
    the reservation record stays, and the seat can be held by someone else.
    Second schedule: the release writes the available record before the
    reserve reads the lease, which the release has not deleted yet; the
    reserve never looks at the status and writes the record as reserved over
    the available one, with no hold in between: the seat ends reserved with
    no holder and no held-at. *)
Theorem overlapping_release_unreserves :
  let st := Examples.store Examples.seat3_held in
  let call := SeatService.mkReserveCall 2000 "concert" 3 "alice" in
  let start := SeatService.mkFlight SeatService.ReserveGet SeatService.ReleaseHGet st in
  let of_reserve := SeatService.of_reserve in
  let of_release := SeatService.of_release in
  let f1 := SeatService.overlap call [of_release; of_reserve; of_reserve; of_reserve]
              start in
  let f2 := SeatService.overlap call [of_release] f1 in
  let f3 := SeatService.overlap call
              [of_reserve; of_reserve; of_reserve; of_release; of_release] f2 in
  let g1 := SeatService.overlap call [of_release; of_release] start in
  let g2 := SeatService.overlap call [of_reserve; of_release; of_reserve; of_reserve] g1 in
  let g3 := SeatService.overlap call [of_reserve; of_reserve; of_reserve; of_release] g2 in
  let reservation := mkSeatReservation "concert" 3 "alice" 2000 in
  (SeatService.seat_at st "concert" 3
     = Some (mkSeat "concert" 3 held (Some "alice") (Some 1000) None) ∧
   SeatService.live_hold st 2000 "concert" 3
     = Some (mkSeatHold "concert" 3 "alice" 1000 61000)) ∧
  (SeatService.seat_at (SeatService.served f1) "concert" 3
     = Some (mkSeat "concert" 3 reserved (Some "alice") (Some 1000) (Some 2000)) ∧
   SeatService.seat_at (SeatService.served f2) "concert" 3
     = Some (mkSeat "concert" 3 available None None None) ∧
   SeatService.reserving f3 = SeatService.ReserveSettled (Ok reservation) ∧
   SeatService.releasing f3 = SeatService.ReleaseSettled (Ok ()) ∧
   SeatService.seat_at (SeatService.served f3) "concert" 3
     = Some (mkSeat "concert" 3 available None None None) ∧
   SeatService.seatReserved (SeatService.served f3) !! ("concert", 3) = Some reservation ∧
   (SeatService.holdSeat 5 3000 0 "concert" 3 "bob" 60 (SeatService.served f3)).1
     = Ok (mkSeatHold "concert" 3 "bob" 3000 63000)) ∧
  (SeatService.seat_at (SeatService.served g1) "concert" 3
     = Some (mkSeat "concert" 3 available None None None) ∧
   SeatService.seat_at (SeatService.served g2) "concert" 3
     = Some (mkSeat "concert" 3 reserved None None (Some 2000)) ∧
   SeatService.reserving g3 = SeatService.ReserveSettled (Ok reservation) ∧
   SeatService.releasing g3 = SeatService.ReleaseSettled (Ok ()) ∧
   SeatService.seat_at (SeatService.served g3) "concert" 3
     = Some (mkSeat "concert" 3 reserved None None (Some 2000))).
Proof. vm_compute. repeat split; reflexivity. Qed.

(** C1, on [SeatService]. An event with ten seats, all available; two
    calls of [holdSeat] for seat 3, by two users under their quota, whose
    awaits are served in turn. Both calls read the seat before either
    writes it, both pass the availability check, and both settle with a
    hold: the record ends with the holder that wrote last, both leases were
    written to the same key, and the seat is in both users' sets. *)
Theorem overlapping_holds_both_succeed :
  let st := (SeatService.createEvent 0 "concert" 10 "Concert" "Hall"
               SeatService.empty).2 in
  let alice := SeatService.mkHoldCall 1000 0 "concert" 3 "alice" 60 in
  let bob := SeatService.mkHoldCall 1001 0 "concert" 3 "bob" 60 in
  let p := SeatService.interleave 5 [0; 1; 0; 1; 0; 1; 0; 1; 0; 1; 0; 1]%nat
             ([(alice, SeatService.AwaitGetEvent); (bob, SeatService.AwaitGetEvent)], st) in
  p.1 = [(alice, SeatService.Settled (Ok (mkSeatHold "concert" 3 "alice" 1000 61000)));
         (bob, SeatService.Settled (Ok (mkSeatHold "concert" 3 "bob" 1001 61001)))] ∧
  SeatService.seat_at (p.2) "concert" 3
    = Some (mkSeat "concert" 3 held (Some "bob") (Some 1001) None) ∧
  SeatService.holds_of (p.2) "alice" "concert" = {[3]} ∧
  SeatService.holds_of (p.2) "bob" "concert" = {[3]}.
Proof. vm_compute. repeat split; reflexivity. Qed.

(** ** The gate of the PostgreSQL + Redis service *)

Ltac unfold_store :=
  unfold EnhancedSeatService.acquireLock, EnhancedSeatService.releaseLock,
    EnhancedSeatService.getUserHoldCount, EnhancedSeatService.set_lock_NX,
    EnhancedSeatService.del_lock, EnhancedSeatService.select_seat,
    EnhancedSeatService.update_seat, EnhancedSeatService.setEx_hold,
    EnhancedSeatService.del_hold, EnhancedSeatService.sAdd, EnhancedSeatService.sRem,
    EnhancedSeatService.sCard, EnhancedSeatService.transaction,
    EnhancedSeatService.insert_reservation, EnhancedSeatService.get_hold,
    EnhancedSeatService.setTimeout in *;
  unfold_monad.

Section Gate.

Import EnhancedSeatService.

Variable maxHoldsPerUser : Z.

(** Acquisition is a create-if-absent with a ten-second eviction: with no
    live key it stores the caller's value, otherwise it changes nothing. *)
Lemma acquireLock_spec st now e n u :
  match live_lock st now e n with
  | None =>
      acquireLock now e n u st =
      (Ok true, mkStore (seats st) (reservations st) (hold st) (user_holds st)
                        (<[(e, n) := ((u, now), now + 10000)]> (lock st)) (timers st))
  | Some _ => acquireLock now e n u st = (Ok false, st)
  end.
Proof. unfold_store. by destruct (live_lock st now e n). Qed.

(** A hold that finds the gate taken fails at once with the contention
    error: nothing is read or written, and the gate stays with its owner. *)
Lemma holdSeat_gate_busy st now lag e n u d v :
  live_lock st now e n = Some v →
  holdSeat maxHoldsPerUser now lag e n u d st = (Err LockContention, st).
Proof. intros Hl. unfold holdSeat. unfold_store. by rewrite Hl. Qed.

(** A hold that takes the gate gives it back on every exit. *)
Lemma holdSeat_gate_released st now lag e n u d :
  live_lock st now e n = None →
  lock (holdSeat maxHoldsPerUser now lag e n u d st).2 !! (e, n) = None.
Proof.
  intros Hl. unfold holdSeat. unfold_store. rewrite Hl. simpl.
  repeat case_match; simplify_eq; simpl; apply lookup_delete_eq.
Qed.

(** The release deletes the key whatever value it holds. *)
Lemma releaseLock_unconditional st e n :
  releaseLock e n st =
  (Ok (), mkStore (seats st) (reservations st) (hold st) (user_holds st)
                  (delete (e, n) (lock st)) (timers st)).
Proof. done. Qed.

(** The quota check of this service, behind the gate. *)
Lemma holdSeat_quota st now lag e n u d seat :
  live_lock st now e n = None →
  seats st !! (e, n) = Some seat →
  row_status seat = available →
  (Z.of_nat (size (holds_of st u e)) >= maxHoldsPerUser →
   (holdSeat maxHoldsPerUser now lag e n u d st).1 = Err (QuotaExceeded maxHoldsPerUser)) ∧
  (Z.of_nat (size (holds_of st u e)) <= maxHoldsPerUser - 1 →
   (holdSeat maxHoldsPerUser now lag e n u d st).1
     = Ok (mkSeatHold e n u now (now + d * 1000))).
Proof.
  intros Hl Hs Hav. unfold holdSeat. unfold_store. rewrite Hl. simpl. rewrite Hs.
  rewrite decide_False by (by intros []). unfold holds_of. simpl.
  split; intros Hc.
  - by rewrite decide_True.
  - by rewrite decide_False by lia.
Qed.

(** What a successful hold of this service has checked, and the store it
    leaves. *)
Lemma enhanced_holdSeat_ok st now lag e n u d h st' :
  holdSeat maxHoldsPerUser now lag e n u d st = (Ok h, st') →
  ∃ row,
    live_lock st now e n = None ∧
    seats st !! (e, n) = Some row ∧ row_status row = available ∧
    Z.of_nat (size (holds_of st u e)) < maxHoldsPerUser ∧
    h = mkSeatHold e n u now (now + d * 1000) ∧
    st' = mkStore
            (<[(e, n) := mkSeatRow (event_id row) (seat_number row) held (Some u)
                                   (Some now) (reserved_at row)]> (seats st))
            (reservations st)
            (<[(e, n) := (h, now + lag + d * 1000)]> (hold st))
            (<[(u, e) := {[n]} ∪ holds_of st u e]> (user_holds st))
            (delete (e, n) (lock st))
            ((now + d * 1000, (e, n)) :: timers st).
Proof.
  unfold holdSeat. unfold_store.
  destruct (live_lock st now e n) eqn:El; [done|]. simpl.
  destruct (seats st !! (e, n)) as [row|] eqn:Es; [|done].
  case_decide as Hav; [done|]. unfold holds_of. simpl.
  case_decide; [done|]. simpl. intros [= <- <-].
  exists row. split; [done|]. split; [done|].
  split; [by destruct (row_status row)|]. split; [lia|]. split; [done|].
  f_equal.
  - apply map_eq. intros k. destruct (decide (k = (e, n))) as [->|Hk].
    + by rewrite lookup_alter_eq, lookup_insert_eq, Es.
    + by rewrite lookup_alter_ne, lookup_insert_ne.
  - by rewrite delete_insert_eq.
Qed.

(** No timer fires before it is due. *)
Lemma elapse_idle now st :
  (∀ t, t ∈ timers st → now < t.1) →
  elapse now st = st.
Proof.
  unfold elapse. generalize (timers st). intros l Hl.
  induction l as [|t l IH]; [done|]. simpl.
  rewrite IH by (intros t' Ht'; apply Hl; by right).
  unfold fire. rewrite decide_False; [done|].
  intros [Hin Hdue]. specialize (Hl t). ospecialize* Hl; [by left|]. lia.
Qed.


(** X20. Release in this service: a no-op with success unless the row is
    held, an error only for an absent row. *)
Lemma enhanced_releaseSeat_idempotent st e n :
  match seats st !! (e, n) with
  | None => releaseSeat e n st = (Err SeatNotFound, st)
  | Some seat =>
      if decide (row_status seat = held)
      then ∃ st', releaseSeat e n st = (Ok (), st') ∧
                  (row_status <$> seats st' !! (e, n)) = Some available ∧
                  hold st' !! (e, n) = None
      else releaseSeat e n st = (Ok (), st)
  end.
Proof.
  unfold releaseSeat. unfold_store.
  destruct (seats st !! (e, n)) as [seat|] eqn:Es; [|by destruct st].
  case_decide; [|done]. simpl.
  destruct (user_id seat) as [u|]; [destruct (truthy (Some u))|];
    simpl; eexists; (split; [done|]); simpl;
    by rewrite ?lookup_alter_eq, ?Es, ?lookup_delete_eq.
Qed.

End Gate.

(** ** Reserve, in both services *)

Section ReserveBoth.

Variable maxHoldsPerUser : Z.

(** What [reserveSeat] of the PostgreSQL + Redis service computes, case by
    case. *)
Lemma enhanced_reserveSeat_unfold st now e n u :
  EnhancedSeatService.reserveSeat now e n u st =
  match EnhancedSeatService.live_hold st now e n with
  | None => (Err SeatNotHeld, st)
  | Some h =>
      if decide (hold_userId h ≠ u) then (Err HeldByAnotherUser, st) else
      if decide (expiresAt h < now) then
        match EnhancedSeatService.releaseSeat e n st with
        | (Ok _, st') => (Err HoldExpired, st')
        | (Err err, st') => (Err err, st')
        end
      else
        match EnhancedSeatService.reservations st !! (e, n) with
        | Some _ => (Err UniqueViolation, st)
        | None =>
            (Ok (mkSeatReservation e n u now),
             EnhancedSeatService.mkStore
               (alter (λ r, EnhancedSeatService.mkSeatRow
                              (EnhancedSeatService.event_id r)
                              (EnhancedSeatService.seat_number r) reserved
                              (EnhancedSeatService.user_id r)
                              (EnhancedSeatService.held_at r) (Some now))
                      (e, n) (EnhancedSeatService.seats st))
               (<[(e, n) := mkSeatReservation e n u now]>
                  (EnhancedSeatService.reservations st))
               (delete (e, n) (EnhancedSeatService.hold st))
               (<[(u, e) := EnhancedSeatService.holds_of st u e ∖ {[n]}]>
                  (EnhancedSeatService.user_holds st))
               (EnhancedSeatService.lock st) (EnhancedSeatService.timers st))
        end
  end.
Proof.
  unfold EnhancedSeatService.reserveSeat. unfold_store.
  destruct (EnhancedSeatService.live_hold st now e n) as [h|]; [|done].
  case_decide; [done|]. case_decide.
  - by destruct (EnhancedSeatService.releaseSeat e n st) as [[] ?].
  - cbn [EnhancedSeatService.reservations res_eventId res_seatNumber].
    destruct (EnhancedSeatService.reservations st !! (e, n)); [by destruct st|done].
Qed.

(** The release of this service fails only for an absent row. *)
Lemma enhanced_releaseSeat_outcome st e n :
  match EnhancedSeatService.seats st !! (e, n) with
  | None => EnhancedSeatService.releaseSeat e n st = (Err SeatNotFound, st)
  | Some _ => ∃ st', EnhancedSeatService.releaseSeat e n st = (Ok (), st')
  end.
Proof.
  unfold EnhancedSeatService.releaseSeat. unfold_store.
  destruct (EnhancedSeatService.seats st !! (e, n)) as [row|]; [|by destruct st].
  case_decide; [|by eexists]. simpl.
  destruct (EnhancedSeatService.user_id row) as [u'|];
    [destruct (truthy (Some u'))|]; by eexists.
Qed.

(** C3. [reserveSeat] succeeds exactly when the store shows a lease for
    the seat, the lease's holder is the caller and the lease is not past
    its [expiresAt] (and, in the Redis-only service, the seat record is
    there, which it is in every store reached by whole operations; in the
    PostgreSQL + Redis service, the seat has no reservation row yet). On
    success the seat becomes reserved with reserved-at set to the instant of
    the call, the lease is deleted, the seat leaves the caller's set and
    the reservation record is written. Every failure of the Redis-only
    service is one of the four errors of the operation, each under its own
    condition, and so is every failure of the other service on a seat
    without a reservation row. *)
Theorem reserveSeat_iff_live_hold :
  (∀ st now e n u,
     let r := SeatService.reserveSeat now e n u st in
     let lease := ∃ h, SeatService.live_hold st now e n = Some h ∧
                       hold_userId h = u ∧ ¬ expiresAt h < now in
     (is_ok (r.1) = true ↔ lease ∧ is_Some (SeatService.seat_at st e n)) ∧
     (SeatService.reachable maxHoldsPerUser st → (is_ok (r.1) = true ↔ lease)) ∧
     (∀ res, r.1 = Ok res →
        res = mkSeatReservation e n u now ∧
        (∃ seat, SeatService.seat_at st e n = Some seat ∧
                 SeatService.seat_at (r.2) e n
                   = Some (SeatService.reserved_seat now seat)) ∧
        SeatService.seatHold (r.2) !! (e, n) = None ∧
        (n ∉ SeatService.holds_of (r.2) u e) ∧
        SeatService.seatReserved (r.2) !! (e, n) = Some res) ∧
     (∀ err, r.1 = Err err →
        err ∈ [SeatNotFound; SeatNotHeld; HeldByAnotherUser; HoldExpired] ∧
        match err with
        | SeatNotHeld => SeatService.live_hold st now e n = None ∧ r.2 = st
        | HeldByAnotherUser =>
            (∃ h, SeatService.live_hold st now e n = Some h ∧ hold_userId h ≠ u) ∧
            r.2 = st
        | HoldExpired =>
            (∃ h, SeatService.live_hold st now e n = Some h ∧ hold_userId h = u ∧
                  expiresAt h < now) ∧
            r.2 = (SeatService.releaseSeat e n st).2
        | SeatNotFound =>
            SeatService.seat_at st e n = None ∧ r.2 = st ∧
            ¬ SeatService.reachable maxHoldsPerUser st
        | _ => False
        end)) ∧
  (∀ st now e n u,
     let r := EnhancedSeatService.reserveSeat now e n u st in
     let lease := ∃ h, EnhancedSeatService.live_hold st now e n = Some h ∧
                       hold_userId h = u ∧ ¬ expiresAt h < now in
     (is_ok (r.1) = true ↔
      lease ∧ EnhancedSeatService.reservations st !! (e, n) = None) ∧
     (∀ res, r.1 = Ok res →
        res = mkSeatReservation e n u now ∧
        EnhancedSeatService.seats (r.2) !! (e, n)
          = (λ row, EnhancedSeatService.mkSeatRow
                      (EnhancedSeatService.event_id row)
                      (EnhancedSeatService.seat_number row) reserved
                      (EnhancedSeatService.user_id row)
                      (EnhancedSeatService.held_at row) (Some now))
            <$> EnhancedSeatService.seats st !! (e, n) ∧
        EnhancedSeatService.hold (r.2) !! (e, n) = None ∧
        (n ∉ EnhancedSeatService.holds_of (r.2) u e) ∧
        EnhancedSeatService.reservations (r.2) !! (e, n) = Some res) ∧
     (∀ err, r.1 = Err err →
        (EnhancedSeatService.reservations st !! (e, n) = None →
         err ∈ [SeatNotFound; SeatNotHeld; HeldByAnotherUser; HoldExpired]) ∧
        match err with
        | SeatNotHeld => EnhancedSeatService.live_hold st now e n = None ∧ r.2 = st
        | HeldByAnotherUser =>
            (∃ h, EnhancedSeatService.live_hold st now e n = Some h ∧
                  hold_userId h ≠ u) ∧
            r.2 = st
        | HoldExpired =>
            (∃ h, EnhancedSeatService.live_hold st now e n = Some h ∧
                  hold_userId h = u ∧ expiresAt h < now) ∧
            is_Some (EnhancedSeatService.seats st !! (e, n)) ∧
            r.2 = (EnhancedSeatService.releaseSeat e n st).2
        | SeatNotFound =>
            (∃ h, EnhancedSeatService.live_hold st now e n = Some h ∧
                  hold_userId h = u ∧ expiresAt h < now) ∧
            EnhancedSeatService.seats st !! (e, n) = None ∧ r.2 = st
        | UniqueViolation =>
            lease ∧ is_Some (EnhancedSeatService.reservations st !! (e, n)) ∧ r.2 = st
        | _ => False
        end)).
Proof.
  split.
  - intros st now e n u r lease.
    assert (Hcases := reserveSeat_cases st now e n u).
    assert (Hback : SeatService.reachable maxHoldsPerUser st → lease →
                    is_Some (SeatService.seat_at st e n)).
    { intros Hc%reachable_consistent (h & Hlive & _).
      destruct (live_hold_backed _ _ _ _ _ Hc Hlive) as (seat & -> & _). eauto. }
    destruct (SeatService.live_hold st now e n) as [h|] eqn:Elive.
    + destruct (decide (hold_userId h = u)) as [Hu|Hu].
      * rewrite decide_False in Hcases by (by intros []).
        destruct (decide (expiresAt h < now)) as [Hexp|Hexp].
        -- assert (Hno : ¬ lease) by (intros (h' & [= <-] & _ & ?); done).
           destruct (SeatService.seat_at st e n) as [seat|] eqn:Es;
             subst r; rewrite Hcases; cbn [fst snd].
           ++ split; [naive_solver|]. split; [naive_solver|]. split; [done|].
              intros err [= <-]. split; [set_solver|]. eauto.
           ++ split; [naive_solver|]. split; [naive_solver|]. split; [done|].
              intros err [= <-]. split; [set_solver|]. split; [done|]. split; [done|].
              intros Hc%reachable_consistent.
              destruct (live_hold_backed _ _ _ _ _ Hc Elive) as (seat & ? & _).
              congruence.
        -- assert (Hyes : lease) by (by exists h).
           destruct (SeatService.seat_at st e n) as [seat|] eqn:Es.
           ++ destruct (reserveSeat_writes st now e n u h seat)
                as (st' & Hr & _ & Hseat & Hhold & Hres & Hset); try done.
              subst r. rewrite Hr. cbn [fst snd].
              split; [naive_solver|]. split; [naive_solver|]. split; [|done].
              intros res [= <-]. split; [done|]. repeat split.
              ** exists seat. by rewrite Hseat, decide_True.
              ** rewrite Hhold. apply lookup_delete_eq.
              ** rewrite Hset. set_solver.
              ** rewrite Hres. apply lookup_insert_eq.
           ++ subst r. rewrite Hcases. cbn [fst snd].
              split; [split; [done|intros [_ []]; done]|].
              split; [intros Hr; specialize (Hback Hr Hyes) as []; done|].
              split; [done|].
              intros err [= <-]. split; [set_solver|]. split; [done|]. split; [done|].
              intros Hr. specialize (Hback Hr Hyes) as []. done.
      * rewrite decide_True in Hcases by done.
        assert (Hno : ¬ lease) by (intros (h' & [= <-] & ? & _); done).
        subst r. rewrite Hcases. cbn [fst snd].
        split; [naive_solver|]. split; [naive_solver|]. split; [done|].
        intros err [= <-]. split; [set_solver|]. eauto.
    + assert (Hno : ¬ lease) by (intros (h' & [=] & _)).
      subst r. rewrite Hcases. cbn [fst snd].
      split; [naive_solver|]. split; [naive_solver|]. split; [done|].
      intros err [= <-]. split; [set_solver|]. done.
  - intros st now e n u r lease. subst r.
    rewrite enhanced_reserveSeat_unfold.
    destruct (EnhancedSeatService.live_hold st now e n) as [h|] eqn:Elive.
    + destruct (decide (hold_userId h = u)) as [Hu|Hu].
      * rewrite decide_False by (by intros []).
        destruct (decide (expiresAt h < now)) as [Hexp|Hexp].
        -- assert (Hno : ¬ lease) by (intros (h' & [= <-] & _ & ?); done).
           pose proof (enhanced_releaseSeat_outcome st e n) as Hrel.
           destruct (EnhancedSeatService.seats st !! (e, n)) as [row|] eqn:Es.
           ++ destruct Hrel as [st2 Hrel]. rewrite Hrel. cbn [fst snd].
              split; [naive_solver|]. split; [done|].
              intros err [= <-]. split; [set_solver|].
              split; [eauto|]. split; [eauto|done].
           ++ rewrite Hrel. cbn [fst snd]. split; [naive_solver|]. split; [done|].
              intros err [= <-]. split; [set_solver|].
              split; [eauto|]. by split.
        -- assert (Hyes : lease) by (by exists h).
           destruct (EnhancedSeatService.reservations st !! (e, n)) as [r0|] eqn:Er;
             cbn [fst snd].
           ++ split; [naive_solver|]. split; [done|].
              intros err [= <-]. split; [done|]. eauto.
           ++ split; [naive_solver|]. split; [|done].
              intros res [= <-]. split; [done|].
              cbn [EnhancedSeatService.seats EnhancedSeatService.hold
                   EnhancedSeatService.reservations].
              rewrite lookup_alter_eq, lookup_delete_eq, lookup_insert_eq.
              repeat split.
              unfold EnhancedSeatService.holds_of at 1.
              cbn [EnhancedSeatService.user_holds]. rewrite lookup_insert_eq. simpl.
              set_solver.
      * rewrite decide_True by done.
        assert (Hno : ¬ lease) by (intros (h' & [= <-] & ? & _); done).
        cbn [fst snd]. split; [naive_solver|]. split; [done|].
        intros err [= <-]. split; [set_solver|]. eauto.
    + assert (Hno : ¬ lease) by (intros (h' & [=] & _)).
      cbn [fst snd]. split; [naive_solver|]. split; [done|].
      intros err [= <-]. split; [set_solver|]. done.
Qed.

End ReserveBoth.

(** C7, at the release. Alice's hold takes the gate of seat 3 at instant
    0 and its critical section runs for more than ten seconds. At instant
    10000 the key is still there and a hold by Bob is refused; the key is
    evicted after that, and at instant 10001 Bob's hold takes the gate with
    his own value. The [finally] of Alice's call then deletes the key: the
    value stored is Bob's, not hers, and the release goes through all the
    same, so that a third hold enters while Bob's is still in its critical
    section. *)
Theorem gate_release_ignores_token :
  let st0 := EnhancedSeatService.mkStore
               {[ ("concert", 3) :=
                    EnhancedSeatService.mkSeatRow "concert" 3 available None None None ]}
               ∅ ∅ ∅ ∅ [] in
  let st1 := (EnhancedSeatService.acquireLock 0 "concert" 3 "alice" st0).2 in
  let st2 := (EnhancedSeatService.acquireLock 10001 "concert" 3 "bob" st1).2 in
  let st3 := (EnhancedSeatService.releaseLock "concert" 3 st2).2 in
  (EnhancedSeatService.acquireLock 0 "concert" 3 "alice" st0).1 = Ok true ∧
  EnhancedSeatService.live_lock st1 10000 "concert" 3 = Some ("alice", 0) ∧
  EnhancedSeatService.acquireLock 10000 "concert" 3 "bob" st1 = (Ok false, st1) ∧
  (EnhancedSeatService.acquireLock 10001 "concert" 3 "bob" st1).1 = Ok true ∧
  EnhancedSeatService.live_lock st2 10002 "concert" 3 = Some ("bob", 10001) ∧
  EnhancedSeatService.live_lock st3 10002 "concert" 3 = None ∧
  (EnhancedSeatService.acquireLock 10002 "concert" 3 "carol" st3).1 = Ok true.
Proof. vm_compute. repeat split; reflexivity. Qed.

(** ** The properties at work on an event with ten seats *)

Section Instances.

Import SeatService Examples.

Lemma store_reachable ops : reachable quota (store ops).
Proof. by exists ops. Qed.

(** Counterexample to C4 as stated: seat 3 is held and its lease, which
    expired at instant 61000, has been evicted; at 61001 [reserveSeat] and
    [refreshSeatHold] fail with the not-held error and leave the seat held:
    no release takes place. *)
Lemma reserve_leaves_expired_hold :
  seat_at (store seat3_held) "concert" 3
    = Some (mkSeat "concert" 3 held (Some "alice") (Some 1000) None) ∧
  live_hold (store seat3_held) 61000 "concert" 3
    = Some (mkSeatHold "concert" 3 "alice" 1000 61000) ∧
  live_hold (store seat3_held) 61001 "concert" 3 = None ∧
  reserveSeat 61001 "concert" 3 "alice" (store seat3_held)
    = (Err SeatNotHeld, store seat3_held) ∧
  refreshSeatHold 61001 0 "concert" 3 "alice" 60 (store seat3_held)
    = (Err SeatNotHeld, store seat3_held) ∧
  (status <$> seat_at (reserveSeat 61001 "concert" 3 "alice" (store seat3_held)).2
                      "concert" 3) = Some held.
Proof. vm_compute. repeat split; reflexivity. Qed.

(** Counterexample to C5 as stated: after hold and reserve the record of
    seat 3 is reserved and carries both timestamps. *)
Lemma reserved_seat_keeps_heldAt :
  reachable quota (store seat3_reserved) ∧
  seat_at (store seat3_reserved) "concert" 3
    = Some (mkSeat "concert" 3 reserved (Some "alice") (Some 1000) (Some 2000)) ∧
  ¬ timestamps_exclusive (mkSeat "concert" 3 reserved (Some "alice") (Some 1000) (Some 2000)).
Proof.
  split; [apply store_reachable|]. split; [by vm_compute|].
  intros (_ & _ & Hboth). apply Hboth. simpl. eauto.
Qed.

Lemma quota_boundary_exact_witness :
  (∃ h st', holdSeat quota 1000 0 "concert" 5 "alice" 60 (store four_held) = (Ok h, st') ∧
            holds_of st' "alice" "concert"
              = {[5]} ∪ holds_of (store four_held) "alice" "concert") ∧
  holdSeat quota 1000 0 "concert" 6 "alice" 60 (store five_held)
    = (Err (QuotaExceeded quota), store five_held).
Proof.
  split.
  - apply (quota_boundary_exact quota (store four_held) 1000 0 "concert" 5 "alice" 60).
    + by vm_compute.
    + eexists _, _. by vm_compute.
  - apply (quota_boundary_exact quota (store five_held) 1000 0 "concert" 6 "alice" 60).
    + by vm_compute.
    + eexists _, _. by vm_compute.
Defined.

Lemma holdSeat_atomic_on_error_witness :
  store seat3_held = store seat3_held ∧
  ∃ seat, seat_at (store seat3_held) "concert" 3 = Some seat ∧ status seat ≠ available.
Proof.
  apply (holdSeat_atomic_on_error quota (store seat3_held) 1500 0 "concert" 3 "bob" 60
           SeatNotAvailable (store seat3_held)).
  by vm_compute.
Defined.

Lemma reserveSeat_iff_live_hold_witness :
  (is_ok (reserveSeat 2000 "concert" 3 "alice" (store seat3_held)).1 = true ↔
   ∃ h, live_hold (store seat3_held) 2000 "concert" 3 = Some h ∧
        hold_userId h = "alice" ∧ ¬ expiresAt h < 2000) ∧
  (reserveSeat 61003 "concert" 3 "alice" (store seat3_held_late)).2
    = (releaseSeat "concert" 3 (store seat3_held_late)).2 ∧
  (is_ok (EnhancedSeatService.reserveSeat 2000 "concert" 3 "alice" gated_held).1 = true ↔
   (∃ h, EnhancedSeatService.live_hold gated_held 2000 "concert" 3 = Some h ∧
         hold_userId h = "alice" ∧ ¬ expiresAt h < 2000) ∧
   EnhancedSeatService.reservations gated_held !! ("concert", 3) = None).
Proof.
  split; [|split].
  - apply (proj1 (reserveSeat_iff_live_hold quota) (store seat3_held) 2000 "concert" 3
             "alice").
    apply store_reachable.
  - apply (proj2 (proj2 (proj2 (proj1 (reserveSeat_iff_live_hold quota)
             (store seat3_held_late) 61003 "concert" 3 "alice"))) HoldExpired).
    by vm_compute.
  - apply (proj2 (reserveSeat_iff_live_hold quota) gated_held 2000 "concert" 3 "alice").
Defined.

Lemma releaseSeat_idempotent_witness :
  releaseSeat "concert" 7 (store seat3_held) = (Ok (), store seat3_held).
Proof.
  apply (proj1 (proj2 (releaseSeat_idempotent (store seat3_held) "concert" 7))
           (mkSeat "concert" 7 available None None None)).
  - by vm_compute.
  - by vm_compute.
Defined.

Lemma lifecycle_monotone_witness :
  seat_at (run quota [ReleaseSeat "concert" 3; HoldSeat 3000 0 "concert" 3 "bob" 60]
             (store seat3_reserved)) "concert" 3
  = Some (mkSeat "concert" 3 reserved (Some "alice") (Some 1000) (Some 2000)).
Proof.
  apply (proj1 (lifecycle_monotone quota (store seat3_reserved)
                  (store_reachable seat3_reserved))).
  - by vm_compute.
  - by vm_compute.
Defined.

Lemma seat_fields_follow_status_witness :
  fields_match (mkSeat "concert" 3 reserved (Some "alice") (Some 1000) (Some 2000)) ∧
  ∃ now h,
    ReserveSeat 2000 "concert" 3 "alice" = ReserveSeat now "concert" 3 (hold_userId h) ∧
    live_hold (store seat3_held) now "concert" 3 = Some h ∧
    mkSeat "concert" 3 reserved (Some "alice") (Some 1000) (Some 2000)
      = mkSeat "concert" 3 reserved (Some (hold_userId h)) (Some (hold_heldAt h))
               (Some now).
Proof.
  split.
  - apply (proj1 (seat_fields_follow_status quota (store seat3_reserved)
                    (store_reachable seat3_reserved)) "concert" 3).
    by vm_compute.
  - destruct (proj1 (proj2 (proj2 (seat_fields_follow_status quota (store seat3_held)
                (store_reachable seat3_held))))
              (ReserveSeat 2000 "concert" 3 "alice") "concert" 3
              (mkSeat "concert" 3 held (Some "alice") (Some 1000) None)
              (mkSeat "concert" 3 reserved (Some "alice") (Some 1000) (Some 2000)))
      as (now & h & Hop & Hlive & _ & _ & _ & Hs');
      [by vm_compute|done|by vm_compute|done|].
    by exists now, h.
Defined.

Lemma getAvailableSeats_exact_witness :
  ∃ l st', getAvailableSeats 61000 "concert" (store seat3_held) = (Ok l, st') ∧
           Sorted Z.lt l.
Proof.
  destruct (getAvailableSeats_exact (store seat3_held) 61000 "concert"
              (mkEvent "concert" "Concert" "Hall" 10 0 active))
    as (l & st' & Hrun & Hsorted & _).
  - by vm_compute.
  - by exists l, st'.
Defined.

Lemma lazy_reconciliation_witness :
  (∃ st', getSeatStatus 61001 "concert" 3 (store seat3_held)
            = (Ok (mkSeat "concert" 3 available None None None), st')) ∧
  (∃ st', seat_at st' "concert" 3 = Some (mkSeat "concert" 3 available None None None) ∧
          reserveSeat 61003 "concert" 3 "alice" (store seat3_held_late)
            = (Err HoldExpired, st')) ∧
  (∃ seat st', getSeatStatus 61006 "concert" 3 (store seat3_held_late)
                 = (Ok seat, st') ∧ status seat = available) ∧
  (∃ seat, getSeatStatus 61003 "concert" 3 (store seat3_held_late)
             = (Ok seat, store seat3_held_late) ∧ status seat = held).
Proof.
  split; [|split; [|split]].
  - destruct (proj1 (lazy_reconciliation quota) (store seat3_held) 61001 "concert" 3
                (mkSeat "concert" 3 held (Some "alice") (Some 1000) None))
      as [(st' & Hget & _) _]; [by vm_compute..|].
    by exists st'.
  - destruct (proj1 (proj2 (lazy_reconciliation quota)) (store seat3_held_late) 61003 0
                "concert" 3 "alice" 60
                (mkSeat "concert" 3 held (Some "alice") (Some 1000) None)
                (mkSeatHold "concert" 3 "alice" 1000 61000))
      as (st' & _ & Hs & Hres & _); [by vm_compute..|].
    by exists st'.
  - apply (proj2 (proj2 (proj2 (lazy_reconciliation quota)))
             (store opened) 1000 5 "concert" 3 "alice" 60
             (mkSeatHold "concert" 3 "alice" 1000 61000) (store seat3_held_late) 61006);
      [by vm_compute|by vm_compute].
  - apply (proj2 (proj2 (proj2 (lazy_reconciliation quota)))
             (store opened) 1000 5 "concert" 3 "alice" 60
             (mkSeatHold "concert" 3 "alice" 1000 61000) (store seat3_held_late) 61003);
      [by vm_compute|by vm_compute].
Defined.

End Instances.

(** * Further properties of the services *)

(** ** What an operation writes *)

Section Effects.

Import SeatService.

Variable maxHoldsPerUser : Z.

Lemma fst_pairing {A} (f : Z → A) (l : list Z) :
  ((λ n, (n, f n)) <$> l).*1 = l.
Proof. induction l as [|x l IH]; [done|]. rewrite !fmap_cons. by f_equal. Qed.

Lemma initialSeats_lookup_iff e total n :
  initialSeats e total !! n =
  if decide (1 ≤ n ≤ total) then Some (mkSeat e n available None None None) else None.
Proof.
  unfold initialSeats. case_decide as Hn.
  - apply elem_of_list_to_map.
    + rewrite fst_pairing. apply NoDup_seqZ.
    + apply list_elem_of_fmap. exists n. split; [done|]. apply elem_of_seqZ. lia.
  - apply not_elem_of_list_to_map. rewrite fst_pairing, elem_of_seqZ. lia.
Qed.

(** A successful [createEvent], observation by observation. *)
Lemma createEvent_effect st now e total nm descr :
  consistent st →
  let st' := (createEvent now e total nm descr st).2 in
  st' = st ∨
  (10 ≤ total ≤ 1000 ∧ event st !! e = None ∧
   createEvent now e total nm descr st = (Ok (mkEvent e nm descr total now active), st') ∧
   event st' = <[e := mkEvent e nm descr total now active]> (event st) ∧
   (∀ e' n', seat_at st' e' n' =
      if decide (e = e') then initialSeats e total !! n' else seat_at st e' n') ∧
   seatHold st' = seatHold st ∧
   seatReserved st' = seatReserved st ∧
   (∀ u' e', holds_of st' u' e' = holds_of st u' e')).
Proof.
  intros [Hev _ _]. cbn zeta. rewrite createEvent_unfold.
  case_decide; [by left|].
  destruct (event st !! e) eqn:Eev; [by left|].
  right. cbn zeta. cbn [snd]. split; [lia|]. split; [done|]. split; [done|].
  repeat split; intros *; store_simpl; try done.
  case_decide; [|done]. subst.
  rewrite lookup_union_l; [done|].
  destruct (seats_of st e' !! n') eqn:Es; [|done].
  apply Hev in Es as [? ?]. congruence.
Qed.

(** A successful [holdSeat], observation by observation. *)
Lemma holdSeat_effect st now lag e n u d :
  let st' := (holdSeat maxHoldsPerUser now lag e n u d st).2 in
  st' = st ∨
  ∃ seat,
    seat_at st e n = Some seat ∧ status seat = available ∧
    Z.of_nat (size (holds_of st u e)) < maxHoldsPerUser ∧
    holdSeat maxHoldsPerUser now lag e n u d st
      = (Ok (mkSeatHold e n u now (now + d * 1000)), st') ∧
    event st' = event st ∧
    (∀ e' n', seat_at st' e' n' =
       if decide ((e, n) = (e', n'))
       then Some (mkSeat (eventId seat) (seatNumber seat) held (Some u) (Some now)
                         (reservedAt seat))
       else seat_at st e' n') ∧
    seatHold st'
      = <[(e, n) := (mkSeatHold e n u now (now + d * 1000), now + lag + d * 1000)]>
          (seatHold st) ∧
    seatReserved st' = seatReserved st ∧
    (∀ u' e', holds_of st' u' e' =
       if decide ((u, e) = (u', e')) then {[n]} ∪ holds_of st u' e'
       else holds_of st u' e').
Proof.
  cbn zeta. rewrite holdSeat_unfold.
  destruct (event st !! e) as [ev|] eqn:Eev; [|by left].
  case_decide; [by left|].
  destruct (seat_at st e n) as [seat|] eqn:Es; [|by left].
  case_decide as Hav; [by left|].
  case_decide; [by left|].
  right. exists seat. cbn zeta. cbn [snd].
  split; [done|]. split; [by destruct (status seat)|]. split; [lia|].
  repeat split; intros *; store_simpl; done.
Qed.

(** What [reserveSeat] leaves: the store as it was, the store after a
    release (the lease was past its [expiresAt]), or the reservation. *)
Lemma reserveSeat_effect st now e n u :
  consistent st →
  let st' := (reserveSeat now e n u st).2 in
  st' = st ∨
  st' = (releaseSeat e n st).2 ∨
  ∃ seat h,
    live_hold st now e n = Some h ∧ hold_userId h = u ∧
    seat_at st e n = Some seat ∧ status seat = held ∧ userId seat = Some u ∧
    reserveSeat now e n u st = (Ok (mkSeatReservation e n u now), st') ∧
    event st' = event st ∧
    (∀ e' n', seat_at st' e' n' =
       if decide ((e, n) = (e', n')) then Some (reserved_seat now seat)
       else seat_at st e' n') ∧
    seatHold st' = delete (e, n) (seatHold st) ∧
    seatReserved st' = <[(e, n) := mkSeatReservation e n u now]> (seatReserved st) ∧
    (∀ u' e', holds_of st' u' e' =
       if decide ((u, e) = (u', e')) then holds_of st u' e' ∖ {[n]}
       else holds_of st u' e').
Proof.
  intros Hc. cbn zeta.
  destruct (live_hold st now e n) as [h|] eqn:Elive;
    [|left; by rewrite reserveSeat_unfold, Elive].
  destruct (decide (hold_userId h = u)) as [Hu|Hu];
    [|left; by rewrite reserveSeat_unfold, Elive, decide_True].
  destruct (decide (expiresAt h < now)) as [Hexp|Hexp].
  { right. left. rewrite reserveSeat_unfold, Elive.
    rewrite (decide_False (P := hold_userId h ≠ u)) by naive_solver.
    rewrite decide_True by done. by destruct (releaseSeat e n st) as [[] ?]. }
  destruct (live_hold_backed _ _ _ _ _ Hc Elive) as (seat & Hs & Hheld & Hus & _).
  right. right. exists seat, h.
  rewrite reserveSeat_unfold, Elive, Hs.
  rewrite (decide_False (P := hold_userId h ≠ u)) by naive_solver.
  rewrite (decide_False (P := expiresAt h < now)) by done.
  cbn zeta. cbn [snd].
  repeat split; try done; try congruence; intros *; store_simpl; try done.
Qed.

(** What [refreshSeatHold] leaves: the store as it was, the store after a
    release, or the lease rewritten with its new expiry. *)
Lemma refreshSeatHold_effect st now lag e n u d :
  let st' := (refreshSeatHold now lag e n u d st).2 in
  st' = st ∨
  st' = (releaseSeat e n st).2 ∨
  ∃ h,
    live_hold st now e n = Some h ∧ hold_userId h = u ∧ ¬ expiresAt h < now ∧
    refreshSeatHold now lag e n u d st
      = (Ok (mkSeatHold (hold_eventId h) (hold_seatNumber h) (hold_userId h)
                        (hold_heldAt h) (now + d * 1000)), st') ∧
    event st' = event st ∧
    (∀ e' n', seat_at st' e' n' = seat_at st e' n') ∧
    seatHold st'
      = <[(e, n) := (mkSeatHold (hold_eventId h) (hold_seatNumber h) (hold_userId h)
                                (hold_heldAt h) (now + d * 1000), now + lag + d * 1000)]>
          (seatHold st) ∧
    seatReserved st' = seatReserved st ∧
    (∀ u' e', holds_of st' u' e' = holds_of st u' e').
Proof.
  cbn zeta. rewrite refreshSeatHold_unfold.
  destruct (live_hold st now e n) as [h|] eqn:Elive; [|by left].
  case_decide as Hu; [by left|].
  case_decide as Hexp.
  - right. left. by destruct (releaseSeat e n st) as [[] ?].
  - right. right. exists h. cbn zeta. cbn [snd].
    split; [done|]. split; [by destruct (decide (hold_userId h = u))|].
    repeat split; try done.
Qed.

(** What [getSeatStatus] leaves: the store as it was or after a release. *)
Lemma getSeatStatus_effect st now e n :
  (getSeatStatus now e n st).2 = st ∨
  (getSeatStatus now e n st).2 = (releaseSeat e n st).2.
Proof.
  rewrite getSeatStatus_unfold.
  destruct (seat_at st e n) as [seat|]; [|by left].
  case_decide; [|by left].
  destruct (live_hold st now e n); [by left|].
  right. by destruct (releaseSeat e n st) as [[] ?].
Qed.

(** A property that [releaseSeat] keeps is kept by the loop of
    [getAvailableSeats]. *)
Lemma collectAvailable_keeps (P : Redis → Prop) now e entries st :
  (∀ st n, P st → P (releaseSeat e n st).2) →
  P st → P (collectAvailable now e entries st).2.
Proof.
  intros Hrel. revert st. induction entries as [|[n seat] rest IH]; intros st HP; [done|].
  simpl. destruct (status seat).
  - unfold_monad. specialize (IH st HP).
    destruct (collectAvailable now e rest st) as [[] ?]; done.
  - unfold get_hold. unfold_monad.
    destruct (live_hold st now e n); [by apply IH|].
    pose proof (Hrel st n HP) as Hr.
    destruct (releaseSeat e n st) as [[] st1]; [|done].
    specialize (IH st1 Hr).
    destruct (collectAvailable now e rest st1) as [[] ?]; done.
  - by apply IH.
Qed.

(** A property kept by the five writing operations is kept by every
    operation, hence holds of every reachable store once it holds of the
    empty one. *)
Lemma exec_keeps (P : Redis → Prop) :
  (∀ st now e total nm descr, P st → P (createEvent now e total nm descr st).2) →
  (∀ st now lag e n u d, P st → P (holdSeat maxHoldsPerUser now lag e n u d st).2) →
  (∀ st now e n u, P st → P (reserveSeat now e n u st).2) →
  (∀ st e n, P st → P (releaseSeat e n st).2) →
  (∀ st now lag e n u d, P st → P (refreshSeatHold now lag e n u d st).2) →
  ∀ op st, P st → P (exec maxHoldsPerUser op st).
Proof.
  intros Hcreate Hhold Hreserve Hrelease Hrefresh op st HP.
  destruct op as [now e total nm descr|now lag e n u d|now e n u|e n
                 |now lag e n u d|now e|now e n]; simpl; auto.
  - unfold getAvailableSeats, getEvent, get_event, hGetAll. unfold_monad.
    destruct (event st !! e); [|done].
    pose proof (collectAvailable_keeps P now e (map_to_list (seats_of st e)) st) as Hk.
    destruct (collectAvailable now e _ st) as [[] ?]; apply Hk; auto.
  - destruct (getSeatStatus_effect st now e n) as [-> | ->]; auto.
Qed.

Lemma reachable_keeps (P : Redis → Prop) :
  P empty →
  (∀ op st, P st → P (exec maxHoldsPerUser op st)) →
  ∀ st, reachable maxHoldsPerUser st → P st.
Proof.
  intros Hempty Hexec st [ops ->]. unfold run.
  induction ops as [|op ops IH] using rev_ind; [done|].
  rewrite foldl_app. simpl. by apply Hexec.
Qed.

End Effects.

(** ** The layout of a reachable store *)

Section Layout.

Import SeatService.

Variable maxHoldsPerUser : Z.

Lemma releaseSeat_effect st e n :
  let st' := (releaseSeat e n st).2 in
  st' = st ∨
  ∃ seat,
    seat_at st e n = Some seat ∧ status seat = held ∧
    event st' = event st ∧
    (∀ e' n', seat_at st' e' n' =
       if decide ((e, n) = (e', n')) then Some (released_seat seat)
       else seat_at st e' n') ∧
    seatHold st' = delete (e, n) (seatHold st) ∧
    seatReserved st' = seatReserved st ∧
    (∀ u' e', holds_of st' u' e' =
       if decide (truthy (userId seat) = true ∧ (userId seat, e) = (Some u', e'))
       then holds_of st u' e' ∖ {[n]} else holds_of st u' e').
Proof.
  cbn zeta. destruct (seat_at st e n) as [seat|] eqn:Es.
  - destruct (decide (status seat = held)) as [Hheld|Hheld].
    + right. exists seat.
      destruct (releaseSeat_held st e n seat Es Hheld) as (st' & -> & Heff). done.
    + left. by rewrite (releaseSeat_not_held st e n seat).
  - left. by rewrite releaseSeat_unfold, Es.
Qed.

Lemma laid_out_empty : laid_out empty.
Proof. split; intros *; unfold seat_at, seats_of; simpl; by rewrite ?lookup_empty. Qed.

(** Rewriting the record of an existing seat without touching its key
    fields keeps the layout. *)
Lemma laid_out_rewrite st st' e n seat seat' :
  laid_out st →
  seat_at st e n = Some seat →
  eventId seat' = eventId seat → seatNumber seat' = seatNumber seat →
  event st' = event st →
  (∀ e' n', seat_at st' e' n' =
     if decide ((e, n) = (e', n')) then Some seat' else seat_at st e' n') →
  laid_out st'.
Proof.
  intros [Hev Hkey Hnum] Hs He Hn Hevent Hseat. split.
  - intros e' ev. rewrite Hevent. apply Hev.
  - intros e' n' s. rewrite Hseat. case_decide as Hk; [|apply Hkey].
    intros [= <-]. simplify_eq. rewrite He, Hn. by apply Hkey.
  - intros e' ev n'. rewrite Hevent, Hseat. intros Hlook.
    case_decide as Hk; [|by apply Hnum].
    simplify_eq. rewrite <- (Hnum _ _ _ Hlook). rewrite Hs. split; eauto.
Qed.

Lemma releaseSeat_laid_out st e n :
  laid_out st → laid_out (releaseSeat e n st).2.
Proof.
  intros Hl. destruct (releaseSeat_effect st e n) as [->|(seat & Hs & _ & Hev & Hseat & _)];
    [done|].
  by refine (laid_out_rewrite st _ e n seat _ Hl Hs _ _ Hev Hseat).
Qed.

Lemma exec_laid_out op st :
  consistent st ∧ laid_out st →
  consistent (exec maxHoldsPerUser op st) ∧ laid_out (exec maxHoldsPerUser op st).
Proof.
  revert op st.
  apply (exec_keeps maxHoldsPerUser (λ st, consistent st ∧ laid_out st)).
  - intros st now e total nm descr [Hc Hl].
    split; [by apply createEvent_consistent|].
    destruct (createEvent_effect st now e total nm descr Hc)
      as [->|(Htot & Hnone & _ & Hev & Hseat & _)]; [done|].
    destruct Hl as [Hkev Hkey Hnum]. split.
    + intros e' ev. rewrite Hev.
      destruct (decide (e = e')) as [<-|Hne].
      * rewrite lookup_insert_eq. intros [= <-]. done.
      * rewrite lookup_insert_ne by done. apply Hkev.
    + intros e' n' s. rewrite Hseat. case_decide; [|apply Hkey]. subst.
      rewrite initialSeats_lookup_iff. case_decide; [|done]. by intros [= <-].
    + intros e' ev n'. rewrite Hev, Hseat.
      destruct (decide (e = e')) as [<-|Hne].
      * rewrite lookup_insert_eq. intros [= <-]. simpl.
        rewrite initialSeats_lookup_iff.
        case_decide as Hr; split; intros Hx; try done; try (by eauto); by destruct Hx.
      * rewrite lookup_insert_ne by done. apply Hnum.
  - intros st now lag e n u d [Hc Hl].
    split; [by apply holdSeat_consistent|].
    destruct (holdSeat_effect maxHoldsPerUser st now lag e n u d)
      as [->|(seat & Hs & _ & _ & _ & Hev & Hseat & _)]; [done|].
    by refine (laid_out_rewrite st _ e n seat _ Hl Hs _ _ Hev Hseat).
  - intros st now e n u [Hc Hl].
    split; [by apply reserveSeat_consistent|].
    destruct (reserveSeat_effect st now e n u Hc)
      as [->|[->|(seat & h & _ & _ & Hs & _ & _ & _ & Hev & Hseat & _)]]; [done| |].
    + by apply releaseSeat_laid_out.
    + by refine (laid_out_rewrite st _ e n seat _ Hl Hs _ _ Hev Hseat).
  - intros st e n [Hc Hl].
    split; [by apply releaseSeat_consistent|by apply releaseSeat_laid_out].
  - intros st now lag e n u d [Hc Hl].
    split; [by apply refreshSeatHold_consistent|].
    destruct (refreshSeatHold_effect st now lag e n u d)
      as [->|[->|(h & _ & _ & _ & _ & Hev & Hseat & _)]]; [done| |].
    + by apply releaseSeat_laid_out.
    + destruct Hl as [Hkev Hkey Hnum]. split; intros *; rewrite ?Hev, ?Hseat; eauto.
Qed.

Lemma reachable_laid_out st :
  reachable maxHoldsPerUser st → consistent st ∧ laid_out st.
Proof.
  apply (reachable_keeps maxHoldsPerUser (λ st, consistent st ∧ laid_out st)).
  - split; [apply consistent_empty|apply laid_out_empty].
  - apply exec_laid_out.
Qed.

End Layout.

(** ** The holders' sets and the reservation records *)

Section Accounting.

Import SeatService.

Variable maxHoldsPerUser : Z.

Lemma consistent_no_seat st e n :
  consistent st → event st !! e = None → seat_at st e n = None.
Proof.
  intros [Hev _ _] Hnone. destruct (seat_at st e n) eqn:Es; [|done].
  apply Hev in Es as [? ?]. congruence.
Qed.

Lemma consistent_held_holder st e n s :
  consistent st → seat_at st e n = Some s → status s = held → is_Some (userId s).
Proof.
  intros [_ Hf _] Hs Hheld. specialize (Hf _ _ _ Hs).
  unfold fields_match in Hf. rewrite Hheld in Hf. by destruct Hf.
Qed.

Lemma releaseSeat_holds_exact st e n :
  consistent st → holds_exact st → holds_exact (releaseSeat e n st).2.
Proof.
  intros Hc Hx.
  destruct (releaseSeat_effect st e n)
    as [->|(seat & Hs & Hheld & _ & Hseat & _ & _ & Hset)]; [done|].
  intros u e' n' Hu. rewrite Hset, Hseat. specialize (Hx u e' n' Hu).
  destruct (decide ((e, n) = (e', n'))) as [[= <- <-]|Hk].
  - destruct (decide (truthy (userId seat) = true ∧ (userId seat, e) = (Some u, e)))
      as [Hcond|Hcond].
    + rewrite elem_of_difference, elem_of_singleton.
      split; [by intros [_ []]|]. intros (s & [= <-] & Hst & _). done.
    + rewrite Hx, Hs. split; [|intros (s & [= <-] & Hst & _); done].
      intros (s & [= <-] & _ & Hus). destruct Hcond. split; [|by rewrite Hus].
      rewrite Hus. by apply truthy_Some.
  - destruct (decide (truthy (userId seat) = true ∧ (userId seat, e) = (Some u, e')))
      as [Hcond|Hcond]; [|done].
    destruct Hcond as [_ [= Hus <-]]. rewrite <- Hx.
    rewrite elem_of_difference, elem_of_singleton.
    split; [by intros []|]. intros Hin. split; [done|]. intros ->. by apply Hk.
Qed.

Lemma exec_holds_exact op st :
  consistent st ∧ holds_exact st →
  consistent (exec maxHoldsPerUser op st) ∧ holds_exact (exec maxHoldsPerUser op st).
Proof.
  revert op st.
  apply (exec_keeps maxHoldsPerUser (λ st, consistent st ∧ holds_exact st)).
  - intros st now e total nm descr [Hc Hx].
    split; [by apply createEvent_consistent|].
    destruct (createEvent_effect st now e total nm descr Hc)
      as [->|(_ & Hnone & _ & _ & Hseat & _ & _ & Hset)]; [done|].
    intros u e' n' Hu. rewrite Hset, Hseat, (Hx u e' n' Hu).
    case_decide as He; [|done]. subst e'.
    rewrite (consistent_no_seat st e n' Hc Hnone), initialSeats_lookup_iff.
    split; [by intros (s & ? & _)|].
    case_decide; intros (s & Hs & Hst & _); by simplify_eq.
  - intros st now lag e n u d [Hc Hx].
    split; [by apply holdSeat_consistent|].
    destruct (holdSeat_effect maxHoldsPerUser st now lag e n u d)
      as [->|(seat & Hs & Hav & _ & _ & _ & Hseat & _ & _ & Hset)]; [done|].
    intros u' e' n' Hu. rewrite Hset, Hseat. specialize (Hx u' e' n' Hu).
    destruct (decide ((e, n) = (e', n'))) as [[= <- <-]|Hk].
    + destruct (decide ((u, e) = (u', e))) as [Hcond|Hcond].
      * simplify_eq. rewrite elem_of_union, elem_of_singleton.
        split; [eauto|by left].
      * rewrite Hx, Hs. split.
        -- intros (s & [= <-] & Hst & _). congruence.
        -- intros (s & [= <-] & _ & [= <-]). done.
    + destruct (decide ((u, e) = (u', e'))) as [Hcond|Hcond]; [|done].
      simplify_eq. rewrite <- Hx. rewrite elem_of_union, elem_of_singleton.
      split; [|by right]. intros [->|Hin]; [|done]. by destruct Hk.
  - intros st now e n u [Hc Hx].
    split; [by apply reserveSeat_consistent|].
    destruct (reserveSeat_effect st now e n u Hc)
      as [->|[->|(seat & h & _ & _ & Hs & Hheld & Hus & _ & _ & Hseat & _ & _ & Hset)]];
      [done|by apply releaseSeat_holds_exact|].
    intros u' e' n' Hu. rewrite Hset, Hseat. specialize (Hx u' e' n' Hu).
    destruct (decide ((e, n) = (e', n'))) as [[= <- <-]|Hk].
    + destruct (decide ((u, e) = (u', e))) as [Hcond|Hcond].
      * rewrite elem_of_difference, elem_of_singleton.
        split; [by intros [_ []]|]. intros (s & [= <-] & Hst & _). done.
      * rewrite Hx, Hs. split; [|intros (s & [= <-] & Hst & _); done].
        intros (s & [= <-] & _ & Hus'). destruct Hcond. congruence.
    + destruct (decide ((u, e) = (u', e'))) as [Hcond|Hcond]; [|done].
      simplify_eq. rewrite <- Hx. rewrite elem_of_difference, elem_of_singleton.
      split; [by intros []|]. intros Hin. split; [done|]. intros ->. by apply Hk.
  - intros st e n [Hc Hx].
    split; [by apply releaseSeat_consistent|by apply releaseSeat_holds_exact].
  - intros st now lag e n u d [Hc Hx].
    split; [by apply refreshSeatHold_consistent|].
    destruct (refreshSeatHold_effect st now lag e n u d)
      as [->|[->|(h & _ & _ & _ & _ & _ & Hseat & _ & _ & Hset)]];
      [done|by apply releaseSeat_holds_exact|].
    intros u' e' n' Hu. rewrite Hset, Hseat. by apply Hx.
Qed.

Lemma releaseSeat_reservations_exact st e n :
  reservations_exact st → reservations_exact (releaseSeat e n st).2.
Proof.
  intros Hx.
  destruct (releaseSeat_effect st e n)
    as [->|(seat & Hs & Hheld & _ & Hseat & _ & Hres & _)]; [done|].
  intros e' n' r. rewrite Hres, Hseat, (Hx e' n' r).
  case_decide as Hk; [|done]. simplify_eq. rewrite Hs.
  split; intros (s & u & t & [= <-] & Hst & _); [congruence|done].
Qed.

Lemma exec_reservations_exact op st :
  consistent st ∧ reservations_exact st →
  consistent (exec maxHoldsPerUser op st) ∧
  reservations_exact (exec maxHoldsPerUser op st).
Proof.
  revert op st.
  apply (exec_keeps maxHoldsPerUser (λ st, consistent st ∧ reservations_exact st)).
  - intros st now e total nm descr [Hc Hx].
    split; [by apply createEvent_consistent|].
    destruct (createEvent_effect st now e total nm descr Hc)
      as [->|(_ & Hnone & _ & _ & Hseat & _ & Hres & _)]; [done|].
    intros e' n' r. rewrite Hres, Hseat, (Hx e' n' r).
    case_decide as He; [|done]. subst e'.
    rewrite (consistent_no_seat st e n' Hc Hnone), initialSeats_lookup_iff.
    split; [by intros (s & ? & ? & ? & _)|].
    case_decide; intros (s & u & t & Hs & Hst & _); by simplify_eq.
  - intros st now lag e n u d [Hc Hx].
    split; [by apply holdSeat_consistent|].
    destruct (holdSeat_effect maxHoldsPerUser st now lag e n u d)
      as [->|(seat & Hs & Hav & _ & _ & _ & Hseat & _ & Hres & _)]; [done|].
    intros e' n' r. rewrite Hres, Hseat, (Hx e' n' r).
    case_decide as Hk; [|done]. simplify_eq. rewrite Hs.
    split; intros (s & u' & t & [= <-] & Hst & _); [congruence|done].
  - intros st now e n u [Hc Hx].
    split; [by apply reserveSeat_consistent|].
    destruct (reserveSeat_effect st now e n u Hc)
      as [->|[->|(seat & h & _ & _ & Hs & Hheld & Hus & _ & _ & Hseat & _ & Hres & _)]];
      [done|by apply releaseSeat_reservations_exact|].
    intros e' n' r. rewrite Hres, Hseat.
    destruct (decide ((e, n) = (e', n'))) as [[= <- <-]|Hk].
    + rewrite lookup_insert_eq. split.
      * intros [= <-]. by exists (reserved_seat now seat), u, now.
      * intros (s & u' & t & [= <-] & _ & Hu' & Ht & ->). simpl in *. congruence.
    + rewrite lookup_insert_ne by done. apply Hx.
  - intros st e n [Hc Hx].
    split; [by apply releaseSeat_consistent|by apply releaseSeat_reservations_exact].
  - intros st now lag e n u d [Hc Hx].
    split; [by apply refreshSeatHold_consistent|].
    destruct (refreshSeatHold_effect st now lag e n u d)
      as [->|[->|(h & _ & _ & _ & _ & _ & Hseat & _ & Hres & _)]];
      [done|by apply releaseSeat_reservations_exact|].
    intros e' n' r. rewrite Hres, Hseat. apply Hx.
Qed.

Lemma size_remove_le (n : Z) (s : gset Z) : (size (s ∖ {[n]}) ≤ size s)%nat.
Proof. apply subseteq_size. clear. set_solver. Qed.

Lemma size_add_le (n : Z) (s : gset Z) : (size ({[n]} ∪ s) ≤ S (size s))%nat.
Proof.
  rewrite size_union_alt, size_singleton.
  pose proof (size_remove_le n s). lia.
Qed.

Lemma exec_within_quota op st :
  (∀ u e, Z.of_nat (size (holds_of st u e)) ≤ maxHoldsPerUser) →
  ∀ u e, Z.of_nat (size (holds_of (exec maxHoldsPerUser op st) u e)) ≤ maxHoldsPerUser.
Proof.
  revert op st.
  assert (Hrel : ∀ st e n,
    (∀ u e, Z.of_nat (size (holds_of st u e)) ≤ maxHoldsPerUser) →
    ∀ u e', Z.of_nat (size (holds_of (releaseSeat e n st).2 u e')) ≤ maxHoldsPerUser).
  { intros st e n Hq u e'.
    pose proof (releaseSeat_holds_subset st e n u e') as Hsub%subseteq_size.
    specialize (Hq u e'). lia. }
  apply (exec_keeps maxHoldsPerUser
           (λ st, ∀ u e, Z.of_nat (size (holds_of st u e)) ≤ maxHoldsPerUser)).
  - intros st now e total nm descr Hq. rewrite createEvent_unfold.
    case_decide; [done|]. destruct (event st !! e); [done|].
    cbn zeta. cbn [snd]. intros u e'. store_simpl. apply Hq.
  - intros st now lag e n u d Hq.
    destruct (holdSeat_effect maxHoldsPerUser st now lag e n u d)
      as [->|(seat & _ & _ & Hlt & _ & _ & _ & _ & _ & Hset)]; [done|].
    intros u' e'. rewrite Hset. case_decide as Hk; [|apply Hq].
    pose proof (size_add_le n (holds_of st u' e')). injection Hk as <- <-. lia.
  - intros st now e n u Hq. rewrite reserveSeat_unfold.
    destruct (live_hold st now e n) as [h|]; [|done].
    case_decide; [done|]. case_decide.
    { pose proof (Hrel st e n Hq) as Hr.
      destruct (releaseSeat e n st) as [[] ?]; done. }
    destruct (seat_at st e n); [|done].
    cbn zeta. cbn [snd]. intros u' e'. store_simpl.
    pose proof (size_remove_le n (holds_of st u' e')). specialize (Hq u' e').
    case_decide; lia.
  - intros st e n Hq. by apply Hrel.
  - intros st now lag e n u d Hq.
    destruct (refreshSeatHold_effect st now lag e n u d)
      as [->|[->|(h & _ & _ & _ & _ & _ & _ & _ & _ & Hset)]];
      [done|by apply Hrel|].
    intros u' e'. rewrite Hset. apply Hq.
Qed.

End Accounting.

(** ** Creating and listing events *)

Section Events.

Import SeatService.

Variable maxHoldsPerUser : Z.

Lemma Sorted_seqZ m n : Sorted Z.lt (seqZ m n).
Proof.
  destruct (decide (n ≤ 0)) as [Hn|Hn]; [rewrite seqZ_nil by done; constructor|].
  rewrite <- (Z2Nat.id n) by lia. generalize (Z.to_nat n) as k. clear. intros k.
  revert m. induction k as [|k IH]; intros m.
  { rewrite seqZ_nil by lia. constructor. }
  rewrite seqZ_cons by lia. constructor.
  - replace (Z.pred (Z.of_nat (S k))) with (Z.of_nat k) by lia. apply IH.
  - replace (Z.pred (Z.of_nat (S k))) with (Z.of_nat k) by lia.
    destruct k as [|k]; [rewrite seqZ_nil by lia; constructor|].
    rewrite seqZ_cons by lia. constructor. lia.
Qed.

Lemma strictly_sorted_eq (l1 l2 : list Z) :
  Sorted Z.lt l1 → Sorted Z.lt l2 → (∀ n, n ∈ l1 ↔ n ∈ l2) → l1 = l2.
Proof.
  intros H1 H2 Hmem.
  assert (Hnd : ∀ l, Sorted Z.lt l → NoDup l).
  { intros l Hl%Sorted_StronglySorted; [|intros x y z; lia].
    induction Hl as [|x l Hl IH Hall]; constructor; [|done].
    rewrite Forall_forall in Hall. intros Hx. specialize (Hall x Hx). lia. }
  apply (Sorted_unique_strong Z.lt); try done.
  - intros x y _ _. lia.
  - apply NoDup_Permutation; auto.
Qed.

(** With no stale hold among its entries the loop of [getAvailableSeats]
    writes nothing. *)
Lemma collectAvailable_readonly now e entries st :
  (∀ n seat, (n, seat) ∈ entries → ¬ stale st now e n seat) →
  (collectAvailable now e entries st).2 = st.
Proof.
  induction entries as [|[n seat] rest IH]; intros Hns; [done|].
  assert (Hrest : (collectAvailable now e rest st).2 = st).
  { apply IH. intros m s Hm. apply Hns. by right. }
  simpl. destruct (status seat) eqn:Est.
  - unfold_monad. by destruct (collectAvailable now e rest st) as [[] ?].
  - unfold get_hold. unfold_monad.
    destruct (live_hold st now e n) eqn:El; [done|].
    destruct (Hns n seat); [by left|done].
  - done.
Qed.

Lemma getAvailableSeats_unchanged st now e :
  (∀ n seat, seat_at st e n = Some seat → ¬ stale st now e n seat) →
  (getAvailableSeats now e st).2 = st.
Proof.
  intros Hns. unfold getAvailableSeats, getEvent, get_event, hGetAll. unfold_monad.
  destruct (event st !! e); [|done].
  pose proof (collectAvailable_readonly now e (map_to_list (seats_of st e)) st) as Hro.
  destruct (collectAvailable now e _ st) as [[] ?]; apply Hro;
    intros n seat Hin%elem_of_map_to_list; by apply Hns.
Qed.

(** X3. [getAvailableSeats] fails, with the store untouched, exactly when
    the event does not exist; and when no seat of the event is a stale hold
    it reads only: the store it leaves is the store it was called on. *)
Theorem getAvailableSeats_reads_only st now e :
  (event st !! e = None → getAvailableSeats now e st = (Err EventNotFound, st)) ∧
  (is_Some (event st !! e) → is_ok (getAvailableSeats now e st).1 = true) ∧
  ((∀ n seat, seat_at st e n = Some seat → ¬ stale st now e n seat) →
   (getAvailableSeats now e st).2 = st).
Proof.
  split; [|split].
  - intros Hnone. unfold getAvailableSeats, getEvent, get_event. unfold_monad.
    by rewrite Hnone.
  - intros [ev Hev].
    destruct (getAvailableSeats_run st now e ev Hev) as (pushed & st' & -> & _). done.
  - apply getAvailableSeats_unchanged.
Qed.

(** X1. [createEvent] on a reachable store. A seat count outside 10..1000
    is refused first, then an id that is taken; a refused call leaves the
    store as it is, so an existing event is never overwritten. An accepted
    call stores the event as active with the given fields and gives it
    exactly the seats 1 to [total], each available with no holder and no
    timestamps; the seats of other events, the leases, the reservations and
    the holders' sets are untouched, and [getEvent] answers the event. *)
Theorem createEvent_spec st now e total nm descr :
  reachable maxHoldsPerUser st →
  let r := createEvent now e total nm descr st in
  (total < 10 ∨ total > 1000 → r = (Err InvalidSeatCount, st)) ∧
  (10 ≤ total ≤ 1000 → is_Some (event st !! e) → r = (Err EventAlreadyExists, st)) ∧
  (10 ≤ total ≤ 1000 → event st !! e = None →
   let ev := mkEvent e nm descr total now active in
   r.1 = Ok ev ∧
   getEvent e (r.2) = (Ok ev, r.2) ∧
   (∀ n, seat_at (r.2) e n =
      if decide (1 ≤ n ≤ total) then Some (mkSeat e n available None None None)
      else None) ∧
   (∀ e' n, e' ≠ e →
      seat_at (r.2) e' n = seat_at st e' n ∧ event (r.2) !! e' = event st !! e') ∧
   seatHold (r.2) = seatHold st ∧
   seatReserved (r.2) = seatReserved st ∧
   (∀ u e', holds_of (r.2) u e' = holds_of st u e')).
Proof.
  intros Hc%reachable_consistent. cbn zeta. split; [|split].
  - intros Hbad. rewrite createEvent_unfold. by rewrite decide_True.
  - intros Hok [ev Hev]. rewrite createEvent_unfold, Hev. by rewrite decide_False by lia.
  - intros Hok Hnone.
    destruct (createEvent_effect st now e total nm descr Hc)
      as [Heq|(_ & _ & Hrun & Hev & Hseat & Hhold & Hres & Hset)].
    { rewrite createEvent_unfold, Hnone in Heq. rewrite decide_False in Heq by lia.
      cbn zeta in Heq. cbn [snd] in Heq.
      assert (Hl : event st !! e = Some (mkEvent e nm descr total now active)).
      { rewrite <- Heq. store_simpl. apply lookup_insert_eq. }
      congruence. }
    rewrite Hrun. cbn [fst snd]. split; [done|].
    rewrite Hrun in Hev, Hseat, Hhold, Hres, Hset. cbn [snd] in *.
    split.
    { unfold getEvent, get_event. unfold_monad. by rewrite Hev, lookup_insert_eq. }
    split.
    { intros n. rewrite Hseat, decide_True by done. apply initialSeats_lookup_iff. }
    split; [|done].
    intros e' n Hne. rewrite Hseat, Hev.
    rewrite decide_False by done. by rewrite lookup_insert_ne.
Qed.

(** X2. Right after an accepted [createEvent], [getAvailableSeats] lists
    the seats 1 to [total] in order and writes nothing. *)
Theorem createEvent_then_list st now e total nm descr ev st' now' :
  reachable maxHoldsPerUser st →
  createEvent now e total nm descr st = (Ok ev, st') →
  getAvailableSeats now' e st' = (Ok (seqZ 1 total), st').
Proof.
  intros Hc%reachable_consistent Hrun.
  destruct (createEvent_effect st now e total nm descr Hc)
    as [Heq|(Hok & Hnone & Hrun' & Hev & Hseat & _)].
  { rewrite createEvent_unfold in Hrun, Heq.
    case_decide; [done|]. destruct (event st !! e) eqn:Eev; [done|].
    cbn zeta in Heq. cbn [snd] in Heq.
    assert (Hl : event st !! e = Some (mkEvent e nm descr total now active)).
    { rewrite <- Heq. store_simpl. apply lookup_insert_eq. }
    congruence. }
  rewrite Hrun in Hrun', Hev, Hseat. cbn [snd] in *.
  assert (Hev' : event st' !! e = Some (mkEvent e nm descr total now active))
    by (by rewrite Hev, lookup_insert_eq).
  assert (Hall : ∀ n seat, seat_at st' e n = Some seat → status seat = available).
  { intros n seat. rewrite Hseat, decide_True, initialSeats_lookup_iff by done.
    case_decide; [|done]. by intros [= <-]. }
  destruct (getAvailableSeats_run st' now' e _ Hev')
    as (pushed & st'' & Hlist & Hnd & Hmem & _).
  destruct (sortBySeatNumber_spec pushed Hnd) as [Hsorted Hperm].
  pose proof (getAvailableSeats_unchanged st' now' e) as Hro.
  rewrite Hlist in Hro. cbn [snd] in Hro. rewrite Hro in Hlist.
  2:{ intros n seat Hs [Hheld _]. apply Hall in Hs. congruence. }
  rewrite Hlist. f_equal. f_equal.
  apply strictly_sorted_eq; [done|apply Sorted_seqZ|].
  intros n. rewrite Hperm, Hmem, elem_of_seqZ, Hseat, decide_True by done.
  rewrite initialSeats_lookup_iff. case_decide as Hn.
  - split; [lia|]. intros _. eexists. split; [done|]. by left.
  - split; [by intros (s & ? & _)|lia].
Qed.

End Events.

(** ** Invariants of the reachable stores *)

Section ReachableStores.

Import SeatService.

Variable maxHoldsPerUser : Z.

Lemma event_kept e ev op st :
  event st !! e = Some ev → event (exec maxHoldsPerUser op st) !! e = Some ev.
Proof.
  revert op st.
  apply (exec_keeps maxHoldsPerUser (λ st, event st !! e = Some ev)).
  - intros st now e0 total nm descr Hev. rewrite createEvent_unfold.
    case_decide; [done|]. destruct (event st !! e0) eqn:E0; [done|].
    cbn zeta. cbn [snd]. store_simpl.
    rewrite lookup_insert_ne; [done|]. intros ->. congruence.
  - intros st now lag e0 n u d Hev.
    destruct (holdSeat_effect maxHoldsPerUser st now lag e0 n u d)
      as [->|(seat & _ & _ & _ & _ & -> & _)]; done.
  - intros st now e0 n u Hev. rewrite reserveSeat_unfold.
    destruct (live_hold st now e0 n); [|done].
    case_decide; [done|]. case_decide.
    { destruct (releaseSeat_effect st e0 n) as [Heq|(seat & _ & _ & Heq & _)];
        destruct (releaseSeat e0 n st) as [[] ?]; cbn [snd] in *; congruence. }
    destruct (seat_at st e0 n); [|done]. cbn zeta. cbn [snd]. by store_simpl.
  - intros st e0 n Hev.
    destruct (releaseSeat_effect st e0 n) as [->|(seat & _ & _ & -> & _)]; done.
  - intros st now lag e0 n u d Hev. rewrite refreshSeatHold_unfold.
    destruct (live_hold st now e0 n); [|done].
    case_decide; [done|]. case_decide; [|done].
    destruct (releaseSeat_effect st e0 n) as [Heq|(seat & _ & _ & Heq & _)];
      destruct (releaseSeat e0 n st) as [[] ?]; cbn [snd] in *; congruence.
Qed.

Lemma holds_of_empty u e : holds_of empty u e = ∅.
Proof. unfold holds_of, empty. cbn [userHolds]. by rewrite lookup_empty. Qed.

Lemma seat_at_empty e n : seat_at empty e n = None.
Proof.
  unfold seat_at, seats_of, empty. cbn [eventSeats]. rewrite lookup_empty.
  apply lookup_empty.
Qed.

Lemma event_kept_run e ev ops st :
  event st !! e = Some ev → event (run maxHoldsPerUser ops st) !! e = Some ev.
Proof.
  revert st. induction ops as [|op ops IH]; intros st Hlook; [done|].
  simpl. by apply IH, event_kept.
Qed.

Lemma run_app ops1 ops2 st :
  run maxHoldsPerUser (ops1 ++ ops2) st
  = run maxHoldsPerUser ops2 (run maxHoldsPerUser ops1 st).
Proof. unfold run. apply foldl_app. Qed.

Lemma reachable_run ops st :
  reachable maxHoldsPerUser st → reachable maxHoldsPerUser (run maxHoldsPerUser ops st).
Proof. intros [ops0 ->]. exists (ops0 ++ ops). by rewrite run_app. Qed.

(** X4. The layout of a reachable store. An event sits under its own id,
    is active and has between 10 and 1000 seats; it has a seat record for
    exactly the numbers 1 to its seat count, each carrying its own event id
    and number; and no operation changes or removes an event: the seat count
    and the set of seats of an event are fixed once and for all. *)
Theorem reachable_layout st :
  reachable maxHoldsPerUser st →
  (∀ e ev, event st !! e = Some ev →
     id ev = e ∧ 10 ≤ totalSeats ev ≤ 1000 ∧ ev_status ev = active ∧
     (∀ n, is_Some (seat_at st e n) ↔ 1 ≤ n ≤ totalSeats ev) ∧
     (∀ ops, event (run maxHoldsPerUser ops st) !! e = Some ev)) ∧
  (∀ e n s, seat_at st e n = Some s →
     eventId s = e ∧ seatNumber s = n ∧ is_Some (event st !! e)).
Proof.
  intros Hr. destruct (reachable_laid_out _ _ Hr) as [[Hev _ _] [Hkev Hkey Hnum]].
  split.
  - intros e ev Hlook. destruct (Hkev e ev Hlook) as (Hid & Htot & Hact).
    split; [done|]. split; [done|]. split; [done|]. split.
    + intros n. by apply Hnum.
    + intros ops. by apply event_kept_run.
  - intros e n s Hs. destruct (Hkey e n s Hs). eauto.
Qed.

Lemma reachable_holds_exact st :
  reachable maxHoldsPerUser st → consistent st ∧ holds_exact st.
Proof.
  revert st.
  apply (reachable_keeps maxHoldsPerUser (λ st, consistent st ∧ holds_exact st)).
  - split; [apply consistent_empty|]. intros u' e' n' _.
    rewrite holds_of_empty, seat_at_empty.
    split; [by intros ?%not_elem_of_empty|by intros (s & ? & _)].
  - apply exec_holds_exact.
Qed.

(** X5. What the holders' sets count. In a store reached by whole
    operations run one after another, none of whose ids has a colon, for a
    holder with a non-empty id: a seat is in the holder's set exactly when
    its record is held by that holder, whether or not its lease is still
    alive; [getUserHoldCount], which reads only, counts the held records,
    expired holds included until a read reconciles them. *)
Theorem holder_set_exact ops u e :
  RedisKeys.plain_run ops →
  u ≠ EmptyString → RedisKeys.colon_free u → RedisKeys.colon_free e →
  let st := run maxHoldsPerUser ops empty in
  getUserHoldCount e u st = (Ok (Z.of_nat (size (holds_of st u e))), st) ∧
  ∀ n, n ∈ holds_of st u e ↔
       ∃ s, seat_at st e n = Some s ∧ status s = held ∧ userId s = Some u.
Proof.
  intros _ Hu _ _ st. split; [done|]. intros n.
  by apply (reachable_holds_exact st); [exists ops|].
Qed.

(** X6. With a quota that is not negative, no holder's set ever grows
    beyond it: in every reachable store [getUserHoldCount] answers at most
    the quota. *)
Theorem quota_never_exceeded st u e :
  0 ≤ maxHoldsPerUser →
  reachable maxHoldsPerUser st →
  ∃ c, getUserHoldCount e u st = (Ok c, st) ∧ 0 ≤ c ≤ maxHoldsPerUser.
Proof.
  intros Hmax Hr. eexists. split; [done|]. split; [lia|].
  revert st Hr u e.
  apply (reachable_keeps maxHoldsPerUser
           (λ st, ∀ u e, Z.of_nat (size (holds_of st u e)) ≤ maxHoldsPerUser)).
  - intros u e. rewrite holds_of_empty, size_empty. lia.
  - apply exec_within_quota.
Qed.

Lemma reachable_reservations st :
  reachable maxHoldsPerUser st → reservations_exact st.
Proof.
  intros Hr. assert (Hx : consistent st ∧ reservations_exact st); [|by apply Hx].
  revert st Hr.
  apply (reachable_keeps maxHoldsPerUser (λ st, consistent st ∧ reservations_exact st)).
  - split; [apply consistent_empty|]. intros e n r.
    rewrite seat_at_empty. unfold empty. cbn [seatReserved]. rewrite lookup_empty.
    split; [done|by intros (s & u & t & ? & _)].
  - apply exec_reservations_exact.
Qed.

(** X7. The reservation records. In a store reached by whole operations
    run one after another, a reservation record exists for a seat exactly
    when the seat record is reserved, and it repeats the seat's holder and
    reserved-at; no sequence of further whole operations, run one after
    another, changes or removes it. *)
Theorem reservation_records st :
  reachable maxHoldsPerUser st →
  (∀ e n r, seatReserved st !! (e, n) = Some r ↔
     ∃ s u t, seat_at st e n = Some s ∧ status s = reserved ∧
              userId s = Some u ∧ reservedAt s = Some t ∧
              r = mkSeatReservation e n u t) ∧
  (∀ ops e n r, seatReserved st !! (e, n) = Some r →
     seatReserved (run maxHoldsPerUser ops st) !! (e, n) = Some r).
Proof.
  intros Hr. pose proof (reachable_reservations st Hr) as Hx. split; [done|].
  intros ops e n r Hres.
  apply Hx in Hres as (s & u & t & Hs & Hst & Hu & Ht & ->).
  apply (reachable_reservations _ (reachable_run ops st Hr)).
  exists s, u, t. repeat split; try done.
  apply reserved_is_kept; [by apply reachable_consistent in Hr|done..].
Qed.

End ReachableStores.

(** ** Refreshing, and one operation after another *)

Section Sequences.

Import SeatService.

Variable maxHoldsPerUser : Z.

(** X8. [refreshSeatHold], on any store, succeeds exactly when the store
    shows a lease of the caller for the seat that is not past its
    [expiresAt]. It then rewrites the lease only: same holder and held-at,
    [expiresAt] at [now + duration]; the seat record, the holders' sets and
    the reservations are untouched, and the store shows the refreshed lease
    until the duration has passed since it served the [SETEX], not after.
    A failure is the not-held error when no lease is shown, the other-user
    error when the lease is someone else's, both leaving the store as it
    is, and the expired error when the caller's lease is past its
    [expiresAt]: the seat has then been released (in a store reached by
    whole operations, the record is available again and the lease is
    gone). The not-found error needs an expired lease without a seat
    record, which no such store has. *)
Theorem refreshSeatHold_spec st now lag e n u d :
  let r := refreshSeatHold now lag e n u d st in
  (is_ok (r.1) = true ↔
   ∃ h, live_hold st now e n = Some h ∧ hold_userId h = u ∧ ¬ expiresAt h < now) ∧
  (∀ h', r.1 = Ok h' →
     ∃ h, live_hold st now e n = Some h ∧
       h' = mkSeatHold (hold_eventId h) (hold_seatNumber h) u (hold_heldAt h)
                       (now + d * 1000) ∧
       (∀ t, t ≤ now + lag + d * 1000 → live_hold (r.2) t e n = Some h') ∧
       (∀ t, now + lag + d * 1000 < t → live_hold (r.2) t e n = None) ∧
       (∀ e' n', seat_at (r.2) e' n' = seat_at st e' n') ∧
       (∀ u' e', holds_of (r.2) u' e' = holds_of st u' e') ∧
       seatReserved (r.2) = seatReserved st) ∧
  (∀ err, r.1 = Err err →
     match err with
     | SeatNotHeld => live_hold st now e n = None ∧ r.2 = st
     | HeldByAnotherUser =>
         (∃ h, live_hold st now e n = Some h ∧ hold_userId h ≠ u) ∧ r.2 = st
     | HoldExpired =>
         (∃ h, live_hold st now e n = Some h ∧ hold_userId h = u ∧ expiresAt h < now) ∧
         r.2 = (releaseSeat e n st).2 ∧
         (reachable maxHoldsPerUser st →
          ∃ seat, seat_at st e n = Some seat ∧ status seat = held ∧
                  seat_at (r.2) e n = Some (released_seat seat) ∧
                  seatHold (r.2) !! (e, n) = None)
     | SeatNotFound =>
         seat_at st e n = None ∧ r.2 = st ∧ ¬ reachable maxHoldsPerUser st
     | _ => False
     end).
Proof.
  cbn zeta. rewrite refreshSeatHold_unfold.
  destruct (live_hold st now e n) as [h|] eqn:Elive.
  2:{ cbn [fst snd]. split; [split; [done|by intros (? & ? & _)]|].
      split; [done|]. by intros err [= <-]. }
  destruct (decide (hold_userId h ≠ u)) as [Hu|Hu].
  { cbn [fst snd]. split; [split; [done|intros (? & [= <-] & ? & _); done]|].
    split; [done|]. intros err [= <-]. eauto. }
  assert (hold_userId h = u) as Hu' by (by destruct (decide (hold_userId h = u))).
  destruct (decide (expiresAt h < now)) as [Hexp|Hexp].
  - assert (Hback : reachable maxHoldsPerUser st →
                    ∃ seat, seat_at st e n = Some seat ∧ status seat = held).
    { intros Hc%reachable_consistent.
      destruct (live_hold_backed _ _ _ _ _ Hc Elive) as (seat & ? & ? & _). eauto. }
    destruct (seat_at st e n) as [seat|] eqn:Es.
    + destruct (decide (status seat = held)) as [Hheld|Hheld].
      * destruct (releaseSeat_held st e n seat Es Hheld)
          as (st' & -> & _ & Hseat & Hhold & _).
        cbn [fst snd]. split; [split; [done|intros (? & [= <-] & _ & ?); done]|].
        split; [done|]. intros err [= <-]. split; [eauto|]. split; [done|].
        intros _. exists seat. split; [done|]. split; [done|].
        rewrite Hseat, Hhold, decide_True by done. split; [done|apply lookup_delete_eq].
      * rewrite (releaseSeat_not_held st e n seat) by done.
        cbn [fst snd]. split; [split; [done|intros (? & [= <-] & _ & ?); done]|].
        split; [done|]. intros err [= <-]. split; [eauto|]. split; [done|].
        intros (seat' & [= <-] & ?)%Hback. done.
    + rewrite releaseSeat_unfold, Es.
      cbn [fst snd]. split; [split; [done|intros (? & [= <-] & _ & ?); done]|].
      split; [done|]. intros err [= <-]. split; [done|]. split; [done|].
      intros (seat' & [=] & ?)%Hback.
  - cbn zeta. cbn [fst snd].
    split; [split; [eauto|done]|]. split; [|done].
    intros h' [= <-]. exists h. split; [done|]. rewrite Hu'. split; [done|].
    split; [|split; [|done]].
    + intros t Ht. unfold live_hold. store_simpl. rewrite lookup_insert_eq.
      by rewrite decide_True by lia.
    + intros t Ht. unfold live_hold. store_simpl. rewrite lookup_insert_eq.
      by rewrite decide_False by lia.
Qed.

(** X9. A hold, then its holder. After a successful [holdSeat] whose lease
    the store wrote [lag] milliseconds after the clock reading, with no
    operation in between. Up to the lease's [expiresAt], that instant
    included, a reserve or a refresh by the holder succeeds. After it and
    until the store evicts the lease, [lag] milliseconds later, a reserve or
    a refresh by the holder releases the seat and fails with the expired
    error. As long as the lease is shown, a reserve by anyone else fails
    with the other-user error and leaves the store as it is. Once the lease
    is evicted, a reserve or a refresh by anyone fails with the not-held
    error and leaves the store as it is, the seat record still held. *)
Theorem hold_then_reserve st0 now0 lag e n u d h st now lag' u' d' :
  0 ≤ lag →
  holdSeat maxHoldsPerUser now0 lag e n u d st0 = (Ok h, st) →
  (now ≤ now0 + d * 1000 →
     (reserveSeat now e n u st).1 = Ok (mkSeatReservation e n u now) ∧
     (∃ h', (refreshSeatHold now lag' e n u d' st).1 = Ok h' ∧
            hold_heldAt h' = now0 ∧ expiresAt h' = now + d' * 1000)) ∧
  (now0 + d * 1000 < now ≤ now0 + lag + d * 1000 →
     ∃ st', releaseSeat e n st = (Ok (), st') ∧
            (status <$> seat_at st' e n) = Some available ∧
            reserveSeat now e n u st = (Err HoldExpired, st') ∧
            refreshSeatHold now lag' e n u d' st = (Err HoldExpired, st')) ∧
  (now ≤ now0 + lag + d * 1000 → u' ≠ u →
     reserveSeat now e n u' st = (Err HeldByAnotherUser, st) ∧
     refreshSeatHold now lag' e n u' d' st = (Err HeldByAnotherUser, st)) ∧
  (now0 + lag + d * 1000 < now →
     reserveSeat now e n u' st = (Err SeatNotHeld, st) ∧
     refreshSeatHold now lag' e n u' d' st = (Err SeatNotHeld, st) ∧
     (status <$> seat_at st e n) = Some held).
Proof.
  intros Hlag Hhold.
  destruct (holdSeat_ok _ _ _ _ _ _ _ _ _ _ Hhold)
    as (-> & _ & (seat & _ & _ & Hs) & Hlease & _).
  assert (Hshown : now ≤ now0 + lag + d * 1000 →
            live_hold st now e n = Some (mkSeatHold e n u now0 (now0 + d * 1000))).
  { intros Hnow. unfold live_hold. rewrite Hlease. by rewrite decide_True by lia. }
  split; [|split; [|split]].
  - intros Hnow.
    rewrite !reserveSeat_unfold, refreshSeatHold_unfold, Hshown, Hs by lia.
    cbn [hold_userId expiresAt].
    split.
    + rewrite decide_False by naive_solver. by rewrite decide_False by lia.
    + rewrite decide_False by naive_solver. rewrite decide_False by lia.
      by eexists.
  - intros Hnow.
    destruct (releaseSeat_held st e n _ Hs eq_refl) as (st' & Hrel & _ & Hseat & _).
    exists st'. split; [done|]. split; [by rewrite Hseat, decide_True|].
    rewrite !reserveSeat_unfold, refreshSeatHold_unfold, Hshown by lia.
    cbn [hold_userId expiresAt].
    rewrite !(decide_False (P := u ≠ u)) by naive_solver.
    rewrite !decide_True by lia. by rewrite Hrel.
  - intros Hnow Hne.
    rewrite !reserveSeat_unfold, refreshSeatHold_unfold, Hshown by lia.
    cbn [hold_userId]. by rewrite !decide_True by naive_solver.
  - intros Hnow.
    assert (Hlive : live_hold st now e n = None).
    { unfold live_hold. rewrite Hlease. by rewrite decide_False by lia. }
    rewrite reserveSeat_unfold, refreshSeatHold_unfold, Hlive. by rewrite Hs.
Qed.

(** X10. An expired hold keeps the seat taken until a read reconciles it.
    After a successful [holdSeat], a further [holdSeat] on the seat fails
    with the not-available error at every instant, also after the lease has
    expired. A [getSeatStatus] while the store still shows the lease changes
    nothing; once [getSeatStatus] has been called after the store has
    evicted the lease, a holder below the quota holds the seat. *)
Theorem expired_hold_blocks_until_read st0 now0 lag e n u d h st :
  holdSeat maxHoldsPerUser now0 lag e n u d st0 = (Ok h, st) →
  (∀ now' lag' u' d',
     holdSeat maxHoldsPerUser now' lag' e n u' d' st = (Err SeatNotAvailable, st)) ∧
  (∀ now, now ≤ now0 + lag + d * 1000 → (getSeatStatus now e n st).2 = st) ∧
  (∀ now now' lag' u' d',
     now0 + lag + d * 1000 < now →
     let st2 := (getSeatStatus now e n st).2 in
     Z.of_nat (size (holds_of st2 u' e)) < maxHoldsPerUser →
     ∃ st3, holdSeat maxHoldsPerUser now' lag' e n u' d' st2
            = (Ok (mkSeatHold e n u' now' (now' + d' * 1000)), st3)).
Proof.
  intros Hhold. split; [intros *; by eapply holdSeat_then_conflict|].
  destruct (holdSeat_ok _ _ _ _ _ _ _ _ _ _ Hhold)
    as (-> & Hev & (seat & _ & _ & Hs) & Hlease & _).
  split.
  - intros now Hnow. rewrite getSeatStatus_unfold, Hs. cbn [status].
    rewrite decide_True by done. unfold live_hold. rewrite Hlease.
    by rewrite decide_True by lia.
  - intros now now' lag' u' d' Hnow.
    assert (Hlive : live_hold st now e n = None).
    { unfold live_hold. rewrite Hlease. by rewrite decide_False by lia. }
    destruct (releaseSeat_held st e n _ Hs eq_refl)
      as (st2 & Hrel & Hev2 & Hseat2 & _).
    cbn zeta. rewrite getSeatStatus_unfold, Hs, decide_True, Hlive, Hrel by done.
    cbn [snd]. intros Hq.
    rewrite holdSeat_unfold in Hhold.
    destruct (event st0 !! e) as [ev|] eqn:Eev; [|done].
    case_decide as Hrange; [done|].
    destruct (holdSeat_success maxHoldsPerUser st2 now' lag' e n u' d' ev
                (released_seat (mkSeat (eventId seat) (seatNumber seat) held (Some u)
                                       (Some now0) (reservedAt seat))))
      as (st3 & Hok & _); try done.
    + by rewrite Hev2, Hev.
    + lia.
    + by rewrite Hseat2, decide_True.
    + by exists st3.
Qed.

(** X11. The answer of [getSeatStatus] is the record the store then holds.
    The call fails, with the not-found error and the store untouched,
    exactly when the seat record is absent; otherwise the seat it answers is
    the record found in the store it leaves, an answer with status held
    comes with a live lease, and the store is written only when the seat was
    a stale hold. *)
Theorem getSeatStatus_answer st now e n :
  (seat_at st e n = None → getSeatStatus now e n st = (Err SeatNotFound, st)) ∧
  (∀ seat0, seat_at st e n = Some seat0 →
     ∃ seat st', getSeatStatus now e n st = (Ok seat, st') ∧
       seat_at st' e n = Some seat ∧
       (status seat = held → is_Some (live_hold st' now e n)) ∧
       (¬ stale st now e n seat0 → st' = st ∧ seat = seat0)).
Proof.
  split.
  - intros Hs. by rewrite getSeatStatus_unfold, Hs.
  - intros seat0 Hs. rewrite getSeatStatus_unfold, Hs.
    destruct (decide (status seat0 = held)) as [Hheld|Hheld].
    + destruct (live_hold st now e n) as [h|] eqn:Elive.
      * exists seat0, st. split; [done|]. split; [done|].
        split; [intros _; by rewrite Elive|done].
      * destruct (releaseSeat_held st e n seat0 Hs Hheld)
          as (st' & -> & _ & Hseat & _).
        exists (released_seat seat0), st'. split; [done|].
        split; [by rewrite Hseat, decide_True|]. split; [done|].
        intros Hns. by destruct Hns.
    + exists seat0, st. split; [done|]. split; [done|]. split; [done|done].
Qed.

End Sequences.

(** ** Listing the events *)

Section AllEvents.

Import SeatService.

Lemma collectEvents_run st keys :
  collectEvents keys st = (Ok (omap (λ k, event st !! k) keys), st).
Proof.
  induction keys as [|k keys IH]; [done|].
  cbn [collectEvents omap list_omap]. unfold bind at 1. unfold get_event at 1.
  cbn beta iota. unfold bind at 1. rewrite IH. cbn beta iota. unfold ret.
  by destruct (event st !! k).
Qed.

Lemma omap_lookup_listing `{Countable K} {A} (m : gmap K A) (l : list (K * A)) :
  (∀ k v, (k, v) ∈ l → m !! k = Some v) →
  omap (λ k, m !! k) (l.*1) = l.*2.
Proof.
  induction l as [|[k v] l IH]; intros Hl; [done|].
  rewrite !fmap_cons. cbn [omap list_omap fst snd].
  rewrite (Hl k v) by left. f_equal. apply IH. intros k' v' Hin.
  apply Hl. by right.
Qed.

#[local] Instance newer_first_total : Total newer_first.
Proof. intros a b. unfold newer_first. lia. Qed.

#[local] Instance newer_first_trans : Transitive newer_first.
Proof. intros a b c. unfold newer_first. lia. Qed.

(** X12. [getAllEvents] answers the stored events, each once, newest
    first, and writes nothing: the answer is a permutation of the values
    stored in the event family, every event in it is not older than all
    that follow it, and the store is the one it was called on. *)
Theorem getAllEvents_spec st :
  ∃ events, getAllEvents st = (Ok events, st) ∧
    events ≡ₚ (map_to_list (event st)).*2 ∧
    StronglySorted newer_first events ∧
    (∀ ev, ev ∈ events ↔ ∃ e, event st !! e = Some ev).
Proof.
  exists (merge_sort newer_first ((map_to_list (event st)).*2)).
  split; [|split; [|split]].
  - unfold getAllEvents, bind, keys_event. cbn beta iota.
    rewrite collectEvents_run. cbn beta iota. unfold ret.
    rewrite omap_lookup_listing; [done|].
    intros k v. apply elem_of_map_to_list.
  - apply merge_sort_Permutation.
  - apply StronglySorted_merge_sort; apply _.
  - intros ev. rewrite merge_sort_Permutation, list_elem_of_fmap. split.
    + intros ([e ev'] & -> & Hin%elem_of_map_to_list). by exists e.
    + intros (e & He). exists (e, ev). split; [done|]. by apply elem_of_map_to_list.
Qed.

End AllEvents.
(** ** Strings, character by character *)

Section Strings.


Lemma append_cons c s t : String c s +:+ t = String c (s +:+ t).
Proof. done. Qed.

Lemma append_nil t : EmptyString +:+ t = t.
Proof. done. Qed.

Lemma chars_app s t : chars (s +:+ t) = chars s ++ chars t.
Proof.
  induction s as [|c s IH]; [done|].
  rewrite append_cons. cbn [chars]. by rewrite IH.
Qed.

Lemma prefix_spec sub s :
  String.prefix sub s = true ↔ ∃ post, s = sub +:+ post.
Proof.
  revert s. induction sub as [|c sub IH]; intros s.
  - split; [|by destruct s]. intros _. by exists s.
  - destruct s as [|c' s]; cbn [String.prefix].
    + split; [done|]. by intros (post & ?).
    + destruct (ascii_dec c c') as [->|Hne].
      * rewrite IH. split; intros (post & Hpost); exists post.
        -- by rewrite append_cons, Hpost.
        -- rewrite append_cons in Hpost. by injection Hpost.
      * split; [done|]. intros (post & Hpost).
        rewrite append_cons in Hpost. by injection Hpost as -> _.
Qed.

(** [includes] finds exactly the strings that have [sub] somewhere. *)
Lemma includes_spec s sub :
  ErrorHandler.includes s sub = true ↔ ∃ pre post, s = pre +:+ sub +:+ post.
Proof.
  split.
  - induction s as [|c s IH]; cbn [ErrorHandler.includes];
      intros [Hp|Hi]%orb_true_iff.
    + apply prefix_spec in Hp as (post & ->). by exists EmptyString, post.
    + done.
    + apply prefix_spec in Hp as (post & ->). by exists EmptyString, post.
    + destruct (IH Hi) as (pre & post & ->). by exists (String c pre), post.
  - intros (pre & post & ->). induction pre as [|c pre IH].
    + rewrite append_nil.
      assert (String.prefix sub (sub +:+ post) = true) as Hp
        by (apply prefix_spec; by exists post).
      destruct (sub +:+ post); cbn [ErrorHandler.includes]; by rewrite Hp.
    + rewrite append_cons. cbn [ErrorHandler.includes]. rewrite IH.
      apply orb_true_r.
Qed.

Lemma includes_app_l s t sub :
  ErrorHandler.includes s sub = true → ErrorHandler.includes (s +:+ t) sub = true.
Proof.
  rewrite !includes_spec. intros (pre & post & ->). exists pre, (post +:+ t).
  clear. induction pre as [|c pre IH].
  - rewrite !append_nil. induction sub as [|c sub IH]; [done|].
    rewrite !append_cons. by rewrite IH.
  - by rewrite !append_cons, IH.
Qed.

(** A phrase with a character that [s] does not have is not in [s]. *)
Lemma includes_absent c s sub :
  c ∈ chars sub → c ∉ chars s → ErrorHandler.includes s sub = false.
Proof.
  intros Hsub Hs. apply not_true_is_false. intros (pre & post & ->)%includes_spec.
  apply Hs. rewrite !chars_app, !elem_of_app. auto.
Qed.

Lemma pretty_N_go_chars x s c :
  c ∈ chars (pretty_N_go x s) → c ∈ chars "0123456789" ∨ c ∈ chars s.
Proof.
  revert s. induction (N.lt_wf_0 x) as [x _ IH]; intros s.
  destruct (decide (x = 0)%N) as [->|Hx].
  - rewrite pretty_N_go_0. auto.
  - rewrite pretty_N_go_step by lia. intros Hc.
    apply IH in Hc; [|apply N.div_lt; lia].
    destruct Hc as [Hc|Hc]; [by left|].
    cbn [chars] in Hc. apply elem_of_cons in Hc as [->|Hc]; [|by right].
    left. unfold pretty_N_char. repeat case_match; set_solver.
Qed.

(** A rendered integer has digits and the minus sign only. *)
Lemma pretty_Z_chars (z : Z) c :
  c ∈ chars (pretty z) → c ∈ chars "-0123456789".
Proof.
  assert (Hpos : ∀ p : positive, c ∈ chars (pretty p) → c ∈ chars "0123456789").
  { intros p. unfold pretty, pretty_positive, pretty, pretty_N.
    rewrite decide_False by done. intros [Hc|Hc]%pretty_N_go_chars; [done|].
    by apply elem_of_nil in Hc. }
  unfold pretty, pretty_Z. destruct z as [|p|p].
  - intros Hc. set_solver.
  - intros Hc%Hpos. set_solver.
  - change ("-" +:+ pretty p) with (String "-" (pretty p)).
    cbn [chars]. intros [->|Hc%Hpos]%elem_of_cons; set_solver.
Qed.

End Strings.

(** ** The error middleware *)

Section Middleware.

Import ErrorHandler.

Lemma quota_message_includes max sub :
  includes (error_message (QuotaExceeded max)) sub = true →
  ∀ c, c ∈ chars sub → c ∈ chars "User can hold maximum -0123456789 seats".
Proof.
  intros (pre & post & Heq)%includes_spec c Hc.
  assert (c ∈ chars (error_message (QuotaExceeded max))) as Hin.
  { rewrite Heq, !chars_app, !elem_of_app. auto. }
  unfold error_message in Hin. rewrite !chars_app, !elem_of_app in Hin.
  destruct Hin as [Hin|[Hin%pretty_Z_chars|Hin]];
    change (chars "User can hold maximum -0123456789 seats")
      with (chars "User can hold maximum " ++ chars "-0123456789" ++ chars " seats");
    rewrite !elem_of_app; auto.
Qed.

Lemma quota_message_excludes max sub c :
  bool_decide (c ∈ chars sub) = true →
  bool_decide (c ∈ chars "User can hold maximum -0123456789 seats") = false →
  includes (error_message (QuotaExceeded max)) sub = false.
Proof.
  intros Hc%bool_decide_eq_true Hnot%bool_decide_eq_false. apply not_true_is_false. intros Hin.
  apply Hnot. by eapply quota_message_includes.
Qed.

Lemma errorHandler_success env err : success (errorHandler env err) = false.
Proof.
  unfold errorHandler.
  destruct (decide (err_name err = "ValidationError")); [done|].
  destruct (decide (err_name err = "CastError")); [done|].
  by repeat case_match.
Qed.

Lemma thrown_response env e stk :
  let r := errorHandler env (thrown e stk) in
  statusCode r =
    match e with
    | EventNotFound | SeatNotFound => 404
    | EventAlreadyExists | SeatNotAvailable | HeldByAnotherUser | HoldExpired => 409
    | InvalidSeatCount | InvalidSeatNumber => 400
    | QuotaExceeded _ => 429
    | SeatNotHeld | LockContention | UniqueViolation => 500
    end ∧
  error r =
    match e with
    | SeatNotHeld | LockContention | UniqueViolation => "Internal server error"
    | _ => error_message e
    end.
Proof.
  cbn zeta. unfold errorHandler, thrown. cbn [err_name err_message].
  rewrite decide_False by (by destruct e). rewrite decide_False by (by destruct e).
  assert (Hprod : ∀ c m, c ≠ 500 →
    (if decide (env = Some "production" ∧ c = 500)
     then "Internal server error" else m) = m).
  { intros c m Hc. rewrite decide_False; [done|]. by intros [_ ?]. }
  assert (H500 :
    (if decide (env = Some "production" ∧ 500 = 500)
     then "Internal server error" else "Internal server error")
    = "Internal server error") by (by case_decide).
  destruct e as [| | | | | |max| | | | |];
    try (cbn [error_message];
         repeat match goal with
         | |- context [includes ?m ?s] =>
             let b := eval vm_compute in (includes m s) in
             replace (includes m s) with b by (vm_compute; reflexivity)
         end;
         cbn [orb statusCode error success];
         rewrite ?H500, ?Hprod by done; done).
  rewrite (quota_message_excludes max "not found" "f") by (by vm_compute).
  rewrite (quota_message_excludes max "already exists" "y") by (by vm_compute).
  rewrite (quota_message_excludes max "not available" "v") by (by vm_compute).
  rewrite (quota_message_excludes max "held by another user" "b") by (by vm_compute).
  rewrite (quota_message_excludes max "has expired" "p") by (by vm_compute).
  rewrite (quota_message_excludes max "Invalid" "I") by (by vm_compute).
  rewrite (quota_message_excludes max "must be between" "b") by (by vm_compute).
  assert (includes (error_message (QuotaExceeded max)) "maximum" = true) as ->.
  { unfold error_message. by apply includes_app_l. }
  cbn [orb statusCode error success]. by rewrite Hprod.
Qed.

(** X13. What a caller sees of each service error. An error thrown by a
    service reaches [errorHandler] with the name [Error]; whatever the
    environment, the not-found errors answer 404, the conflicts (event
    exists, seat not available, held by another user, hold expired) 409,
    the invalid seat count and seat number 400 and the quota error, for
    every quota, 429, each with the message of the error; the not-held
    error and the lock-contention error match no phrase and answer 500 with
    the generic message, and so does the error of the database driver for
    a second reservation row. *)
Theorem errorHandler_service_errors env e stk :
  let r := errorHandler env (thrown e stk) in
  statusCode r =
    match e with
    | EventNotFound | SeatNotFound => 404
    | EventAlreadyExists | SeatNotAvailable | HeldByAnotherUser | HoldExpired => 409
    | InvalidSeatCount | InvalidSeatNumber => 400
    | QuotaExceeded _ => 429
    | SeatNotHeld | LockContention | UniqueViolation => 500
    end ∧
  error r =
    match e with
    | SeatNotHeld | LockContention | UniqueViolation => "Internal server error"
    | _ => error_message e
    end ∧
  success r = false.
Proof.
  destruct (thrown_response env e stk) as [Hstatus Herror]. cbn zeta.
  split; [exact Hstatus|]. split; [exact Herror|]. apply errorHandler_success.
Qed.

Lemma respond_shape env err c m :
  c ∈ [400; 404; 409; 429; 500] →
  (c = 500 → m = "Internal server error") →
  (c ≠ 500 →
     m = err_message err ∨
     (c = 400 ∧
      (err_name err = "ValidationError" ∧ m = "Validation error" ∨
       err_name err = "CastError" ∧ m = "Invalid data format"))) →
  let r := mkErrorResponse c false
             (if decide (env = Some "production" ∧ c = 500)
              then "Internal server error" else m) None
             (if decide (env = Some "development") then err_stack err else None) in
  statusCode r ∈ [400; 404; 409; 429; 500] ∧
  (statusCode r = 500 → error r = "Internal server error") ∧
  (statusCode r ≠ 500 →
     error r = err_message err ∨
     (statusCode r = 400 ∧
      (err_name err = "ValidationError" ∧ error r = "Validation error" ∨
       err_name err = "CastError" ∧ error r = "Invalid data format"))) ∧
  success r = false ∧ details r = None ∧
  (env ≠ Some "development" → stack r = None) ∧
  (env = Some "development" → stack r = err_stack err).
Proof.
  intros Hc H500 Hm. cbn zeta. cbn [statusCode error success details stack].
  split; [done|]. split; [intros ?; case_decide; auto|].
  split; [intros ?; rewrite decide_False by (by intros [_ ?]); auto|].
  split; [done|]. split; [done|].
  split; [intros ?; by rewrite decide_False|intros ?; by rewrite decide_True].
Qed.

(** X14. What [errorHandler] never does. For every error and environment:
    the status is one of 400, 404, 409, 429 and 500; a 500 carries the
    generic message, in every environment, so a message that matches no
    phrase is never shown to the caller; any other answer carries the
    error's own message or one of the two fixed validation texts; the body
    has no details, and has the stack only in the development
    environment. *)
Theorem errorHandler_shape env err :
  let r := errorHandler env err in
  statusCode r ∈ [400; 404; 409; 429; 500] ∧
  (statusCode r = 500 → error r = "Internal server error") ∧
  (statusCode r ≠ 500 →
     error r = err_message err ∨
     (statusCode r = 400 ∧
      (err_name err = "ValidationError" ∧ error r = "Validation error" ∨
       err_name err = "CastError" ∧ error r = "Invalid data format"))) ∧
  success r = false ∧ details r = None ∧
  (env ≠ Some "development" → stack r = None) ∧
  (env = Some "development" → stack r = err_stack err).
Proof.
  unfold errorHandler.
  destruct (decide (err_name err = "ValidationError"));
    [apply respond_shape; [set_solver|done|auto]|].
  destruct (decide (err_name err = "CastError"));
    [apply respond_shape; [set_solver|done|auto]|].
  destruct (includes (err_message err) "not found");
    [apply respond_shape; [set_solver|done|auto]|].
  destruct (includes (err_message err) "already exists");
    [apply respond_shape; [set_solver|done|auto]|].
  destruct (includes (err_message err) "not available" ||
            includes (err_message err) "held by another user" ||
            includes (err_message err) "has expired");
    [apply respond_shape; [set_solver|done|auto]|].
  destruct (includes (err_message err) "Invalid" ||
            includes (err_message err) "must be between");
    [apply respond_shape; [set_solver|done|auto]|].
  destruct (includes (err_message err) "maximum");
    apply respond_shape; (set_solver || done || auto).
Qed.

End Middleware.

(** ** Keys and identifiers *)

Section Keys.

Lemma split_first_colon a b a' b' :
  ":"%char ∉ chars a → ":"%char ∉ chars a' →
  a +:+ ":" +:+ b = a' +:+ ":" +:+ b' → a = a' ∧ b = b'.
Proof.
  revert a'. induction a as [|c a IH]; intros [|c' a'] Ha Ha';
    rewrite ?append_cons, ?append_nil; intros Heq.
  - by injection Heq.
  - injection Heq as <- _. exfalso. apply Ha'. by left.
  - injection Heq as -> _. exfalso. apply Ha. by left.
  - injection Heq as -> Heq. cbn [chars] in Ha, Ha'.
    apply not_elem_of_cons in Ha as [_ Ha], Ha' as [_ Ha'].
    by destruct (IH a' Ha Ha' Heq) as [-> ->].
Qed.

Lemma split_last_colon a b a' b' :
  ":"%char ∉ chars b → ":"%char ∉ chars b' →
  a +:+ ":" +:+ b = a' +:+ ":" +:+ b' → a = a' ∧ b = b'.
Proof.
  intros Hb Hb'. revert a'. induction a as [|c a IH]; intros [|c' a'];
    rewrite ?append_cons, ?append_nil; intros Heq.
  - by injection Heq.
  - injection Heq as _ ->. exfalso. apply Hb.
    rewrite chars_app, elem_of_app. right. by left.
  - injection Heq as _ <-. exfalso. apply Hb'.
    rewrite chars_app, elem_of_app. right. by left.
  - injection Heq as -> Heq. by destruct (IH a' Heq) as [-> ->].
Qed.

Lemma pretty_Z_no_colon (z : Z) : ":"%char ∉ chars (pretty z).
Proof.
  intros Hc%pretty_Z_chars.
  by apply (bool_decide_eq_false_1 (":"%char ∈ chars "-0123456789")) in Hc.
Qed.

Lemma numbered_key_inj e (n : Z) e' (n' : Z) :
  e +:+ ":" +:+ pretty n = e' +:+ ":" +:+ pretty n' → e = e' ∧ n = n'.
Proof.
  intros [-> Hn]%split_last_colon; try apply pretty_Z_no_colon.
  split; [done|]. by apply (inj pretty).
Qed.

Lemma hex_run_spec n s rest :
  Validation.hex_run n s = Some rest →
  ∃ pre, s = pre +:+ rest ∧ String.length pre = n ∧
         Forall (λ c, Validation.is_hex c = true) (chars pre).
Proof.
  revert s. induction n as [|n IH]; intros s; cbn [Validation.hex_run].
  - intros [= ->]. by exists EmptyString.
  - destruct s as [|c s]; [done|]. destruct (Validation.is_hex c) eqn:Ec; [|done].
    intros (pre & -> & <- & Hpre)%IH. exists (String c pre).
    split; [done|]. split; [done|]. by constructor.
Qed.

Lemma dash_spec s rest : Validation.dash s = Some rest → s = "-" +:+ rest.
Proof.
  destruct s as [|c s]; [done|]. cbn [Validation.dash].
  repeat case_match; try done. by intros [= ->].
Qed.

Lemma length_app s t : String.length (s +:+ t) = (String.length s + String.length t)%nat.
Proof. induction s as [|c s IH]; [done|]. rewrite append_cons. cbn. by rewrite IH. Qed.

(** An accepted identifier has 36 characters, hex digits and dashes. *)
Lemma isUUID_chars value :
  Validation.isUUID value = true →
  String.length value = 36%nat ∧
  Forall (λ c, Validation.is_hex c = true ∨ c = "-"%char) (chars value).
Proof.
  unfold Validation.isUUID.
  destruct (Validation.hex_run 8 value) as [r1|] eqn:E1; [|done]. cbn [mbind option_bind].
  destruct (Validation.dash r1) as [r2|] eqn:E2; [|done]. cbn [mbind option_bind].
  destruct (Validation.hex_run 4 r2) as [r3|] eqn:E3; [|done]. cbn [mbind option_bind].
  destruct (Validation.dash r3) as [r4|] eqn:E4; [|done]. cbn [mbind option_bind].
  destruct (Validation.hex_run 4 r4) as [r5|] eqn:E5; [|done]. cbn [mbind option_bind].
  destruct (Validation.dash r5) as [r6|] eqn:E6; [|done]. cbn [mbind option_bind].
  destruct (Validation.hex_run 4 r6) as [r7|] eqn:E7; [|done]. cbn [mbind option_bind].
  destruct (Validation.dash r7) as [r8|] eqn:E8; [|done]. cbn [mbind option_bind].
  destruct (Validation.hex_run 12 r8) as [[|??]|] eqn:E9; [|done..]. intros _.
  apply hex_run_spec in E1 as (p1 & -> & L1 & F1), E3 as (p3 & -> & L3 & F3),
    E5 as (p5 & -> & L5 & F5), E7 as (p7 & -> & L7 & F7), E9 as (p9 & -> & L9 & F9).
  apply dash_spec in E2 as ->, E4 as ->, E6 as ->, E8 as ->.
  split.
  - rewrite !length_app, L1, L3, L5, L7, L9. done.
  - rewrite !chars_app, !Forall_app. cbn [chars].
    repeat split; try (eapply Forall_impl; [eassumption|by left]);
      try (constructor; [by right|constructor]); by constructor.
Qed.

Lemma isUUID_no_colon value :
  Validation.isUUID value = true → ":"%char ∉ chars value.
Proof.
  intros [_ Hall]%isUUID_chars Hin.
  rewrite Forall_forall in Hall. by destruct (Hall _ Hin).
Qed.

Lemma key_prefixes_differ t1 t2 t3 t4 t5 t6 :
  NoDup ["event:" +:+ t1; "seat:" +:+ t2; "user_holds:" +:+ t3;
         "event_seats:" +:+ t4; "seat_hold:" +:+ t5; "seat_reserved:" +:+ t6].
Proof.
  cbv [String.append].
  repeat (apply NoDup_cons; split;
          [rewrite ?elem_of_cons, elem_of_nil; intros H; repeat destruct H as [H|H]; done|]).
  apply NoDup_nil_2.
Qed.

(** X15. Keys of different families never coincide: for all identifiers
    and seat numbers, the six keys built by [RedisKeys] are pairwise
    distinct. *)
Theorem RedisKeys_families_disjoint e1 e2 n2 u3 e3 e4 e5 n5 e6 n6 :
  NoDup [RedisKeys.event e1; RedisKeys.seat e2 n2; RedisKeys.userHolds u3 e3;
         RedisKeys.eventSeats e4; RedisKeys.seatHold e5 n5;
         RedisKeys.seatReserved e6 n6].
Proof. apply key_prefixes_differ. Qed.

(** X16. Within a family, a key determines what it was built from: the
    event and seat-index keys determine the event id; the seat, lease and
    reservation keys determine the event id and the seat number, whatever
    the event id is; the key of a holder's set determines the holder and
    the event when the holder ids have no colon, which ids accepted by
    [isUUID] never have. Holder ids with a colon can share a set. *)
Theorem RedisKeys_injective :
  (∀ e e', RedisKeys.event e = RedisKeys.event e' → e = e') ∧
  (∀ e e', RedisKeys.eventSeats e = RedisKeys.eventSeats e' → e = e') ∧
  (∀ e n e' n', RedisKeys.seat e n = RedisKeys.seat e' n' → e = e' ∧ n = n') ∧
  (∀ e n e' n', RedisKeys.seatHold e n = RedisKeys.seatHold e' n' → e = e' ∧ n = n') ∧
  (∀ e n e' n',
     RedisKeys.seatReserved e n = RedisKeys.seatReserved e' n' → e = e' ∧ n = n') ∧
  (∀ u e u' e', ":"%char ∉ chars u → ":"%char ∉ chars u' →
     RedisKeys.userHolds u e = RedisKeys.userHolds u' e' → u = u' ∧ e = e') ∧
  (∀ u, Validation.isUUID u = true → ":"%char ∉ chars u) ∧
  RedisKeys.userHolds "a:b" "c" = RedisKeys.userHolds "a" "b:c".
Proof.
  unfold RedisKeys.event, RedisKeys.eventSeats, RedisKeys.seat, RedisKeys.seatHold,
    RedisKeys.seatReserved, RedisKeys.userHolds.
  split; [intros e e' H; by apply (inj (String.app _)) in H|].
  split; [intros e e' H; by apply (inj (String.app _)) in H|].
  split; [intros e n e' n' H; apply (inj (String.app _)) in H; by apply numbered_key_inj|].
  split; [intros e n e' n' H; apply (inj (String.app _)) in H; by apply numbered_key_inj|].
  split; [intros e n e' n' H; apply (inj (String.app _)) in H; by apply numbered_key_inj|].
  split; [intros u e u' e' Hu Hu' H; apply (inj (String.app _)) in H;
          by apply split_first_colon in H|].
  split; [apply isUUID_no_colon|done].
Qed.

End Keys.

(** ** The gated service, call by call *)

Section GatedHold.

Import EnhancedSeatService.

Variable maxHoldsPerUser : Z.


End GatedHold.

(** ** The further properties at work on the event with ten seats *)

Section MoreInstances.

Import SeatService Examples.

Lemma createEvent_spec_witness :
  createEvent 5000 "concert" 20 "Again" "Hall" (store seat3_held)
  = (Err EventAlreadyExists, store seat3_held).
Proof.
  apply (proj1 (proj2 (createEvent_spec quota (store seat3_held) 5000 "concert" 20
                         "Again" "Hall" (store_reachable seat3_held)))).
  - lia.
  - vm_compute. by eexists.
Defined.

Lemma createEvent_then_list_witness :
  getAvailableSeats 7000 "recital" (createEvent 5000 "recital" 12 "Recital" "Hall"
                                       (store seat3_held)).2
  = (Ok (seqZ 1 12), (createEvent 5000 "recital" 12 "Recital" "Hall" (store seat3_held)).2).
Proof.
  apply (createEvent_then_list quota (store seat3_held) 5000 "recital" 12 "Recital" "Hall"
           (mkEvent "recital" "Recital" "Hall" 12 5000 active)).
  - apply store_reachable.
  - by vm_compute.
Defined.

Lemma getAvailableSeats_reads_only_witness :
  getAvailableSeats 2000 "opera" (store seat3_held) = (Err EventNotFound, store seat3_held).
Proof.
  apply (proj1 (getAvailableSeats_reads_only (store seat3_held) 2000 "opera")).
  by vm_compute.
Defined.

Lemma reachable_layout_witness :
  is_Some (seat_at (store seat3_held) "concert" 7) ↔ 1 ≤ 7 ≤ 10.
Proof.
  apply (proj1 (reachable_layout quota (store seat3_held) (store_reachable seat3_held))
           "concert" (mkEvent "concert" "Concert" "Hall" 10 0 active)).
  by vm_compute.
Defined.

Lemma holder_set_exact_witness :
  getUserHoldCount "concert" "alice" (store five_held) = (Ok 5, store five_held).
Proof.
  destruct (holder_set_exact quota five_held "alice" "concert") as [Hcount _].
  - apply (bool_decide_unpack _). by vm_compute.
  - done.
  - apply (bool_decide_unpack _). by vm_compute.
  - apply (bool_decide_unpack _). by vm_compute.
  - exact Hcount.
Defined.

Lemma quota_never_exceeded_witness :
  ∃ c, getUserHoldCount "concert" "alice" (store five_held) = (Ok c, store five_held) ∧
       0 ≤ c ≤ quota.
Proof.
  apply (quota_never_exceeded quota (store five_held) "alice" "concert").
  - by vm_compute.
  - apply store_reachable.
Defined.

Lemma reservation_records_witness :
  seatReserved (run quota [ReleaseSeat "concert" 3; HoldSeat 3000 0 "concert" 3 "bob" 60]
                  (store seat3_reserved)) !! ("concert", 3)
  = Some (mkSeatReservation "concert" 3 "alice" 2000).
Proof.
  apply (proj2 (reservation_records quota (store seat3_reserved)
                  (store_reachable seat3_reserved))).
  by vm_compute.
Defined.

Lemma refreshSeatHold_spec_witness :
  (is_ok (refreshSeatHold 2000 0 "concert" 3 "alice" 90 (store seat3_held)).1 = true ↔
   ∃ h, live_hold (store seat3_held) 2000 "concert" 3 = Some h ∧
        hold_userId h = "alice" ∧ ¬ expiresAt h < 2000) ∧
  ∃ seat, seat_at (store seat3_held_late) "concert" 3 = Some seat ∧ status seat = held ∧
          seat_at (refreshSeatHold 61003 0 "concert" 3 "alice" 90
                     (store seat3_held_late)).2 "concert" 3
            = Some (released_seat seat) ∧
          seatHold (refreshSeatHold 61003 0 "concert" 3 "alice" 90
                      (store seat3_held_late)).2 !! ("concert", 3) = None.
Proof.
  split.
  - apply (proj1 (refreshSeatHold_spec quota (store seat3_held) 2000 0 "concert" 3
                    "alice" 90)).
  - apply (proj2 (proj2 (refreshSeatHold_spec quota (store seat3_held_late) 61003 0
                           "concert" 3 "alice" 90)) HoldExpired).
    + by vm_compute.
    + apply store_reachable.
Defined.

Lemma hold_then_reserve_witness :
  (reserveSeat 61000 "concert" 3 "alice" (store seat3_held_late)).1
    = Ok (mkSeatReservation "concert" 3 "alice" 61000) ∧
  (∃ st', releaseSeat "concert" 3 (store seat3_held_late) = (Ok (), st') ∧
          (status <$> seat_at st' "concert" 3) = Some available ∧
          reserveSeat 61003 "concert" 3 "alice" (store seat3_held_late)
            = (Err HoldExpired, st') ∧
          refreshSeatHold 61003 0 "concert" 3 "alice" 60 (store seat3_held_late)
            = (Err HoldExpired, st')) ∧
  reserveSeat 61006 "concert" 3 "alice" (store seat3_held_late)
    = (Err SeatNotHeld, store seat3_held_late).
Proof.
  split; [|split].
  - apply (proj1 (hold_then_reserve quota (store opened) 1000 5 "concert" 3 "alice" 60
                    (mkSeatHold "concert" 3 "alice" 1000 61000) (store seat3_held_late)
                    61000 0 "bob" 60 ltac:(lia) ltac:(by vm_compute))).
    lia.
  - apply (proj1 (proj2 (hold_then_reserve quota (store opened) 1000 5 "concert" 3
                    "alice" 60
                    (mkSeatHold "concert" 3 "alice" 1000 61000) (store seat3_held_late)
                    61003 0 "bob" 60 ltac:(lia) ltac:(by vm_compute)))).
    lia.
  - apply (proj2 (proj2 (proj2 (hold_then_reserve quota (store opened) 1000 5 "concert" 3
                    "alice" 60
                    (mkSeatHold "concert" 3 "alice" 1000 61000) (store seat3_held_late)
                    61006 0 "alice" 60 ltac:(lia) ltac:(by vm_compute))))).
    lia.
Defined.

Lemma expired_hold_blocks_until_read_witness :
  holdSeat quota 70000 0 "concert" 3 "bob" 60 (store seat3_held)
    = (Err SeatNotAvailable, store seat3_held) ∧
  (getSeatStatus 61000 "concert" 3 (store seat3_held)).2 = store seat3_held ∧
  ∃ st3, holdSeat quota 70000 0 "concert" 3 "bob" 60
           (getSeatStatus 61001 "concert" 3 (store seat3_held)).2
         = (Ok (mkSeatHold "concert" 3 "bob" 70000 (70000 + 60 * 1000)), st3).
Proof.
  split; [|split].
  - apply (proj1 (expired_hold_blocks_until_read quota (store opened) 1000 0 "concert" 3
                    "alice" 60 (mkSeatHold "concert" 3 "alice" 1000 61000)
                    (store seat3_held) ltac:(by vm_compute))).
  - apply (proj1 (proj2 (expired_hold_blocks_until_read quota (store opened) 1000 0
                    "concert" 3 "alice" 60 (mkSeatHold "concert" 3 "alice" 1000 61000)
                    (store seat3_held) ltac:(by vm_compute)))).
    lia.
  - apply (proj2 (proj2 (expired_hold_blocks_until_read quota (store opened) 1000 0
                    "concert" 3 "alice" 60 (mkSeatHold "concert" 3 "alice" 1000 61000)
                    (store seat3_held) ltac:(by vm_compute))) 61001 70000 0 "bob" 60).
    + lia.
    + by vm_compute.
Defined.

Lemma getSeatStatus_answer_witness :
  getSeatStatus 2000 "concert" 11 (store seat3_held) = (Err SeatNotFound, store seat3_held).
Proof.
  apply (proj1 (getSeatStatus_answer (store seat3_held) 2000 "concert" 11)).
  by vm_compute.
Defined.

Lemma errorHandler_shape_witness :
  ErrorHandler.error
    (ErrorHandler.errorHandler (Some "development")
       (ErrorHandler.thrown SeatNotHeld (Some "at reserveSeat")))
  = "Internal server error".
Proof.
  apply (proj1 (proj2 (errorHandler_shape (Some "development")
                         (ErrorHandler.thrown SeatNotHeld (Some "at reserveSeat"))))).
  by vm_compute.
Defined.

Lemma RedisKeys_injective_witness : "alice" = "alice" ∧ "concert" = "concert".
Proof.
  apply (proj1 (proj2 (proj2 (proj2 (proj2 (proj2 RedisKeys_injective)))))
           "alice" "concert" "alice" "concert").
  - apply (bool_decide_unpack (":"%char ∉ chars "alice")). by vm_compute.
  - apply (bool_decide_unpack (":"%char ∉ chars "alice")). by vm_compute.
  - done.
Defined.

Lemma overlapping_holds_race_witness :
  ∃ st',
    interleave quota [0; 1; 0; 1; 0; 1; 0; 1; 0; 1; 0; 1]%nat
      ([(mkHoldCall 1000 0 "concert" 4 "bob" 60, AwaitGetEvent);
        (mkHoldCall 1001 0 "concert" 4 "carol" 30, AwaitGetEvent)], store seat3_held)
    = ([(mkHoldCall 1000 0 "concert" 4 "bob" 60,
         Settled (Ok (mkSeatHold "concert" 4 "bob" 1000 61000)));
        (mkHoldCall 1001 0 "concert" 4 "carol" 30,
         Settled (Ok (mkSeatHold "concert" 4 "carol" 1001 (1001 + 30 * 1000))))], st').
Proof.
  apply (overlapping_holds_race quota (store seat3_held) "concert" 4
           (mkEvent "concert" "Concert" "Hall" 10 0 active)
           (mkSeat "concert" 4 available None None None) 1000 0 "bob" 60 1001 0 "carol"
           30);
    by vm_compute.
Defined.



End MoreInstances.

(** ** The fan-out bookkeeping *)

Section FanOut.

Import WebSocketService.

Implicit Types (s : Service) (c : string).

Lemma split_plain id : ":"%char ∉ chars id → split ":" id = [id].
Proof.
  induction id as [|a id IH]; [done|]. cbn [chars split].
  intros [Ha Hid]%not_elem_of_cons. rewrite decide_False by done.
  by rewrite (IH Hid).
Qed.

Lemma split_head_plain (str : string) :
  ∃ seg rest, split ":" str = seg :: rest ∧ ":"%char ∉ chars seg.
Proof.
  induction str as [|a str (seg & rest & IH & Hseg)]; cbn [split].
  - exists EmptyString, []. split; [done|]. apply not_elem_of_nil.
  - destruct (decide (a = ":"%char)) as [->|Ha].
    + exists EmptyString, (split ":" str). split; [done|]. apply not_elem_of_nil.
    + rewrite IH. exists (String a seg), rest. split; [done|].
      cbn [chars]. by apply not_elem_of_cons.
Qed.

Lemma split_event id :
  split ":" ("event:" +:+ id) !! 1%nat = head (split ":" id).
Proof.
  change ("event:" +:+ id)
    with (String "e" (String "v" (String "e" (String "n" (String "t" (String ":" id)))))).
  cbn [split]. repeat (rewrite decide_False by done). rewrite decide_True by done.
  by destruct (split ":" id).
Qed.

Lemma split_user id :
  split ":" ("user:" +:+ id) !! 1%nat = head (split ":" id).
Proof.
  change ("user:" +:+ id)
    with (String "u" (String "s" (String "e" (String "r" (String ":" id))))).
  cbn [split]. repeat (rewrite decide_False by done). rewrite decide_True by done.
  by destruct (split ":" id).
Qed.

Lemma prefix_event id : String.prefix "event:" ("event:" +:+ id) = true.
Proof. apply prefix_spec. by exists id. Qed.

Lemma prefix_user id : String.prefix "user:" ("user:" +:+ id) = true.
Proof. apply prefix_spec. by exists id. Qed.

Lemma prefix_event_user id : String.prefix "event:" ("user:" +:+ id) = false.
Proof. done. Qed.

Lemma event_user_differ a b : "event:" +:+ a ≠ "user:" +:+ b.
Proof. done. Qed.

(** No segment of a split has the separator. *)
Lemma split_segments_plain (str seg : string) :
  seg ∈ split ":" str → ":"%char ∉ chars seg.
Proof.
  revert seg. induction str as [|a str IH]; intros seg; cbn [split].
  - intros ->%list_elem_of_singleton. apply not_elem_of_nil.
  - destruct (decide (a = ":"%char)) as [->|Ha].
    + intros [->|Hin]%elem_of_cons; [apply not_elem_of_nil|by apply IH].
    + destruct (split ":" str) as [|seg0 segs].
      * intros ->%list_elem_of_singleton. cbn [chars].
        apply not_elem_of_cons. split; [done|apply not_elem_of_nil].
      * intros [->|Hin]%elem_of_cons.
        -- cbn [chars]. apply not_elem_of_cons. split; [done|]. apply IH. by left.
        -- apply IH. by right.
Qed.

Lemma second_segment_plain (sub k : string) :
  split ":" sub !! 1%nat = Some k → ":"%char ∉ chars k.
Proof. intros Hk. eapply split_segments_plain. by eapply list_elem_of_lookup_2. Qed.

(** *** What the loop of [handleDisconnection] does to the indexes *)

Lemma forget_frame c sub s :
  connections (forget c sub s) = connections s ∧ sent (forget c sub s) = sent s.
Proof. unfold forget. by repeat case_match. Qed.

Lemma forget_events c sub s k x :
  (x ∈ default ∅ (eventSubscriptions (forget c sub s) !! JsString k) →
   x ∈ default ∅ (eventSubscriptions s !! JsString k)) ∧
  (x ∈ default ∅ (eventSubscriptions s !! JsString k) → x ≠ c →
   x ∈ default ∅ (eventSubscriptions (forget c sub s) !! JsString k)) ∧
  (c ∉ default ∅ (eventSubscriptions s !! JsString k) →
   c ∉ default ∅ (eventSubscriptions (forget c sub s) !! JsString k)) ∧
  (String.prefix "event:" sub = true → split ":" sub !! 1%nat = Some k →
   c ∉ default ∅ (eventSubscriptions (forget c sub s) !! JsString k)) ∧
  (":"%char ∈ chars k →
   eventSubscriptions (forget c sub s) !! JsString k = eventSubscriptions s !! JsString k).
Proof.
  unfold forget.
  destruct (String.prefix "event:" sub) eqn:Ep.
  - destruct (split ":" sub !! 1%nat) as [k'|] eqn:Ek; cbn [eventSubscriptions].
    + unfold index_delete. destruct (decide (k' = k)) as [->|Hk].
      * rewrite lookup_alter_eq.
        destruct (eventSubscriptions s !! JsString k) as [X|]; cbn [fmap option_fmap option_map default].
        -- repeat split; try set_solver;
             intros Hc; by destruct (second_segment_plain _ _ Ek).
        -- repeat split; try set_solver;
             intros Hc; by destruct (second_segment_plain _ _ Ek).
      * rewrite lookup_alter_ne by congruence. repeat split; try done. congruence.
    + repeat split; try done.
  - destruct (String.prefix "user:" sub);
      [destruct (split ":" sub !! 1%nat)|]; cbn [eventSubscriptions]; by repeat split.
Qed.

Lemma forget_users c sub s k x :
  (x ∈ default ∅ (userSubscriptions (forget c sub s) !! JsString k) →
   x ∈ default ∅ (userSubscriptions s !! JsString k)) ∧
  (x ∈ default ∅ (userSubscriptions s !! JsString k) → x ≠ c →
   x ∈ default ∅ (userSubscriptions (forget c sub s) !! JsString k)) ∧
  (c ∉ default ∅ (userSubscriptions s !! JsString k) →
   c ∉ default ∅ (userSubscriptions (forget c sub s) !! JsString k)) ∧
  (String.prefix "event:" sub = false → String.prefix "user:" sub = true →
   split ":" sub !! 1%nat = Some k →
   c ∉ default ∅ (userSubscriptions (forget c sub s) !! JsString k)) ∧
  (":"%char ∈ chars k →
   userSubscriptions (forget c sub s) !! JsString k = userSubscriptions s !! JsString k).
Proof.
  unfold forget.
  destruct (String.prefix "event:" sub) eqn:Ep.
  { destruct (split ":" sub !! 1%nat); cbn [userSubscriptions]; by repeat split. }
  destruct (String.prefix "user:" sub) eqn:Eu; [|by repeat split].
  destruct (split ":" sub !! 1%nat) as [k'|] eqn:Ek; cbn [userSubscriptions].
  - unfold index_delete. destruct (decide (k' = k)) as [->|Hk].
    + rewrite lookup_alter_eq.
      destruct (userSubscriptions s !! JsString k) as [X|]; cbn [fmap option_fmap option_map default].
      * repeat split; try set_solver;
             intros Hc; by destruct (second_segment_plain _ _ Ek).
      * repeat split; try set_solver;
             intros Hc; by destruct (second_segment_plain _ _ Ek).
    + rewrite lookup_alter_ne by congruence. repeat split; try done. congruence.
  - repeat split; try done.
Qed.


Lemma forget_fold c l s :
  let s' := foldr (forget c) s l in
  connections s' = connections s ∧ sent s' = sent s ∧
  (∀ k x,
     (x ∈ default ∅ (eventSubscriptions s' !! JsString k) →
      x ∈ default ∅ (eventSubscriptions s !! JsString k)) ∧
     (x ∈ default ∅ (eventSubscriptions s !! JsString k) → x ≠ c →
      x ∈ default ∅ (eventSubscriptions s' !! JsString k)) ∧
     ("event:" +:+ k ∈ l → (":"%char ∉ chars k) →
      c ∉ default ∅ (eventSubscriptions s' !! JsString k)) ∧
     (":"%char ∈ chars k → eventSubscriptions s' !! JsString k = eventSubscriptions s !! JsString k)) ∧
  (∀ k x,
     (x ∈ default ∅ (userSubscriptions s' !! JsString k) →
      x ∈ default ∅ (userSubscriptions s !! JsString k)) ∧
     (x ∈ default ∅ (userSubscriptions s !! JsString k) → x ≠ c →
      x ∈ default ∅ (userSubscriptions s' !! JsString k)) ∧
     ("user:" +:+ k ∈ l → (":"%char ∉ chars k) →
      c ∉ default ∅ (userSubscriptions s' !! JsString k)) ∧
     (":"%char ∈ chars k → userSubscriptions s' !! JsString k = userSubscriptions s !! JsString k)).
Proof.
  cbn zeta. induction l as [|sub l (IHc & IHs & IHe & IHu)]; cbn [foldr].
  - split; [done|]. split; [done|].
    split; intros k x; (split; [done|]); (split; [done|]);
      (split; [by intros ?%elem_of_nil|done]).
  - destruct (forget_frame c sub (foldr (forget c) s l)) as [-> ->].
    split; [done|]. split; [done|]. split; intros k x.
    + destruct (IHe k x) as (I1 & I2 & I3 & I4).
      destruct (forget_events c sub (foldr (forget c) s l) k x) as (F1 & F2 & F3 & F4 & F5).
      split; [auto|]. split; [auto|]. split.
      * intros [<-|Hin]%elem_of_cons Hk.
        -- apply F4; [apply prefix_event|]. by rewrite split_event, split_plain.
        -- auto.
      * intros Hk. by rewrite F5, I4.
    + destruct (IHu k x) as (I1 & I2 & I3 & I4).
      destruct (forget_users c sub (foldr (forget c) s l) k x) as (F1 & F2 & F3 & F4 & F5).
      split; [auto|]. split; [auto|]. split.
      * intros [<-|Hin]%elem_of_cons Hk.
        -- apply F4; [apply prefix_event_user|apply prefix_user|].
           by rewrite split_user, split_plain.
        -- auto.
      * intros Hk. by rewrite F5, I4.
Qed.

Lemma handleDisconnection_effect c s connection :
  connections s !! c = Some connection →
  let s' := handleDisconnection c s in
  connections s' = delete c (connections s) ∧ sent s' = sent s ∧
  (∀ k x,
     (x ∈ default ∅ (eventSubscriptions s' !! JsString k) →
      x ∈ default ∅ (eventSubscriptions s !! JsString k)) ∧
     (x ∈ default ∅ (eventSubscriptions s !! JsString k) → x ≠ c →
      x ∈ default ∅ (eventSubscriptions s' !! JsString k)) ∧
     ("event:" +:+ k ∈ subscriptions connection → (":"%char ∉ chars k) →
      c ∉ default ∅ (eventSubscriptions s' !! JsString k)) ∧
     (":"%char ∈ chars k → eventSubscriptions s' !! JsString k = eventSubscriptions s !! JsString k)) ∧
  (∀ k x,
     (x ∈ default ∅ (userSubscriptions s' !! JsString k) →
      x ∈ default ∅ (userSubscriptions s !! JsString k)) ∧
     (x ∈ default ∅ (userSubscriptions s !! JsString k) → x ≠ c →
      x ∈ default ∅ (userSubscriptions s' !! JsString k)) ∧
     ("user:" +:+ k ∈ subscriptions connection → (":"%char ∉ chars k) →
      c ∉ default ∅ (userSubscriptions s' !! JsString k)) ∧
     (":"%char ∈ chars k → userSubscriptions s' !! JsString k = userSubscriptions s !! JsString k)).
Proof.
  intros Hc. cbn zeta. unfold handleDisconnection. rewrite Hc.
  unfold set_fold. cbn [compose].
  destruct (forget_fold c (elements (subscriptions connection)) s) as (Fc & Fs & Fe & Fu).
  cbn [connections sent eventSubscriptions userSubscriptions].
  rewrite Fc, Fs. split; [done|]. split; [done|].
  split; intros k x.
  - destruct (Fe k x) as (F1 & F2 & F3 & F4).
    split; [done|]. split; [done|]. split; [|done].
    intros Hin. apply F3. by apply elem_of_elements.
  - destruct (Fu k x) as (F1 & F2 & F3 & F4).
    split; [done|]. split; [done|]. split; [|done].
    intros Hin. apply F3. by apply elem_of_elements.
Qed.

(** *** The invariant *)

Lemma handleDisconnection_kept c s : kept s → kept (handleDisconnection c s).
Proof.
  intros [[He Hu] Hp].
  destruct (connections s !! c) as [connection|] eqn:Hc;
    [|unfold handleDisconnection; by rewrite Hc].
  destruct (handleDisconnection_effect c s connection Hc) as (Ec & _ & Ee & Eu).
  assert (Hplain : ∀ k, "event:" +:+ k ∈ subscriptions connection ∨
                        "user:" +:+ k ∈ subscriptions connection →
                        ":"%char ∉ chars k).
  { intros k [Hin|Hin]; destruct (Hp c connection _ Hc Hin) as (id & Hid & [Heq|Heq]);
      try done; by apply (inj (String.app _)) in Heq as ->. }
  split; [split|].
  - intros k x. destruct (Ee k x) as (E1 & E2 & E3 & _). rewrite Ec. split.
    + intros Hx. destruct (proj1 (He k x) (E1 Hx)) as (cx & Hcx & Hsub).
      destruct (decide (x = c)) as [->|Hne].
      * rewrite Hc in Hcx. injection Hcx as <-. destruct E3; auto.
      * exists cx. by rewrite lookup_delete_ne.
    + intros (cx & Hcx & Hsub). apply lookup_delete_Some in Hcx as [Hne Hcx].
      apply E2; [|done]. apply He. eauto.
  - intros k x. destruct (Eu k x) as (E1 & E2 & E3 & _). rewrite Ec. split.
    + intros Hx. destruct (proj1 (Hu k x) (E1 Hx)) as (cx & Hcx & Hsub).
      destruct (decide (x = c)) as [->|Hne].
      * rewrite Hc in Hcx. injection Hcx as <-. destruct E3; auto.
      * exists cx. by rewrite lookup_delete_ne.
    + intros (cx & Hcx & Hsub). apply lookup_delete_Some in Hcx as [Hne Hcx].
      apply E2; [|done]. apply Hu. eauto.
  - intros x cx sub Hcx Hsub. rewrite Ec in Hcx.
    apply lookup_delete_Some in Hcx as [_ Hcx]. eauto.
Qed.

Lemma logged_kept s l :
  kept s → kept (mkService (connections s) (eventSubscriptions s) (userSubscriptions s) l).
Proof. done. Qed.

Lemma sendMessage_kept c m s : kept s → kept (sendMessage c m s).
Proof.
  intros Hk. unfold sendMessage.
  destruct (connections s !! c) as [connection|]; [|done].
  case_decide; [done|].
  destruct (send_throws connection); [by apply handleDisconnection_kept|].
  by apply logged_kept.
Qed.


Lemma subscribeToEvent_kept c e s :
  ":"%char ∉ chars e → kept s → kept (subscribeToEvent c (JsString e) s).
Proof.
  intros Hplain [[He Hu] Hp]. unfold subscribeToEvent.
  destruct (connections s !! c) as [connection|] eqn:Hc; [|done].
  apply sendMessage_kept. split; [split|]; cbn [connections eventSubscriptions userSubscriptions].
  - intros k x. unfold index_add.
    destruct (decide (k = e)) as [->|Hk]; [rewrite lookup_insert_eq|rewrite lookup_insert_ne by congruence];
      (destruct (decide (x = c)) as [->|Hx];
       [rewrite lookup_insert_eq|rewrite lookup_insert_ne by congruence]); cbn [default].
    + split; [|set_solver]. intros _. eexists. split; [done|]. set_solver.
    + rewrite <- He. set_solver.
    + rewrite He, Hc. split.
      * intros (cx & [= <-] & Hsub). eexists. split; [done|]. set_solver.
      * intros (cx & [= <-] & Hsub). eexists. split; [done|].
        cbn [subscriptions] in Hsub.
        apply elem_of_union in Hsub as [Hsub%elem_of_singleton|Hsub]; [|done].
        by apply (inj (String.app _)) in Hsub.
    + apply He.
  - intros k x.
    destruct (decide (x = c)) as [->|Hx];
      [rewrite lookup_insert_eq|rewrite lookup_insert_ne by congruence]; [|apply Hu].
    rewrite Hu, Hc. split.
    + intros (cx & [= <-] & Hsub). eexists. split; [done|]. set_solver.
    + intros (cx & [= <-] & Hsub). eexists. split; [done|].
      cbn [subscriptions] in Hsub.
      apply elem_of_union in Hsub as [Hsub%elem_of_singleton|Hsub]; [|done].
      by destruct (event_user_differ e k).
  - intros x cx sub. cbn [connections].
    destruct (decide (x = c)) as [->|Hx];
      [rewrite lookup_insert_eq|rewrite lookup_insert_ne by congruence]; [|apply Hp].
    intros [= <-]. cbn [subscriptions].
    intros [->%elem_of_singleton|Hsub]%elem_of_union; [|by eapply Hp].
    exists e. auto.
Qed.

Lemma subscribeToUser_kept c u s :
  ":"%char ∉ chars u → kept s → kept (subscribeToUser c (JsString u) s).
Proof.
  intros Hplain [[He Hu] Hp]. unfold subscribeToUser.
  destruct (connections s !! c) as [connection|] eqn:Hc; [|done].
  apply sendMessage_kept. split; [split|]; cbn [connections eventSubscriptions userSubscriptions].
  - intros k x.
    destruct (decide (x = c)) as [->|Hx];
      [rewrite lookup_insert_eq|rewrite lookup_insert_ne by congruence]; [|apply He].
    rewrite He, Hc. split.
    + intros (cx & [= <-] & Hsub). eexists. split; [done|]. set_solver.
    + intros (cx & [= <-] & Hsub). eexists. split; [done|].
      cbn [subscriptions] in Hsub.
      apply elem_of_union in Hsub as [Hsub%elem_of_singleton|Hsub]; [|done].
      by destruct (event_user_differ k u).
  - intros k x. unfold index_add.
    destruct (decide (k = u)) as [->|Hk]; [rewrite lookup_insert_eq|rewrite lookup_insert_ne by congruence];
      (destruct (decide (x = c)) as [->|Hx];
       [rewrite lookup_insert_eq|rewrite lookup_insert_ne by congruence]); cbn [default].
    + split; [|set_solver]. intros _. eexists. split; [done|]. set_solver.
    + rewrite <- Hu. set_solver.
    + rewrite Hu, Hc. split.
      * intros (cx & [= <-] & Hsub). eexists. split; [done|]. set_solver.
      * intros (cx & [= <-] & Hsub). eexists. split; [done|].
        cbn [subscriptions] in Hsub.
        apply elem_of_union in Hsub as [Hsub%elem_of_singleton|Hsub]; [|done].
        by apply (inj (String.app _)) in Hsub.
    + apply Hu.
  - intros x cx sub. cbn [connections].
    destruct (decide (x = c)) as [->|Hx];
      [rewrite lookup_insert_eq|rewrite lookup_insert_ne by congruence]; [|apply Hp].
    intros [= <-]. cbn [subscriptions].
    intros [->%elem_of_singleton|Hsub]%elem_of_union; [|by eapply Hp].
    exists u. auto.
Qed.

Lemma unsubscribeFromEvent_kept c e s : kept s → kept (unsubscribeFromEvent c (JsString e) s).
Proof.
  intros [[He Hu] Hp]. unfold unsubscribeFromEvent.
  destruct (connections s !! c) as [connection|] eqn:Hc; [|done].
  apply sendMessage_kept. split; [split|]; cbn [connections eventSubscriptions userSubscriptions].
  - intros k x. unfold index_delete.
    assert (Hdel : x ∈ default ∅ ((λ ids : gset string, ids ∖ {[c]}) <$> eventSubscriptions s !! JsString e)
                   ↔ x ∈ default ∅ (eventSubscriptions s !! JsString e) ∧ x ≠ c).
    { destruct (eventSubscriptions s !! JsString e); cbn; set_solver. }
    destruct (decide (k = e)) as [->|Hk];
      [rewrite lookup_alter_eq, Hdel|rewrite lookup_alter_ne by congruence];
      (destruct (decide (x = c)) as [->|Hx];
       [rewrite lookup_insert_eq|rewrite lookup_insert_ne by congruence]).
    + split; [by intros [_ ?]|]. intros (cx & [= <-] & Hsub). set_solver.
    + rewrite <- He. tauto.
    + rewrite He, Hc. split.
      * intros (cx & [= <-] & Hsub). eexists. split; [done|].
        cbn [subscriptions]. apply elem_of_difference. split; [done|].
        intros Heq%elem_of_singleton. by apply (inj (String.app _)) in Heq.
      * intros (cx & [= <-] & Hsub). eexists. split; [done|]. set_solver.
    + apply He.
  - intros k x.
    destruct (decide (x = c)) as [->|Hx];
      [rewrite lookup_insert_eq|rewrite lookup_insert_ne by congruence]; [|apply Hu].
    rewrite Hu, Hc. split.
    + intros (cx & [= <-] & Hsub). eexists. split; [done|].
      cbn [subscriptions]. apply elem_of_difference. split; [done|].
      intros Heq%elem_of_singleton. by destruct (event_user_differ e k).
    + intros (cx & [= <-] & Hsub). eexists. split; [done|]. set_solver.
  - intros x cx sub. cbn [connections].
    destruct (decide (x = c)) as [->|Hx];
      [rewrite lookup_insert_eq|rewrite lookup_insert_ne by congruence]; [|apply Hp].
    intros [= <-]. cbn [subscriptions]. intros [Hsub _]%elem_of_difference. by eapply Hp.
Qed.

Lemma unsubscribeFromUser_kept c u s : kept s → kept (unsubscribeFromUser c (JsString u) s).
Proof.
  intros [[He Hu] Hp]. unfold unsubscribeFromUser.
  destruct (connections s !! c) as [connection|] eqn:Hc; [|done].
  apply sendMessage_kept. split; [split|]; cbn [connections eventSubscriptions userSubscriptions].
  - intros k x.
    destruct (decide (x = c)) as [->|Hx];
      [rewrite lookup_insert_eq|rewrite lookup_insert_ne by congruence]; [|apply He].
    rewrite He, Hc. split.
    + intros (cx & [= <-] & Hsub). eexists. split; [done|].
      cbn [subscriptions]. apply elem_of_difference. split; [done|].
      intros Heq%elem_of_singleton. by destruct (event_user_differ k u).
    + intros (cx & [= <-] & Hsub). eexists. split; [done|]. set_solver.
  - intros k x. unfold index_delete.
    assert (Hdel : x ∈ default ∅ ((λ ids : gset string, ids ∖ {[c]}) <$> userSubscriptions s !! JsString u)
                   ↔ x ∈ default ∅ (userSubscriptions s !! JsString u) ∧ x ≠ c).
    { destruct (userSubscriptions s !! JsString u); cbn; set_solver. }
    destruct (decide (k = u)) as [->|Hk];
      [rewrite lookup_alter_eq, Hdel|rewrite lookup_alter_ne by congruence];
      (destruct (decide (x = c)) as [->|Hx];
       [rewrite lookup_insert_eq|rewrite lookup_insert_ne by congruence]).
    + split; [by intros [_ ?]|]. intros (cx & [= <-] & Hsub). set_solver.
    + rewrite <- Hu. tauto.
    + rewrite Hu, Hc. split.
      * intros (cx & [= <-] & Hsub). eexists. split; [done|].
        cbn [subscriptions]. apply elem_of_difference. split; [done|].
        intros Heq%elem_of_singleton. by apply (inj (String.app _)) in Heq.
      * intros (cx & [= <-] & Hsub). eexists. split; [done|]. set_solver.
    + apply Hu.
  - intros x cx sub. cbn [connections].
    destruct (decide (x = c)) as [->|Hx];
      [rewrite lookup_insert_eq|rewrite lookup_insert_ne by congruence]; [|apply Hp].
    intros [= <-]. cbn [subscriptions]. intros [Hsub _]%elem_of_difference. by eapply Hp.
Qed.


Lemma on_connection_kept c rs throws s :
  connections s !! c = None → kept s → kept (on_connection c rs throws s).
Proof.
  intros Hc [[He Hu] Hp]. unfold on_connection. apply sendMessage_kept.
  split; [split|]; cbn [connections eventSubscriptions userSubscriptions].
  - intros k x. rewrite He. destruct (decide (x = c)) as [->|Hx];
      [rewrite lookup_insert_eq, Hc|by rewrite lookup_insert_ne by congruence].
    split; [by intros (? & ? & _)|]. intros (cx & [= <-] & Hsub). set_solver.
  - intros k x. rewrite Hu. destruct (decide (x = c)) as [->|Hx];
      [rewrite lookup_insert_eq, Hc|by rewrite lookup_insert_ne by congruence].
    split; [by intros (? & ? & _)|]. intros (cx & [= <-] & Hsub). set_solver.
  - intros x cx sub. cbn [connections].
    destruct (decide (x = c)) as [->|Hx];
      [rewrite lookup_insert_eq|rewrite lookup_insert_ne by congruence]; [|apply Hp].
    intros [= <-]. set_solver.
Qed.

Lemma socket_kept c rs throws s :
  kept s → kept (step s (Socket c rs throws)).
Proof.
  intros [[He Hu] Hp]. cbn [step].
  assert (Hsubs : ∀ x sub,
    (∃ cx, alter (λ w, mkConnection rs throws (conn_userId w) (conn_eventId w)
                                    (subscriptions w)) c (connections s) !! x = Some cx ∧
           sub ∈ subscriptions cx) ↔
    (∃ cx, connections s !! x = Some cx ∧ sub ∈ subscriptions cx)).
  { intros x sub. destruct (decide (x = c)) as [->|Hx];
      [rewrite lookup_alter_eq|by rewrite lookup_alter_ne by congruence].
    destruct (connections s !! c) as [w|]; cbn; [|naive_solver].
    split; intros (cx & [= <-] & Hsub); eauto. }
  split; [split|]; cbn [connections eventSubscriptions userSubscriptions].
  - intros k x. by rewrite Hsubs.
  - intros k x. by rewrite Hsubs.
  - intros x cx sub Hcx Hsub. cbn [connections] in Hcx.
    destruct (proj1 (Hsubs x sub)) as (cx0 & Hcx0 & Hsub0); [eauto|]. eauto.
Qed.

Lemma close_kept s : kept (close s).
Proof.
  split; [split|]; cbn.
  - intros k x. rewrite !lookup_empty. cbn. split; [set_solver|by intros (? & ? & _)].
  - intros k x. rewrite !lookup_empty. cbn. split; [set_solver|by intros (? & ? & _)].
  - intros x cx sub Hcx. unfold close in Hcx. cbn [connections] in Hcx.
    by rewrite lookup_empty in Hcx.
Qed.

Lemma foldr_sendMessage_kept m (l : list string) s :
  kept s → kept (foldr (λ c, sendMessage c m) s l).
Proof.
  intros Hk. induction l as [|c l IH]; [done|]. cbn [foldr]. by apply sendMessage_kept.
Qed.

Lemma broadcastToAdmins_kept m s : kept s → kept (broadcastToAdmins m s).
Proof.
  intros Hk. unfold broadcastToAdmins.
  induction (map_to_list (connections s)) as [|[c connection] l IH]; [done|].
  cbn [foldr]. case_decide; [by apply sendMessage_kept|done].
Qed.

Lemma step_kept s x : regular s x → kept s → kept (step s x).
Proof.
  intros Hreg Hk. destruct x as [c rs throws|c data|c|c|c rs throws|e m|u m|m|]; cbn [step].
  - by apply on_connection_kept.
  - unfold on_message, handleMessage, sendError.
    destruct data as [message|]; [|by apply sendMessage_kept].
    destruct (connections s !! c); [|done].
    destruct message; cbn [regular] in Hreg.
    + destruct Hreg as (str & -> & Hplain). by apply subscribeToEvent_kept.
    + destruct Hreg as (str & -> & Hplain). by apply subscribeToUser_kept.
    + destruct Hreg as (str & ->). by apply unsubscribeFromEvent_kept.
    + destruct Hreg as (str & ->). by apply unsubscribeFromUser_kept.
    + by apply sendMessage_kept.
    + by apply sendMessage_kept.
  - by apply handleDisconnection_kept.
  - by apply handleDisconnection_kept.
  - by apply socket_kept.
  - unfold broadcastToEvent. destruct (eventSubscriptions s !! JsString e); [|done].
    unfold set_fold. cbn [compose]. by apply foldr_sendMessage_kept.
  - unfold sendToUser. destruct (userSubscriptions s !! JsString u); [|done].
    unfold set_fold. cbn [compose]. by apply foldr_sendMessage_kept.
  - by apply broadcastToAdmins_kept.
  - apply close_kept.
Qed.

Lemma start_kept : kept start.
Proof.
  split; [split|]; cbn.
  - intros k x. rewrite !lookup_empty. cbn. split; [set_solver|by intros (? & ? & _)].
  - intros k x. rewrite !lookup_empty. cbn. split; [set_solver|by intros (? & ? & _)].
  - intros x cx sub Hcx. unfold start in Hcx. cbn [connections] in Hcx.
    by rewrite lookup_empty in Hcx.
Qed.

Lemma steps_kept xs s : regular_run s xs → kept s → kept (steps xs s).
Proof.
  revert s. induction xs as [|x xs IH]; intros s; [done|].
  cbn [regular_run steps foldl]. intros [Hx Hxs] Hk. apply IH; [done|].
  by apply step_kept.
Qed.

(** *** Keys that are not strings *)

Lemma shrinks_refl s : shrinks s s.
Proof. by intros k x. Qed.

Lemma shrinks_trans s1 s2 s3 : shrinks s1 s2 → shrinks s2 s3 → shrinks s1 s3.
Proof. intros H12 H23 k x. destruct (H12 k x), (H23 k x). auto. Qed.

Lemma shrinks_string_keyed s' s : shrinks s' s → string_keyed s → string_keyed s'.
Proof.
  intros Hs Hk i r. destruct (Hk i r) as [He Hu].
  split; apply set_eq; intros x; (split; [|by intros ?%not_elem_of_empty]); intros Hx.
  - rewrite <- He. by apply Hs.
  - rewrite <- Hu. by apply Hs.
Qed.

Lemma index_delete_below key c (index : gmap JsValue (gset string)) k x :
  x ∈ default ∅ (index_delete key c index !! k) → x ∈ default ∅ (index !! k).
Proof.
  unfold index_delete. destruct (decide (key = k)) as [->|Hk].
  - rewrite lookup_alter_eq. destruct (index !! k); cbn; set_solver.
  - by rewrite lookup_alter_ne.
Qed.

Lemma forget_shrinks c sub s : shrinks (forget c sub s) s.
Proof.
  unfold forget. intros k x.
  destruct (String.prefix "event:" sub);
    [|destruct (String.prefix "user:" sub)];
    try destruct (split ":" sub !! 1%nat);
    cbn [eventSubscriptions userSubscriptions]; split; try done;
    apply index_delete_below.
Qed.

Lemma handleDisconnection_shrinks c s : shrinks (handleDisconnection c s) s.
Proof.
  unfold handleDisconnection.
  destruct (connections s !! c) as [connection|]; [|apply shrinks_refl].
  unfold set_fold. cbn [compose].
  assert (Hfold : shrinks (foldr (forget c) s (elements (subscriptions connection))) s).
  { induction (elements (subscriptions connection)) as [|sub l IH];
      [apply shrinks_refl|].
    cbn [foldr]. eapply shrinks_trans; [apply forget_shrinks|done]. }
  intros k x. apply Hfold.
Qed.

Lemma sendMessage_shrinks c m s : shrinks (sendMessage c m s) s.
Proof.
  unfold sendMessage.
  destruct (connections s !! c) as [connection|]; [|apply shrinks_refl].
  case_decide; [apply shrinks_refl|].
  destruct (send_throws connection); [apply handleDisconnection_shrinks|].
  by intros k x.
Qed.

Lemma foldr_sendMessage_shrinks m (l : list string) s :
  shrinks (foldr (λ c, sendMessage c m) s l) s.
Proof.
  induction l as [|c l IH]; [apply shrinks_refl|]. cbn [foldr].
  eapply shrinks_trans; [apply sendMessage_shrinks|done].
Qed.

Lemma step_string_keyed s x : regular s x → string_keyed s → string_keyed (step s x).
Proof.
  intros Hreg Hk.
  assert (Hsame : ∀ cs l, string_keyed
            (mkService cs (eventSubscriptions s) (userSubscriptions s) l)) by done.
  destruct x as [c rs throws|c data|c|c|c rs throws|e m|u m|m|]; cbn [step].
  - unfold on_connection.
    eapply shrinks_string_keyed; [apply sendMessage_shrinks|apply Hsame].
  - unfold on_message, handleMessage, sendError.
    destruct data as [message|];
      [|eapply shrinks_string_keyed; [apply sendMessage_shrinks|done]].
    destruct (connections s !! c) as [connection|] eqn:Hc; [|done].
    destruct message; cbn [regular] in Hreg;
      unfold subscribeToEvent, subscribeToUser, unsubscribeFromEvent,
        unsubscribeFromUser; rewrite ?Hc;
      (eapply shrinks_string_keyed; [apply sendMessage_shrinks|]); try done.
    + destruct Hreg as (str & -> & _). intros i r. destruct (Hk i r) as [He Hu].
      cbn [eventSubscriptions userSubscriptions]. unfold index_add.
      by rewrite lookup_insert_ne.
    + destruct Hreg as (str & -> & _). intros i r. destruct (Hk i r) as [He Hu].
      cbn [eventSubscriptions userSubscriptions]. unfold index_add.
      by rewrite lookup_insert_ne.
    + eapply shrinks_string_keyed; [|exact Hk]. intros k x.
      cbn [eventSubscriptions userSubscriptions].
      split; [apply index_delete_below|done].
    + eapply shrinks_string_keyed; [|exact Hk]. intros k x.
      cbn [eventSubscriptions userSubscriptions].
      split; [done|apply index_delete_below].
  - eapply shrinks_string_keyed; [apply handleDisconnection_shrinks|done].
  - eapply shrinks_string_keyed; [apply handleDisconnection_shrinks|done].
  - apply Hsame.
  - unfold broadcastToEvent. destruct (eventSubscriptions s !! JsString e); [|done].
    unfold set_fold. cbn [compose].
    eapply shrinks_string_keyed; [apply foldr_sendMessage_shrinks|done].
  - unfold sendToUser. destruct (userSubscriptions s !! JsString u); [|done].
    unfold set_fold. cbn [compose].
    eapply shrinks_string_keyed; [apply foldr_sendMessage_shrinks|done].
  - unfold broadcastToAdmins.
    induction (map_to_list (connections s)) as [|[c connection] l IH]; [done|].
    cbn [foldr]. case_decide; [|done].
    eapply shrinks_string_keyed; [apply sendMessage_shrinks|done].
  - intros i r. unfold close. cbn [eventSubscriptions userSubscriptions].
    by rewrite !lookup_empty.
Qed.

Lemma steps_string_keyed xs s :
  regular_run s xs → string_keyed s → string_keyed (steps xs s).
Proof.
  revert s. induction xs as [|x xs IH]; intros s; [done|].
  cbn [regular_run steps foldl]. intros [Hx Hxs] Hk. apply IH; [done|].
  by apply step_string_keyed.
Qed.

(** X21. The indexes and the connections agree. After any run of regular
    steps from the start (new connections get an id not in use, the ids in
    the messages that subscribe or unsubscribe are strings, those
    subscribed to without a colon), whatever the sockets do: a connection
    id is in the index of an event exactly when that connection exists and
    has the subscription of the event, and likewise for users; and the
    indexes list nothing under a key that is not a string. So the indexes
    hold no id of a connection that is gone, and a publication is offered
    exactly to the subscribers. *)
Theorem subscriptions_indexed xs :
  regular_run start xs →
  let s := steps xs start in
  (∀ (eventId : string) connectionId,
     connectionId ∈ default ∅ (eventSubscriptions s !! JsString eventId) ↔
     ∃ connection, connections s !! connectionId = Some connection ∧
                   "event:" +:+ eventId ∈ subscriptions connection) ∧
  (∀ (userId : string) connectionId,
     connectionId ∈ default ∅ (userSubscriptions s !! JsString userId) ↔
     ∃ connection, connections s !! connectionId = Some connection ∧
                   "user:" +:+ userId ∈ subscriptions connection) ∧
  string_keyed s.
Proof.
  intros Hreg. destruct (steps_kept xs start Hreg start_kept) as [[He Hu] _].
  split; [done|]. split; [done|].
  apply steps_string_keyed; [done|]. intros i r. unfold start.
  cbn [eventSubscriptions userSubscriptions]. by rewrite !lookup_empty.
Qed.


(** *** Where subscriptions come from *)

Section Subscriptions.

Variable Q : string → Prop.

Lemma handleDisconnection_subscriptions c s :
  all_subscriptions Q s → all_subscriptions Q (handleDisconnection c s).
Proof.
  intros HQ. destruct (connections s !! c) as [connection|] eqn:Hc;
    [|unfold handleDisconnection; by rewrite Hc].
  destruct (handleDisconnection_effect c s connection Hc) as (Ec & _).
  intros x cx sub. rewrite Ec. intros [_ Hcx]%lookup_delete_Some. by eapply HQ.
Qed.

Lemma sendMessage_subscriptions c m s :
  all_subscriptions Q s → all_subscriptions Q (sendMessage c m s).
Proof.
  intros HQ. unfold sendMessage.
  destruct (connections s !! c) as [connection|]; [|done].
  case_decide; [done|].
  destruct (send_throws connection); [by apply handleDisconnection_subscriptions|done].
Qed.

Lemma rewritten_subscriptions c connection (X : gset string) rs throws u e es us l s :
  connections s !! c = Some connection →
  (∀ sub, sub ∈ X → sub ∈ subscriptions connection ∨ Q sub) →
  all_subscriptions Q s →
  all_subscriptions Q
    (mkService (<[c := mkConnection rs throws u e X]> (connections s)) es us l).
Proof.
  intros Hc HX HQ x cx sub. cbn [connections].
  destruct (decide (x = c)) as [->|Hx];
    [rewrite lookup_insert_eq|rewrite lookup_insert_ne by congruence]; [|apply HQ].
  intros [= <-]. cbn [subscriptions]. intros [Hsub|Hsub]%HX; [by eapply HQ|done].
Qed.

Lemma step_subscriptions s x :
  (∀ id, Q ("event:" +:+ id)) → (∀ id, Q ("user:" +:+ id)) →
  all_subscriptions Q s → all_subscriptions Q (step s x).
Proof.
  intros HQe HQu HQ.
  destruct x as [c rs throws|c data|c|c|c rs throws|e m|u m|m|]; cbn [step].
  - unfold on_connection. apply sendMessage_subscriptions.
    intros x cx sub. cbn [connections].
    destruct (decide (x = c)) as [->|Hx];
      [rewrite lookup_insert_eq|rewrite lookup_insert_ne by congruence]; [|apply HQ].
    intros [= <-]. set_solver.
  - unfold on_message, handleMessage, sendError.
    destruct data as [message|]; [|by apply sendMessage_subscriptions].
    destruct (connections s !! c) as [connection|] eqn:Hc; [|done].
    destruct message; unfold subscribeToEvent, subscribeToUser, unsubscribeFromEvent,
      unsubscribeFromUser; rewrite ?Hc; apply sendMessage_subscriptions; try done;
      (eapply rewritten_subscriptions; [done| |done]); intros sub.
    + intros [->%elem_of_singleton|?]%elem_of_union; auto.
    + intros [->%elem_of_singleton|?]%elem_of_union; auto.
    + intros [? _]%elem_of_difference; auto.
    + intros [? _]%elem_of_difference; auto.
  - by apply handleDisconnection_subscriptions.
  - by apply handleDisconnection_subscriptions.
  - intros x cx sub. cbn [connections].
    destruct (decide (x = c)) as [->|Hx];
      [rewrite lookup_alter_eq|rewrite lookup_alter_ne by congruence]; [|apply HQ].
    destruct (connections s !! c) as [w|] eqn:Hc; [|done]. cbn.
    intros [= <-]. cbn [subscriptions]. by eapply HQ.
  - unfold broadcastToEvent. destruct (eventSubscriptions s !! JsString e) as [ids|]; [|done].
    unfold set_fold. cbn [compose].
    induction (elements ids) as [|c l IH]; [done|]. cbn [foldr].
    by apply sendMessage_subscriptions.
  - unfold sendToUser. destruct (userSubscriptions s !! JsString u) as [ids|]; [|done].
    unfold set_fold. cbn [compose].
    induction (elements ids) as [|c l IH]; [done|]. cbn [foldr].
    by apply sendMessage_subscriptions.
  - unfold broadcastToAdmins.
    induction (map_to_list (connections s)) as [|[c connection] l IH]; [done|].
    cbn [foldr]. case_decide; [by apply sendMessage_subscriptions|done].
  - intros x cx sub Hcx. unfold close in Hcx. cbn [connections] in Hcx.
    by rewrite lookup_empty in Hcx.
Qed.

Lemma steps_subscriptions xs s :
  (∀ id, Q ("event:" +:+ id)) → (∀ id, Q ("user:" +:+ id)) →
  all_subscriptions Q s → all_subscriptions Q (steps xs s).
Proof.
  intros HQe HQu. revert s. induction xs as [|x xs IH]; intros s HQ; [done|].
  cbn [steps foldl]. apply IH. by apply step_subscriptions.
Qed.

End Subscriptions.

(** X22. No publication to the admins reaches anyone. After any steps from
    the start, every subscription of every connection is the name of an
    event or of a user, as the two subscribe handlers build it; none is
    [admin], the only name [broadcastToAdmins] looks for, so that call
    sends nothing and changes nothing. *)
Theorem broadcastToAdmins_reaches_nobody xs m :
  let s := steps xs start in
  all_subscriptions (λ sub, ∃ id, sub = "event:" +:+ id ∨ sub = "user:" +:+ id) s ∧
  broadcastToAdmins m s = s.
Proof.
  cbn zeta.
  assert (Hsubs : all_subscriptions
                    (λ sub, ∃ id, sub = "event:" +:+ id ∨ sub = "user:" +:+ id)
                    (steps xs start)).
  { apply steps_subscriptions; [by eauto|by eauto|].
    intros x cx sub Hcx. unfold start in Hcx. cbn [connections] in Hcx.
    by rewrite lookup_empty in Hcx. }
  split; [done|]. unfold broadcastToAdmins.
  assert (Hl : ∀ c connection, (c, connection) ∈ map_to_list (connections (steps xs start)) →
                 "admin" ∉ subscriptions connection).
  { intros c connection Hin%elem_of_map_to_list Hadmin.
    by destruct (Hsubs c connection _ Hin Hadmin) as (id & [?|?]). }
  induction (map_to_list (connections (steps xs start))) as [|[c connection] l IH]; [done|].
  cbn [foldr]. rewrite decide_False by (apply (Hl c); by left).
  apply IH. intros c' connection' Hin. apply (Hl c'). by right.
Qed.

(** *** A disconnection and ids with a colon *)

Lemma handleDisconnection_misses c e s :
  ":"%char ∈ chars e →
  connections (handleDisconnection c s) !! c = None ∧
  eventSubscriptions (handleDisconnection c s) !! JsString e = eventSubscriptions s !! JsString e.
Proof.
  intros He. destruct (connections s !! c) as [connection|] eqn:Hc.
  - destruct (handleDisconnection_effect c s connection Hc) as (Ec & _ & Ee & _).
    rewrite Ec, lookup_delete_eq. split; [done|]. by apply (Ee e c).
  - unfold handleDisconnection. by rewrite Hc.
Qed.

(** X23. A disconnection looks up the index by the second segment of the
    subscription name split at colons, so for an event id with a colon it
    looks under another key: when a connection that exists subscribes to
    such an event and is then disconnected, the connection is gone and its
    id stays in the index of the event: the index and the connections no
    longer agree. *)
Theorem disconnection_misses_colon_ids c e s connection :
  connections s !! c = Some connection →
  ":"%char ∈ chars e →
  let s' := handleDisconnection c (subscribeToEvent c (JsString e) s) in
  connections s' !! c = None ∧
  c ∈ default ∅ (eventSubscriptions s' !! JsString e) ∧
  ¬ indexed s'.
Proof.
  intros Hc He. cbn zeta.
  destruct (handleDisconnection_misses c e (subscribeToEvent c (JsString e) s) He) as [Hgone Hidx].
  assert (Hin : c ∈ default ∅ (eventSubscriptions (subscribeToEvent c (JsString e) s) !! JsString e)).
  { unfold subscribeToEvent. rewrite Hc. unfold sendMessage. cbn [connections].
    rewrite lookup_insert_eq. cbn [readyState send_throws].
    assert (Hadd : c ∈ default ∅ (index_add (JsString e) c (eventSubscriptions s) !! JsString e)).
    { unfold index_add. rewrite lookup_insert_eq. set_solver. }
    case_decide; [done|]. destruct (send_throws connection); [|done].
    by rewrite (proj2 (handleDisconnection_misses c e _ He)). }
  split; [done|]. split; [by rewrite Hidx|].
  intros [Hev _]. destruct (proj1 (Hev e c)) as (cx & Hcx & _); [by rewrite Hidx|].
  congruence.
Qed.


(** *** Who gets a publication *)

Lemma sendMessage_others c m s x :
  x ≠ c → connections (sendMessage c m s) !! x = connections s !! x.
Proof.
  intros Hx. unfold sendMessage.
  destruct (connections s !! c) as [connection|] eqn:Hc; [|done].
  case_decide; [done|]. destruct (send_throws connection); [|done].
  destruct (handleDisconnection_effect c s connection Hc) as (-> & _).
  by rewrite lookup_delete_ne.
Qed.

Lemma sendMessage_sent c m s :
  (deliverable s c → sent (sendMessage c m s) = (c, m) :: sent s) ∧
  (¬ deliverable s c → sent (sendMessage c m s) = sent s).
Proof.
  unfold sendMessage, deliverable.
  destruct (connections s !! c) as [connection|] eqn:Hc.
  2:{ split; [by intros (? & ? & _)|done]. }
  destruct (decide (readyState connection ≠ OPEN)) as [Hrs|Hrs].
  { split; [|done]. intros (? & [= <-] & ? & _). done. }
  destruct (send_throws connection) eqn:Et.
  - destruct (handleDisconnection_effect c s connection Hc) as (_ & -> & _).
    split; [|done]. intros (? & [= <-] & _ & ?). congruence.
  - split; [done|]. intros Hn. destruct Hn. exists connection.
    split; [done|]. split; [|done]. by destruct (decide (readyState connection = OPEN)).
Qed.

Lemma deliverable_or_not s c : deliverable s c ∨ ¬ deliverable s c.
Proof.
  unfold deliverable. destruct (connections s !! c) as [connection|];
    [|right; by intros (? & ? & _)].
  destruct (decide (readyState connection = OPEN));
    [|right; intros (? & [= <-] & ? & _); done].
  destruct (send_throws connection) eqn:Et;
    [right; intros (? & [= <-] & _ & ?); congruence|].
  left. eauto.
Qed.

Lemma foldr_sendMessage_sent m (l : list string) s :
  NoDup l →
  ∃ receivers,
    sent (foldr (λ c, sendMessage c m) s l) = ((λ c, (c, m)) <$> receivers) ++ sent s ∧
    NoDup receivers ∧
    (∀ c, c ∈ receivers ↔ c ∈ l ∧ deliverable s c) ∧
    (∀ x, x ∉ l → connections (foldr (λ c, sendMessage c m) s l) !! x = connections s !! x).
Proof.
  induction l as [|c l IH]; intros Hnd.
  - exists []. split; [done|]. split; [constructor|]. split; [|done].
    intros c. split; [by intros ?%elem_of_nil|by intros [?%elem_of_nil _]].
  - apply NoDup_cons in Hnd as [Hc Hnd].
    destruct (IH Hnd) as (receivers & Hsent & Hnd' & Hrec & Hframe).
    cbn [foldr]. set (s' := foldr (λ c, sendMessage c m) s l) in *.
    assert (Hsame : deliverable s' c ↔ deliverable s c).
    { unfold deliverable. by rewrite (Hframe c Hc). }
    assert (Hrest : ∀ x, x ∉ c :: l →
              connections (sendMessage c m s') !! x = connections s !! x).
    { intros x [Hx Hxl]%not_elem_of_cons. rewrite sendMessage_others by done. auto. }
    destruct (sendMessage_sent c m s') as [Hyes Hno].
    destruct (deliverable_or_not s c) as [Hd|Hd].
    + exists (c :: receivers). rewrite Hyes, Hsent by (by apply Hsame).
      split; [done|]. split; [apply NoDup_cons; split; [|done]; by intros [? _]%Hrec|].
      split; [|done]. intros x. rewrite !elem_of_cons, Hrec. naive_solver.
    + exists receivers. rewrite Hno, Hsent by (by rewrite Hsame).
      split; [done|]. split; [done|]. split; [|done].
      intros x. rewrite elem_of_cons, Hrec. naive_solver.
Qed.


(** X24. Who gets a publication. [broadcastToEvent] hands the message to
    [send] once for each connection that is in the index of the event,
    exists, is open and whose [send] does not throw, and for no other; the
    log grows by exactly these. [sendToUser] does the same from the index of
    the user. *)
Theorem publication_delivery s m :
  (∀ e, ∃ receivers,
     sent (broadcastToEvent e m s) = ((λ c, (c, m)) <$> receivers) ++ sent s ∧
     NoDup receivers ∧
     ∀ c, c ∈ receivers ↔
          c ∈ default ∅ (eventSubscriptions s !! JsString e) ∧ deliverable s c) ∧
  (∀ u, ∃ receivers,
     sent (sendToUser u m s) = ((λ c, (c, m)) <$> receivers) ++ sent s ∧
     NoDup receivers ∧
     ∀ c, c ∈ receivers ↔
          c ∈ default ∅ (userSubscriptions s !! JsString u) ∧ deliverable s c).
Proof.
  split.
  - intros e. unfold broadcastToEvent.
    destruct (eventSubscriptions s !! JsString e) as [ids|]; cbn [default].
    + unfold set_fold. cbn [compose].
      destruct (foldr_sendMessage_sent m (elements ids) s (NoDup_elements ids))
        as (receivers & Hsent & Hnd & Hrec & _).
      exists receivers. split; [done|]. split; [done|].
      intros c. by rewrite Hrec, elem_of_elements.
    + exists []. split; [done|]. split; [constructor|].
      intros c. split; [by intros ?%elem_of_nil|by intros [?%elem_of_empty _]].
  - intros u. unfold sendToUser.
    destruct (userSubscriptions s !! JsString u) as [ids|]; cbn [default].
    + unfold set_fold. cbn [compose].
      destruct (foldr_sendMessage_sent m (elements ids) s (NoDup_elements ids))
        as (receivers & Hsent & Hnd & Hrec & _).
      exists receivers. split; [done|]. split; [done|].
      intros c. by rewrite Hrec, elem_of_elements.
    + exists []. split; [done|]. split; [constructor|].
      intros c. split; [by intros ?%elem_of_nil|by intros [?%elem_of_empty _]].
Qed.

End FanOut.

Section FanOutInstances.

Import WebSocketService.

Lemma subscriptions_indexed_witness :
  "conn_1" ∈ default ∅ (eventSubscriptions
                          (steps [Connection "conn_1" OPEN false;
                                  Message "conn_1"
                                    (Some (SUBSCRIBE_EVENT (JsString "concert")))]
                                 start) !! JsString "concert") ↔
  ∃ connection,
    connections (steps [Connection "conn_1" OPEN false;
                        Message "conn_1" (Some (SUBSCRIBE_EVENT (JsString "concert")))]
                       start) !! "conn_1" = Some connection ∧
    "event:" +:+ "concert" ∈ subscriptions connection.
Proof.
  apply (proj1 (subscriptions_indexed
                  [Connection "conn_1" OPEN false;
                   Message "conn_1" (Some (SUBSCRIBE_EVENT (JsString "concert")))]
                  ltac:(repeat split; exists "concert"; (split; [done|]);
                        apply (bool_decide_unpack (":"%char ∉ chars "concert"));
                        by vm_compute))
           "concert" "conn_1").
Defined.

Lemma disconnection_misses_colon_ids_witness :
  "conn_1" ∈ default ∅ (eventSubscriptions
                          (handleDisconnection "conn_1"
                             (subscribeToEvent "conn_1" (JsString "vip:concert")
                                (step start (Connection "conn_1" OPEN false))))
                          !! JsString "vip:concert").
Proof.
  apply (proj1 (proj2 (disconnection_misses_colon_ids "conn_1" "vip:concert"
                         (step start (Connection "conn_1" OPEN false))
                         (mkConnection OPEN false None None ∅)
                         ltac:(by vm_compute)
                         ltac:(apply (bool_decide_unpack (":"%char ∈ chars "vip:concert"));
                               by vm_compute)))).
Defined.

End FanOutInstances.

(** ** The seat routes *)

Section RouteFacts.

Import SeatService SeatRoutes.

Variable maxHoldsPerUser : Z.
Variable NODE_ENV : option string.
Variable stack_of : Error → option string.
Variable Body : Type.
Variable holdSeatSchema : Body → list ValidationErrorDetail + (string * Z).
Variable reserveSeatSchema : Body → list ValidationErrorDetail + string.
Variable refreshHoldSchema : Body → list ValidationErrorDetail + (string * Z).

Lemma checked_valid e n :
  Validation.isUUID e = true → 1 ≤ n → checked e (Some n) = inr n.
Proof. intros He Hn. unfold checked. rewrite He. cbn [negb]. by rewrite decide_False by lia. Qed.

Lemma checked_outcome e seatNum :
  match checked e seatNum with
  | inl refusal =>
      http_status refusal = 400 ∧
      (Validation.isUUID e = false ∨ seatNum = None ∨ ∃ n, seatNum = Some n ∧ n < 1)
  | inr n => Validation.isUUID e = true ∧ seatNum = Some n ∧ 1 ≤ n
  end.
Proof.
  unfold checked. destruct (Validation.isUUID e); cbn [negb]; [|auto].
  destruct seatNum as [n|]; [|auto]. case_decide; [eauto 6|]. split; [done|]. split; [done|lia].
Qed.

Lemma next_response err :
  http_status (next NODE_ENV stack_of err) =
    match err with
    | EventNotFound | SeatNotFound => 404
    | EventAlreadyExists | SeatNotAvailable | HeldByAnotherUser | HoldExpired => 409
    | InvalidSeatCount | InvalidSeatNumber => 400
    | QuotaExceeded _ => 429
    | SeatNotHeld | LockContention | UniqueViolation => 500
    end ∧
  ∃ stk, json (next NODE_ENV stack_of err) =
    ApiError match err with
             | SeatNotHeld | LockContention | UniqueViolation => "Internal server error"
             | _ => error_message err
             end stk.
Proof.
  unfold next. cbn [http_status json].
  destruct (thrown_response NODE_ENV err (stack_of err)) as [-> ->]. eauto.
Qed.

(** X25. What the release route answers. With a well-formed event id and a
    seat number from 1 on, [DELETE .../release] answers 404 for a seat that
    does not exist and otherwise 200 with a body that names the status
    [available], whatever the seat is: for a seat that is not held the
    store is left as it is, so a reserved seat is answered as released and
    available while it stays reserved. *)
Theorem delete_release_answers_available st e n :
  Validation.isUUID e = true → 1 ≤ n →
  let r := delete_release NODE_ENV stack_of e (Some n) st in
  match seat_at st e n with
  | None =>
      http_status (r.1) = 404 ∧ (∃ stk, json (r.1) = ApiError "Seat not found" stk) ∧
      r.2 = st
  | Some seat =>
      r.1 = mkHttp 200 (Success (Some "Seat released successfully")
                                (ReleaseData e n available)) ∧
      (status seat ≠ held → r.2 = st) ∧
      (status seat = reserved → seat_at (r.2) e n = Some seat)
  end.
Proof.
  intros He Hn. cbn zeta. unfold delete_release. rewrite checked_valid by done.
  destruct (seat_at st e n) as [seat|] eqn:Hs.
  - destruct (decide (status seat = held)) as [Hheld|Hheld].
    + destruct (releaseSeat_held st e n seat Hs Hheld) as (st' & -> & _).
      cbn [fst snd]. split; [done|]. split; [done|]. intros Hr. congruence.
    + rewrite (releaseSeat_not_held st e n seat Hs Hheld). cbn [fst snd].
      split; [done|]. split; [done|]. by intros _.
  - rewrite releaseSeat_unfold, Hs. cbn [fst snd].
    destruct (next_response SeatNotFound) as [Hstatus Hjson]. done.
Qed.


(** X27. The status of [POST .../hold]. A body that the schema refuses is
    answered 400 [Validation failed] with the details. For a validated
    body, a request with a malformed event id or a seat number that is not
    a number from 1 on is answered 400 before the service is called.
    Otherwise the status follows the checks of [holdSeat] in their order:
    404 for a missing event, 400 for a seat number above the seat count,
    404 for a missing seat, 409 for a seat that is not available, 429 for a
    holder at the quota, and 201. Any answer other than 201 leaves the
    store as it is. *)
Theorem post_hold_status st now lag e seatNum body :
  let r := post_hold maxHoldsPerUser NODE_ENV stack_of holdSeatSchema now lag e seatNum
                     body st in
  match holdSeatSchema body with
  | inl details => r = (mkHttp 400 (ApiErrorDetails "Validation failed" details), st)
  | inr (u, d) =>
      match checked e seatNum with
      | inl refusal => r = (refusal, st) ∧ http_status refusal = 400
      | inr n =>
          http_status (r.1) =
            match event st !! e with
            | None => 404
            | Some ev =>
                if decide (n > totalSeats ev) then 400 else
                match seat_at st e n with
                | None => 404
                | Some seat =>
                    if decide (status seat ≠ available) then 409 else
                    if decide (Z.of_nat (size (holds_of st u e)) >= maxHoldsPerUser)
                    then 429 else 201
                end
            end
      end
  end ∧
  (http_status (r.1) ≠ 201 → r.2 = st).
Proof.
  cbn zeta. unfold post_hold, validateRequest.
  destruct (holdSeatSchema body) as [details|[u d]]; [done|].
  pose proof (checked_outcome e seatNum) as Hchecked.
  destruct (checked e seatNum) as [refusal|n].
  { destruct Hchecked as [H400 _]. done. }
  destruct Hchecked as (_ & _ & Hn). rewrite holdSeat_unfold.
  destruct (event st !! e) as [ev|]; cbn [fst snd];
    [|by destruct (next_response EventNotFound) as [-> _]].
  destruct (decide (n > totalSeats ev)) as [Hhigh|Hhigh].
  { rewrite decide_True by lia. cbn [fst snd].
    by destruct (next_response InvalidSeatNumber) as [-> _]. }
  rewrite decide_False by lia.
  destruct (seat_at st e n) as [seat|]; cbn [fst snd];
    [|by destruct (next_response SeatNotFound) as [-> _]].
  case_decide; cbn [fst snd];
    [by destruct (next_response SeatNotAvailable) as [-> _]|].
  case_decide; cbn [fst snd];
    [by destruct (next_response (QuotaExceeded maxHoldsPerUser)) as [-> _]|].
  cbn zeta. cbn [fst snd http_status]. done.
Qed.

End RouteFacts.

Section RouteInstances.

Import SeatService SeatRoutes Examples.

Lemma delete_release_answers_available_witness :
  (delete_release None (λ _, None) gala (Some 3) (store gala_reserved)).1
    = mkHttp 200 (Success (Some "Seat released successfully") (ReleaseData gala 3 available)) ∧
  seat_at (delete_release None (λ _, None) gala (Some 3) (store gala_reserved)).2 gala 3
    = Some (mkSeat gala 3 reserved (Some "alice") (Some 1000) (Some 2000)).
Proof.
  pose proof (delete_release_answers_available None (λ _, None) (store gala_reserved)
                gala 3 ltac:(by vm_compute) ltac:(lia)) as H.
  change (seat_at (store gala_reserved) gala 3)
    with (Some (mkSeat gala 3 reserved (Some "alice") (Some 1000) (Some 2000))) in H.
  destruct H as (Hanswer & _ & Hkept). split; [exact Hanswer|]. by apply Hkept.
Defined.


Lemma post_hold_status_witness :
  post_hold quota None (λ _, None) Requests.holdSeatSchema 2000 0 gala (Some 3)
    Requests.without_userId (store Requests.gala_held)
    = (mkHttp 400 (ApiErrorDetails "Validation failed" [Requests.userId_required]),
       store Requests.gala_held) ∧
  http_status (post_hold quota None (λ _, None) Requests.holdSeatSchema 2000 0 gala
                 (Some 3) (Requests.from Requests.Ben) (store Requests.gala_held)).1
    = 409 ∧
  http_status (post_hold quota None (λ _, None) Requests.holdSeatSchema 2000 0 gala
                 (Some 4) (Requests.from Requests.Ben) (store Requests.gala_held)).1
    = 201.
Proof.
  split; [|split].
  - apply (proj1 (post_hold_status quota None (λ _, None) Requests.Body
                    Requests.holdSeatSchema (store Requests.gala_held) 2000 0 gala
                    (Some 3) Requests.without_userId)).
  - apply (proj1 (post_hold_status quota None (λ _, None) Requests.Body
                    Requests.holdSeatSchema (store Requests.gala_held) 2000 0 gala
                    (Some 3) (Requests.from Requests.Ben))).
  - apply (proj1 (post_hold_status quota None (λ _, None) Requests.Body
                    Requests.holdSeatSchema (store Requests.gala_held) 2000 0 gala
                    (Some 4) (Requests.from Requests.Ben))).
Defined.

End RouteInstances.

(** ** The quota under overlapping calls *)

Section QuotaRace.

Import SeatService.

Variable maxHoldsPerUser : Z.

Ltac serve_next :=
  rewrite interleave_cons; first [rewrite resume_first | rewrite resume_second];
  unfold hold_step;
  cbn [call_now call_lag call_eventId call_seatNumber call_userId call_holdDuration
       fst snd].

(** X28. Overlapping calls get a holder above the quota. From any store
    where a holder is one seat below the quota and two further seats of the
    event are available, serving the awaits of the holder's two [holdSeat]
    calls for these seats in turn lets both read the count before either
    adds to the set: both succeed, and the holder's set ends with one seat
    more than the quota allows. *)
Theorem overlapping_holds_exceed_quota st e ev u n1 seat1 now1 lag1 d1
    n2 seat2 now2 lag2 d2 :
  event st !! e = Some ev →
  1 ≤ n1 ≤ totalSeats ev → 1 ≤ n2 ≤ totalSeats ev → n1 ≠ n2 →
  seat_at st e n1 = Some seat1 → status seat1 = available →
  seat_at st e n2 = Some seat2 → status seat2 = available →
  Z.of_nat (size (holds_of st u e)) = maxHoldsPerUser - 1 →
  (n1 ∉ holds_of st u e) → (n2 ∉ holds_of st u e) →
  ∃ st',
    interleave maxHoldsPerUser [0; 1; 0; 1; 0; 1; 0; 1; 0; 1; 0; 1]%nat
      ([(mkHoldCall now1 lag1 e n1 u d1, AwaitGetEvent);
        (mkHoldCall now2 lag2 e n2 u d2, AwaitGetEvent)], st)
    = ([(mkHoldCall now1 lag1 e n1 u d1,
         Settled (Ok (mkSeatHold e n1 u now1 (now1 + d1 * 1000))));
        (mkHoldCall now2 lag2 e n2 u d2,
         Settled (Ok (mkSeatHold e n2 u now2 (now2 + d2 * 1000))))], st') ∧
    getUserHoldCount e u st' = (Ok (maxHoldsPerUser + 1), st').
Proof.
  intros Hev Hn1 Hn2 Hne Hs1 Hav1 Hs2 Hav2 Hq Hin1 Hin2.
  unfold seat_at in Hs1, Hs2.
  do 2 (serve_next; unfold getEvent, get_event; unfold_monad; rewrite Hev;
        rewrite decide_False by lia; cbn [fst snd]).
  serve_next. unfold hGet. rewrite Hs1.
  rewrite decide_False by (by rewrite Hav1; intros []). cbn [fst snd].
  serve_next. unfold hGet. rewrite Hs2.
  rewrite decide_False by (by rewrite Hav2; intros []). cbn [fst snd].
  do 2 (serve_next; unfold getUserHoldCount, sCard;
        rewrite decide_False by lia; cbn [fst snd]).
  do 6 serve_next.
  eexists. split; [done|].
  unfold getUserHoldCount, sCard. f_equal. f_equal. store_simpl.
  rewrite !decide_True by done.
  rewrite !size_union, !size_singleton by set_solver. lia.
Qed.

End QuotaRace.

Section QuotaRaceInstance.

Import SeatService Examples.

Lemma overlapping_holds_exceed_quota_witness :
  ∃ st',
    interleave quota [0; 1; 0; 1; 0; 1; 0; 1; 0; 1; 0; 1]%nat
      ([(mkHoldCall 2000 0 "concert" 5 "alice" 60, AwaitGetEvent);
        (mkHoldCall 2001 0 "concert" 6 "alice" 60, AwaitGetEvent)], store four_held)
    = ([(mkHoldCall 2000 0 "concert" 5 "alice" 60,
         Settled (Ok (mkSeatHold "concert" 5 "alice" 2000 (2000 + 60 * 1000))));
        (mkHoldCall 2001 0 "concert" 6 "alice" 60,
         Settled (Ok (mkSeatHold "concert" 6 "alice" 2001 (2001 + 60 * 1000))))], st') ∧
    getUserHoldCount "concert" "alice" st' = (Ok (quota + 1), st').
Proof.
  apply (overlapping_holds_exceed_quota quota (store four_held) "concert"
           (mkEvent "concert" "Concert" "Hall" 10 0 active) "alice"
           5 (mkSeat "concert" 5 available None None None) 2000 0 60
           6 (mkSeat "concert" 6 available None None None) 2001 0 60);
    try (by vm_compute); lia.
Defined.

End QuotaRaceInstance.

(** ** A hold given back *)

Section RoundTrip.

Import SeatService.

Variable maxHoldsPerUser : Z.


End RoundTrip.

Section RoundTripInstance.

Import SeatService Examples.


End RoundTripInstance.
